(** * Schemastery: the resolution engine of [src/index.ts]

    A shallow embedding of [Schema.resolve], of the resolvers registered
    with [Schema.extend] and of the helpers [property] and [merge], over a
    small model of the JavaScript values they work on.

    - A JavaScript value is a primitive or a reference into a heap of
      arrays and plain objects; containers are shared and mutated in place,
      as in the source.
    - Numbers are the integer-valued ones (no NaN, no fractions): the
      source only tests, compares and prints them.
    - Plain objects carry their own enumerable properties in insertion
      order, the order in which [for ... in] visits them (names that read
      as array indices, which JavaScript visits first, are not treated
      apart: the properties that depend on the order are stated for names
      that do not begin with a digit); arrays are dense.
    - Every plain object has the prototype [Object.prototype]: the names of
      its members are [in] every object, and an assignment to [__proto__]
      runs the setter found there instead of creating a property. What such
      a setter does to the prototype, and the value a read of an inherited
      member gives (a function of the host), are not modelled: an object
      keeps its prototype, and a read finds own properties only. The
      properties that depend on either are stated for names that are not
      inherited.
    - The object a resolver builds in a local variable ([result], [temp])
      is a property list until the resolver hands it over, and is stored
      in the heap at that point: nothing else can reach it before.
    - [SchemaError.current] is a field of the state; an exception leaves
      the state as it was when it was thrown. *)

From Stdlib Require Import ZArith Lia Ascii String.
From stdpp Require Import base option list strings pretty numbers.

Open Scope string_scope.

(** ** Values *)

(** A location of the heap. *)
Abbreviation loc := nat (only parsing).

Inductive value : Type :=
| VUndefined
| VNull
| VBool (b : bool)
| VNum (n : Z)
| VStr (s : string)
| VRef (l : loc).

#[global] Instance value_eq_dec : EqDecision value.
Proof. solve_decision. Defined.

(** Own enumerable properties, in insertion order. *)
Definition props := list (string * value).

Inductive obj : Type :=
| OArr (elems : list value)
| OObj (entries : props).

Abbreviation heap := (list obj) (only parsing).

(** [function isNullable(value)]. *)
Definition isNullable (value : value) : bool :=
  match value with
  | VNull | VUndefined => true
  | _ => false
  end.

(** [a === b] on the modelled values. *)
Definition strict_equal (a b : value) : bool := bool_decide (a = b).

(** ** Property lists *)

Fixpoint props_get (key : string) (ps : props) : option value :=
  match ps with
  | [] => None
  | (k, v) :: rest => if String.eqb k key then Some v else props_get key rest
  end.

(** [ps] has an own property [key]. *)
Definition props_has (key : string) (ps : props) : bool :=
  match props_get key ps with Some _ => true | None => false end.

(** An own property [key] is given the value [v]: an existing property
    keeps its place, a new one goes last. *)
Fixpoint props_set (key : string) (v : value) (ps : props) : props :=
  match ps with
  | [] => [(key, v)]
  | (k, w) :: rest =>
      if String.eqb k key then (k, v) :: rest else (k, w) :: props_set key v rest
  end.

(** [delete o[key]]. *)
Fixpoint props_delete (key : string) (ps : props) : props :=
  match ps with
  | [] => []
  | (k, w) :: rest =>
      if String.eqb k key then props_delete key rest else (k, w) :: props_delete key rest
  end.

Definition props_keys (ps : props) : list string := map fst ps.

(** [o[key]] read as a value: a missing property reads [undefined]. *)
Definition props_read (key : string) (ps : props) : value :=
  match props_get key ps with Some v => v | None => VUndefined end.

(** The names of the members of [Object.prototype], which every plain
    object inherits. *)
Definition Object_prototype : list string :=
  ["constructor"; "__defineGetter__"; "__defineSetter__"; "hasOwnProperty";
   "__lookupGetter__"; "__lookupSetter__"; "isPrototypeOf"; "propertyIsEnumerable";
   "toString"; "valueOf"; "__proto__"; "toLocaleString"].

Definition inherited (key : string) : bool := bool_decide (key ∈ Object_prototype).

(** [key in o] for a plain object with the own properties [ps]. *)
Definition props_in (key : string) (ps : props) : bool :=
  props_has key ps || inherited key.

(** [o[key] = v] for a plain object: [__proto__] names an accessor of
    [Object.prototype], so without an own property of that name the
    assignment runs its setter and creates nothing. *)
Definition props_put (key : string) (v : value) (ps : props) : props :=
  if String.eqb key "__proto__" && negb (props_has key ps) then ps
  else props_set key v ps.

(** [Object.assign(target, source)] on property lists. *)
Definition props_assign (source target : props) : props :=
  fold_left (fun acc kv => props_put (fst kv) (snd kv) acc) source target.

(** ** Printing values

    [String(v)] is what a template literal shows, [JSON.stringify(v)] what
    the error messages embed. Both walk the heap; the stack of containers
    being printed detects cycles as the host does ([String] prints a
    repeated array as the empty string, [JSON.stringify] throws). A plain
    object is printed by the [toString] it inherits; the host looks for a
    property [toString] or [valueOf] of its own first, which is not
    modelled. *)

Definition dquote : string := String (ascii_of_nat 34) EmptyString.
Definition backslash : string := String (ascii_of_nat 92) EmptyString.

Fixpoint json_escape (s : string) : string :=
  match s with
  | EmptyString => EmptyString
  | String c rest =>
      if Ascii.eqb c (ascii_of_nat 34) then backslash ++ dquote ++ json_escape rest
      else if Ascii.eqb c (ascii_of_nat 92) then backslash ++ backslash ++ json_escape rest
      else String c (json_escape rest)
  end.

Definition json_quote (s : string) : string := dquote ++ json_escape s ++ dquote.

Definition join (sep : string) (items : list string) : string := String.concat sep items.

Fixpoint ToString_go (fuel : nat) (h : heap) (stack : list loc) (v : value) : string :=
  match v with
  | VUndefined => "undefined"
  | VNull => "null"
  | VBool true => "true"
  | VBool false => "false"
  | VNum n => pretty n
  | VStr s => s
  | VRef l =>
      match h !! l with
      | Some (OArr elems) =>
          if bool_decide (l ∈ stack) then ""
          else match fuel with
               | O => ""
               | S fuel' =>
                   join "," (map (fun e => if isNullable e then ""
                                           else ToString_go fuel' h (l :: stack) e) elems)
               end
      | _ => "[object Object]"
      end
  end.

(** [String(v)], also the conversion of a computed property key. *)
Definition ToString (h : heap) (v : value) : string :=
  ToString_go (S (length h)) h [] v.

Fixpoint stringify_go (fuel : nat) (h : heap) (stack : list loc) (v : value) : option string :=
  match v with
  | VUndefined => Some "undefined"
  | VNull => Some "null"
  | VBool true => Some "true"
  | VBool false => Some "false"
  | VNum n => Some (pretty n)
  | VStr s => Some (json_quote s)
  | VRef l =>
      if bool_decide (l ∈ stack) then None
      else match fuel with
           | O => None
           | S fuel' =>
               match h !! l with
               | Some (OArr elems) =>
                   items ← mapM (fun e => if isNullable e then Some "null"
                                          else stringify_go fuel' h (l :: stack) e) elems;
                   Some ("[" ++ join "," items ++ "]")
               | Some (OObj entries) =>
                   items ← mapM (fun kv : string * value =>
                                   match snd kv with
                                   | VUndefined => Some []
                                   | e => s ← stringify_go fuel' h (l :: stack) e;
                                          Some [json_quote (fst kv) ++ ":" ++ s]
                                   end) entries;
                   Some ("{" ++ join "," (concat items) ++ "}")
               | None => Some "{}"
               end
           end
  end.

(** [JSON.stringify(v)] inside a template literal; [None] when the host
    throws on a circular structure. *)
Definition JSON_stringify (h : heap) (v : value) : option string :=
  stringify_go (S (length h)) h [] v.

(** ** Property access on heap values *)

(** A property key as the source computes it: an array index or a name. *)
Inductive pkey : Type :=
| KIdx (index : nat)
| KStr (key : string).

Definition pkey_string (k : pkey) : string :=
  match k with
  | KIdx i => pretty i
  | KStr s => s
  end.

(** The keys ["0"], ["1"], ... of an array or string of length [n]. *)
Definition index_keys (n : nat) : list string := map pretty (seq 0 n).

(** The resolvers index arrays by position and objects by name; named
    properties of arrays are not modelled. *)
Definition obj_read (o : obj) (key : pkey) : value :=
  match o, key with
  | OArr elems, KIdx i => match elems !! i with Some v => v | None => VUndefined end
  | OArr _, KStr _ => VUndefined
  | OObj entries, _ => props_read (pkey_string key) entries
  end.

(** Writing past the end of an array extends it. *)
Definition obj_write (o : obj) (key : pkey) (v : value) : obj :=
  match o, key with
  | OArr elems, KIdx i =>
      if decide (i < length elems) then OArr (<[i := v]> elems)
      else OArr (elems ++ replicate (i - length elems) VUndefined ++ [v])%list
  | OArr _, KStr _ => o
  | OObj entries, _ => OObj (props_put (pkey_string key) v entries)
  end.

Definition obj_delete (o : obj) (key : string) : obj :=
  match o with
  | OObj entries => OObj (props_delete key entries)
  | OArr _ => o
  end.

Definition obj_keys (o : obj) : list string :=
  match o with
  | OObj entries => props_keys entries
  | OArr elems => index_keys (length elems)
  end.

Definition obj_has (o : obj) (key : string) : bool :=
  match o with
  | OObj entries => props_has key entries
  | OArr elems => bool_decide (key ∈ index_keys (length elems))
  end.

Definition obj_entries (o : obj) : props :=
  match o with
  | OObj entries => entries
  | OArr elems => imap (fun i v => (pretty i, v)) elems
  end.

Definition string_entries (s : string) : props :=
  imap (fun i c => (pretty i, VStr (String c EmptyString))) (list_ascii_of_string s).

(** [data[key]]. *)
Definition heap_read (h : heap) (data : value) (key : pkey) : value :=
  match data with
  | VRef l => match h !! l with Some o => obj_read o key | None => VUndefined end
  | _ => VUndefined
  end.

(** [data[key] = v]. *)
Definition heap_write (h : heap) (data : value) (key : pkey) (v : value) : heap :=
  match data with
  | VRef l => match h !! l with Some o => <[l := obj_write o key v]> h | None => h end
  | _ => h
  end.

(** [delete data[key]]. *)
Definition heap_delete (h : heap) (data : value) (key : string) : heap :=
  match data with
  | VRef l => match h !! l with Some o => <[l := obj_delete o key]> h | None => h end
  | _ => h
  end.

(** [data] has an own property [key]. *)
Definition heap_has (h : heap) (data : value) (key : string) : bool :=
  match data with
  | VRef l => match h !! l with Some o => obj_has o key | None => false end
  | VStr s => bool_decide (key ∈ index_keys (String.length s))
  | _ => false
  end.

(** The keys a [for (const key in data)] starts with. *)
Definition enumerable_keys (h : heap) (data : value) : list string :=
  match data with
  | VRef l => match h !! l with Some o => obj_keys o | None => [] end
  | VStr s => index_keys (String.length s)
  | _ => []
  end.

(** The own enumerable properties [Object.assign] copies from [source]. *)
Definition own_entries (h : heap) (source : value) : props :=
  match source with
  | VRef l => match h !! l with Some o => obj_entries o | None => [] end
  | VStr s => string_entries s
  | _ => []
  end.

(** [function isObject(data)]. *)
Definition isObject (h : heap) (data : value) : bool :=
  match data with
  | VRef l => match h !! l with Some (OObj _) => true | _ => false end
  | _ => false
  end.

(** [key in data]; the source applies [in] to plain objects only. *)
Definition heap_in (h : heap) (data : value) (key : string) : bool :=
  heap_has h data key || (isObject h data && inherited key).

(** [Array.isArray(data)]. *)
Definition isArray (h : heap) (data : value) : bool :=
  match data with
  | VRef l => match h !! l with Some (OArr _) => true | _ => false end
  | _ => false
  end.

(** The elements of an array value. *)
Definition elements (h : heap) (data : value) : list value :=
  match data with
  | VRef l => match h !! l with Some (OArr elems) => elems | _ => [] end
  | _ => []
  end.

(** ** Schemas *)

(** [Schema.Meta]. *)
Record Meta : Type := {
  meta_default : option value;
  meta_required : bool;
  meta_hidden : bool;
  meta_adaptive : bool;
  meta_description : option string;
  meta_comment : option string
}.

(** [schema.meta ||= {}]. *)
Definition empty_meta : Meta :=
  {| meta_default := None; meta_required := false; meta_hidden := false;
     meta_adaptive := false; meta_description := None; meta_comment := None |}.

(** [schema.meta.default] as read by [resolve]: unset reads [undefined]. *)
Definition fallback_of (m : Meta) : value :=
  match meta_default m with Some v => v | None => VUndefined end.

(** The class given to [Schema.is]: its [name] and its [instanceof] test. *)
Record Constructor : Type := {
  ctor_name : string;
  ctor_hasInstance : heap -> value -> bool
}.

(** What a call of a user function given to [Schema.transform] does: it
    returns or throws, after setting and deleting properties of containers
    and creating new ones. *)
Inductive completion : Type :=
| Return (v : value)
| ThrowSchemaError (message : string)
| ThrowOther (what : string).

Inductive effect : Type :=
| SetProperty (target : value) (key : pkey) (v : value)   (* target[key] = v *)
| DeleteProperty (target : value) (key : string)          (* delete target[key] *)
| Create (o : obj).                                        (* a new container *)

Definition apply_effect (h : heap) (e : effect) : heap :=
  match e with
  | SetProperty target key v => heap_write h target key v
  | DeleteProperty target key => heap_delete h target key
  | Create o => (h ++ [o])%list
  end.

Definition Callback := value -> heap -> completion * list effect.

(** [Schema.Base], one constructor per [type] that [defineMethod] declares,
    with the payload that method stores; [Sextern] is a schema built with
    [new Schema({ type })] for a [type] under which the table [resolvers]
    finds nothing: no resolver is registered for it, and it is not the name
    of a member of [Object.prototype]. *)
#[local] Unset Elimination Schemes.
Inductive Schema : Type :=
| Sany (meta : Meta)
| Snever (meta : Meta)
| Sconst (value : value) (meta : Meta)
| Sstring (meta : Meta)
| Snumber (meta : Meta)
| Sboolean (meta : Meta)
| Sis (callback : Constructor) (meta : Meta)
| Sarray (inner : Schema) (meta : Meta)
| Sdict (inner sKey : Schema) (meta : Meta)
| Stuple (list : list Schema) (meta : Meta)
| Sobject (dict : list (string * Schema)) (meta : Meta)
| Sunion (list : list Schema) (meta : Meta)
| Sintersect (list : list Schema) (meta : Meta)
| Stransform (inner : Schema) (callback : Callback) (meta : Meta)
| Sextern (type : string) (meta : Meta).
#[local] Set Elimination Schemes.

Definition meta (schema : Schema) : Meta :=
  match schema with
  | Sany m | Snever m | Sconst _ m | Sstring m | Snumber m | Sboolean m
  | Sis _ m | Sarray _ m | Sdict _ _ m | Stuple _ m | Sobject _ m
  | Sunion _ m | Sintersect _ m | Stransform _ _ m | Sextern _ m => m
  end.

Definition type (schema : Schema) : string :=
  match schema with
  | Sany _ => "any"
  | Snever _ => "never"
  | Sconst _ _ => "const"
  | Sstring _ => "string"
  | Snumber _ => "number"
  | Sboolean _ => "boolean"
  | Sis _ _ => "is"
  | Sarray _ _ => "array"
  | Sdict _ _ _ => "dict"
  | Stuple _ _ => "tuple"
  | Sobject _ _ => "object"
  | Sunion _ _ => "union"
  | Sintersect _ _ => "intersect"
  | Stransform _ _ _ => "transform"
  | Sextern t _ => t
  end.

Definition with_meta (f : Meta -> Meta) (schema : Schema) : Schema :=
  match schema with
  | Sany m => Sany (f m)
  | Snever m => Snever (f m)
  | Sconst v m => Sconst v (f m)
  | Sstring m => Sstring (f m)
  | Snumber m => Snumber (f m)
  | Sboolean m => Sboolean (f m)
  | Sis c m => Sis c (f m)
  | Sarray i m => Sarray i (f m)
  | Sdict i k m => Sdict i k (f m)
  | Stuple l m => Stuple l (f m)
  | Sobject d m => Sobject d (f m)
  | Sunion l m => Sunion l (f m)
  | Sintersect l m => Sintersect l (f m)
  | Stransform i c m => Stransform i c (f m)
  | Sextern t m => Sextern t (f m)
  end.

(** The chainable setters of [Schema.prototype]. *)
Definition required (schema : Schema) : Schema :=
  with_meta (fun m => {| meta_default := meta_default m; meta_required := true;
                         meta_hidden := meta_hidden m; meta_adaptive := meta_adaptive m;
                         meta_description := meta_description m;
                         meta_comment := meta_comment m |}) schema.

Definition hidden (schema : Schema) : Schema :=
  with_meta (fun m => {| meta_default := meta_default m; meta_required := meta_required m;
                         meta_hidden := true; meta_adaptive := meta_adaptive m;
                         meta_description := meta_description m;
                         meta_comment := meta_comment m |}) schema.

Definition adaptive (schema : Schema) : Schema :=
  with_meta (fun m => {| meta_default := meta_default m; meta_required := meta_required m;
                         meta_hidden := meta_hidden m; meta_adaptive := true;
                         meta_description := meta_description m;
                         meta_comment := meta_comment m |}) schema.

Definition default (v : value) (schema : Schema) : Schema :=
  with_meta (fun m => {| meta_default := Some v; meta_required := meta_required m;
                         meta_hidden := meta_hidden m; meta_adaptive := meta_adaptive m;
                         meta_description := meta_description m;
                         meta_comment := meta_comment m |}) schema.

Definition comment (text : string) (schema : Schema) : Schema :=
  with_meta (fun m => {| meta_default := meta_default m; meta_required := meta_required m;
                         meta_hidden := meta_hidden m; meta_adaptive := meta_adaptive m;
                         meta_description := meta_description m;
                         meta_comment := Some text |}) schema.

Definition description (text : string) (schema : Schema) : Schema :=
  with_meta (fun m => {| meta_default := meta_default m; meta_required := meta_required m;
                         meta_hidden := meta_hidden m; meta_adaptive := meta_adaptive m;
                         meta_description := Some text;
                         meta_comment := meta_comment m |}) schema.

(** ** Exceptions, state and the resolution monad *)

(** A thrown value: a [SchemaError] with its message and the schema that
    [init] found in [SchemaError.current] when it was built, or any other
    error. *)
Inductive exn : Type :=
| SchemaError (message : string) (context : option Schema)
| OtherError (what : string).

(** [error.message]. *)
Definition exn_message (e : exn) : string :=
  match e with
  | SchemaError message _ => message
  | OtherError what => what
  end.

Record state : Type := {
  heap_of : heap;
  current : option Schema   (* SchemaError.current *)
}.

Inductive outcome (A : Type) : Type :=
| Ok (a : A)
| Throw (e : exn).
Arguments Ok {A} a.
Arguments Throw {A} e.

Definition M (A : Type) : Type := state -> outcome A * state.

#[global] Instance M_ret : MRet M := fun A a s => (Ok a, s).
#[global] Instance M_bind : MBind M := fun A B f m s =>
  match m s with
  | (Ok a, s') => f a s'
  | (Throw e, s') => (Throw e, s')
  end.

Definition throw {A} (e : exn) : M A := fun s => (Throw e, s).

(** [try { body } catch (error) { handler(error) }]. *)
Definition try_catch {A} (body : M A) (handler : exn -> M A) : M A := fun s =>
  match body s with
  | (Throw e, s') => handler e s'
  | r => r
  end.

(** [try { body } finally { cleanup }] for a cleanup that cannot throw. *)
Definition try_finally {A} (body : M A) (cleanup : state -> state) : M A := fun s =>
  let '(r, s') := body s in (r, cleanup s').

Definition get_heap : M heap := fun s => (Ok (heap_of s), s).

Definition set_heap (h : heap) (s : state) : state :=
  {| heap_of := h; current := current s |}.

Definition set_current (c : option Schema) (s : state) : state :=
  {| heap_of := heap_of s; current := c |}.

Definition modify (f : state -> state) : M unit := fun s => (Ok tt, f s).

(** [new SchemaError(message)]: [init] records [SchemaError.current]. It
    does so by printing the schema into the second line of the stack the
    host gave the error; the error is built here whether or not that schema
    can be printed, and the properties that name the error thrown are
    stated for schemas that can. *)
Definition new_SchemaError (message : string) : M exn := fun s =>
  (Ok (SchemaError message (current s)), s).

(** [throw new SchemaError(message)]. *)
Definition throw_SchemaError {A} (message : string) : M A :=
  error ← new_SchemaError message; throw error.

(** [JSON.stringify(data)] inside a message. *)
Definition stringify (data : value) : M string := fun s =>
  match JSON_stringify (heap_of s) data with
  | Some text => (Ok text, s)
  | None => (Throw (OtherError "Converting circular structure to JSON"), s)
  end.

(** A call [callback(v)] of a user function. *)
Definition call (callback : Callback) (v : value) : M value := fun s =>
  let '(outcome, effects) := callback v (heap_of s) in
  let s' := set_heap (fold_left apply_effect effects (heap_of s)) s in
  match outcome with
  | Return r => (Ok r, s')
  | ThrowSchemaError message => (Throw (SchemaError message (current s)), s')
  | ThrowOther what => (Throw (OtherError what), s')
  end.

(** ** Heap operations of the resolution monad *)

Definition get_property (data : value) (key : pkey) : M value := fun s =>
  (Ok (heap_read (heap_of s) data key), s).

Definition set_property (data : value) (key : pkey) (v : value) : M unit :=
  modify (fun s => set_heap (heap_write (heap_of s) data key v) s).

Definition delete_property (data : value) (key : string) : M unit :=
  modify (fun s => set_heap (heap_delete (heap_of s) data key) s).

(** Whether [data] still has the own property [key]. *)
Definition has_property (data : value) (key : string) : M bool := fun s =>
  (Ok (heap_has (heap_of s) data key), s).

(** [key in data]. *)
Definition in_property (data : value) (key : string) : M bool := fun s =>
  (Ok (heap_in (heap_of s) data key), s).

(** A fresh container: [{}], [[]] or the array [map] builds, stored when the
    code lets go of it. *)
Definition alloc (o : obj) : M value := fun s =>
  (Ok (VRef (length (heap_of s))), set_heap (heap_of s ++ [o])%list s).

(** [for (const key in subject) body]: the keys are those the loop starts
    with; one that was deleted before its turn is not visited. *)
Fixpoint for_in_loop {A} (subject : value) (keys : list string)
    (body : string -> A -> M A) (acc : A) : M A :=
  match keys with
  | [] => mret acc
  | key :: rest =>
      present ← has_property subject key;
      if (present : bool) then acc' ← body key acc; for_in_loop subject rest body acc'
      else for_in_loop subject rest body acc
  end.

Definition for_in {A} (subject : value) (body : string -> A -> M A) (acc : A) : M A :=
  h ← get_heap;
  for_in_loop subject (enumerable_keys h subject) body acc.

(** [Object.assign(data, source)] on a heap object [data]. *)
Definition assign_into (data source : value) : M unit :=
  modify (fun s =>
    set_heap (fold_left (fun h kv => heap_write h data (KStr (fst kv)) (snd kv))
                        (own_entries (heap_of s) source) (heap_of s)) s).

(** ** The resolvers

    [Schema.Resolve]: a resolver takes the data and the [strict] hint and
    returns the pair [[value, adapted]]; a one-element result [[value]] has
    [adapted] undefined. A resolver registered for a container type is
    given the resolution of its sub-schemas, that is [Schema.resolve]
    applied to [inner], [sKey] or the members of [list] and [dict]. *)

Definition Resolve := value -> bool -> M (value * value).

(** [Schema.extend('any', ...)]. *)
Definition resolve_any : Resolve := fun data _ =>
  mret (data, VUndefined).

(** [Schema.extend('never', ...)]. *)
Definition resolve_never : Resolve := fun data _ =>
  text ← stringify data;
  throw_SchemaError ("expected nullable but got " ++ text).

(** [Schema.extend('const', ...)]. *)
Definition resolve_const (value : value) : Resolve := fun data _ =>
  if strict_equal data value then mret (value, VUndefined)
  else
    h ← get_heap;
    text ← stringify data;
    throw_SchemaError ("expected " ++ ToString h value ++ " but got " ++ text).

(** [Schema.extend('string', ...)]. *)
Definition resolve_string : Resolve := fun data _ =>
  match data with
  | VStr _ => mret (data, VUndefined)
  | _ => text ← stringify data;
         throw_SchemaError ("expected string but got " ++ text)
  end.

(** [Schema.extend('number', ...)]. *)
Definition resolve_number : Resolve := fun data _ =>
  match data with
  | VNum _ => mret (data, VUndefined)
  | _ => text ← stringify data;
         throw_SchemaError ("expected number but got " ++ text)
  end.

(** [Schema.extend('boolean', ...)]. *)
Definition resolve_boolean : Resolve := fun data _ =>
  match data with
  | VBool _ => mret (data, VUndefined)
  | _ => text ← stringify data;
         throw_SchemaError ("expected boolean but got " ++ text)
  end.

(** [Schema.extend('is', ...)]. *)
Definition resolve_is (callback : Constructor) : Resolve := fun data _ =>
  h ← get_heap;
  if ctor_hasInstance callback h data then mret (data, VUndefined)
  else throw_SchemaError ("expected " ++ ctor_name callback ++ " but got " ++ ToString h data).

(** [function property(data, key, schema)]; the nested [Schema.resolve] is
    called without a hint. *)
Definition property (data : value) (key : pkey) (schema : Resolve) : M value :=
  item ← get_property data key;
  '(value, adapted) ← schema item false;
  if isNullable adapted then mret value
  else set_property data key adapted;; mret value.

Definition expected_array {A} (data : value) : M A :=
  text ← stringify data;
  throw_SchemaError ("expected array but got " ++ text).

Definition expected_object {A} (data : value) : M A :=
  text ← stringify data;
  throw_SchemaError ("expected object but got " ++ text).

(** [Schema.extend('array', ...)]: [data.map] visits the indices below the
    length the array has when it starts. *)
Definition resolve_array (inner : Resolve) : Resolve := fun data _ =>
  h ← get_heap;
  if negb (isArray h data) then expected_array data
  else
    result ← mapM (fun index => property data (KIdx index) inner)
                  (seq 0 (length (elements h data)));
    array ← alloc (OArr result);
    mret (array, VUndefined).

(** One turn of the loop of the dict resolver. *)
Definition dict_body (inner sKey : Resolve) (strict : bool) (data : value)
    (key : string) (result : props) : M props :=
  rKey ← try_catch (r ← sKey (VStr key) false; mret (Some (fst r)))
                   (fun error => if strict then mret None else throw error);
  match rKey with
  | None => mret result
  | Some rKey =>
      value ← property data (KStr key) inner;
      h ← get_heap;
      let name := ToString h rKey in
      item ← get_property data (KStr key);
      set_property data (KStr name) item;;
      delete_property data key;;
      mret (props_put name value result)
  end.

(** [Schema.extend('dict', ...)]. *)
Definition resolve_dict (inner sKey : Resolve) : Resolve := fun data strict =>
  h ← get_heap;
  if negb (isObject h data) then expected_object data
  else
    result ← for_in data (dict_body inner sKey strict data) [];
    object ← alloc (OObj result);
    mret (object, VUndefined).

(** [list.map((inner, index) => property(data, index, inner))]. *)
Fixpoint tuple_loop (lst : list Resolve) (data : value) (index : nat) : M (list value) :=
  match lst with
  | [] => mret []
  | inner :: rest =>
      value ← property data (KIdx index) inner;
      values ← tuple_loop rest data (S index);
      mret (value :: values)
  end.

(** [Schema.extend('tuple', ...)]. *)
Definition resolve_tuple (lst : list Resolve) : Resolve := fun data strict =>
  h ← get_heap;
  if negb (isArray h data) then expected_array data
  else
    result ← tuple_loop lst data 0;
    if strict then array ← alloc (OArr result); mret (array, VUndefined)
    else
      h' ← get_heap;
      array ← alloc (OArr (result ++ drop (length lst) (elements h' data))%list);
      mret (array, VUndefined).

(** One turn of the loop of [merge]. *)
Definition merge_body (data : value) (key : string) (result : props) : M props :=
  if props_in key result then mret result
  else item ← get_property data (KStr key); mret (props_put key item result).

(** [function merge(result, data)]. *)
Definition merge (result : props) (data : value) : M props :=
  for_in data (merge_body data) result.

(** The loop [for (const key in dict)] of the object resolver. *)
Fixpoint object_loop (dict : list (string * Resolve)) (data : value) (result : props)
    : M props :=
  match dict with
  | [] => mret result
  | (key, schema) :: rest =>
      value ← property data (KStr key) schema;
      present ← in_property data key;
      if negb (isNullable value) || present
      then object_loop rest data (props_put key value result)
      else object_loop rest data result
  end.

(** [Schema.extend('object', ...)]. *)
Definition resolve_object (dict : list (string * Resolve)) : Resolve := fun data strict =>
  h ← get_heap;
  if negb (isObject h data) then expected_object data
  else
    result ← object_loop dict data [];
    result ← (if strict then mret result else merge result data);
    object ← alloc (OObj result);
    mret (object, VUndefined).

(** The loop of the union resolver: the first alternative that resolves
    returns; the messages of the others are pushed on [messages]. *)
Fixpoint union_loop (lst : list Resolve) (data : value) (messages : list string)
    : M (value * value + list string) :=
  match lst with
  | [] => mret (inr messages)
  | inner :: rest =>
      try_catch (r ← inner data false; mret (inl r))
                (fun error => union_loop rest data (messages ++ [exn_message error])%list)
  end.

(** [Schema.extend('union', ...)]. *)
Definition resolve_union (lst : list Resolve) : Resolve := fun data _ =>
  r ← union_loop lst data [];
  match r with
  | inl result => mret result
  | inr messages =>
      text ← stringify data;
      throw_SchemaError ("expected union but got " ++ text)
  end.

(** The loop of the intersect resolver. *)
Fixpoint intersect_loop (lst : list Resolve) (data : value) (result : props) : M props :=
  match lst with
  | [] => mret result
  | inner :: rest =>
      r ← inner data true;
      h ← get_heap;
      intersect_loop rest data (props_assign (own_entries h (fst r)) result)
  end.

(** [Schema.extend('intersect', ...)]. *)
Definition resolve_intersect (lst : list Resolve) : Resolve := fun data _ =>
  result ← intersect_loop lst data [];
  h ← get_heap;
  result ← (if isObject h data then merge result data else mret result);
  object ← alloc (OObj result);
  mret (object, VUndefined).

(** One turn of the loop of the transform resolver. *)
Definition transform_body (data : value) (key : string) (temp : props) : M props :=
  present ← in_property data key;
  if negb present then mret temp
  else
    item ← get_property data (KStr key);
    delete_property data key;;
    mret (props_put key item temp).

(** [Schema.extend('transform', ...)]; [adapted = data] applies when the
    inner resolution left [adapted] undefined. *)
Definition resolve_transform (inner : Resolve) (callback : Callback) : Resolve :=
  fun data _ =>
  '(result, adapted) ← inner data true;
  let adapted := match adapted with VUndefined => data | _ => adapted end in
  h ← get_heap;
  if isObject h data then
    temp ← for_in result (transform_body data) [];
    temp ← alloc (OObj temp);
    patch ← call callback temp;
    assign_into data patch;;
    value ← call callback result;
    mret (value, VUndefined)
  else
    value ← call callback result;
    echo ← call callback adapted;
    mret (value, echo).

(** ** [Schema.resolve] *)

(** The [catch] clause of [resolve]: a [SchemaError] is built anew with the
    same message, anything else is thrown again as it is. *)
Definition rewrap {A} (error : exn) : M A :=
  match error with
  | SchemaError message _ => throw_SchemaError message
  | _ => throw error
  end.

(** The body of [Schema.resolve] for a schema that is present; [callback]
    is [resolvers[schema.type]] applied to the payload of [schema]. *)
Definition resolve_with (schema : Schema) (callback : option Resolve) : Resolve :=
  fun data hint s =>
  let previous := current s in
  let dispatch (data : value) : M (value * value) :=
    match callback with
    | None => throw_SchemaError ("unsupported type " ++ dquote ++ type schema ++ dquote)
    | Some callback => callback data hint
    end in
  try_finally
    (try_catch
       (modify (set_current (Some schema));;
        if isNullable data then
          if meta_required (meta schema) then throw_SchemaError "missing required value"
          else
            let fallback := fallback_of (meta schema) in
            if isNullable fallback then mret (data, VUndefined)
            else dispatch fallback
        else dispatch data)
       rewrap)
    (set_current previous) s.

(** [Schema.resolve(data, schema, hint)] for a schema that is present; the
    [match] is the table [resolvers] as the calls of [Schema.extend] fill it. *)
Fixpoint resolve_schema (schema : Schema) : Resolve :=
  resolve_with schema
    match schema with
    | Sany _ => Some resolve_any
    | Snever _ => Some resolve_never
    | Sconst value _ => Some (resolve_const value)
    | Sstring _ => Some resolve_string
    | Snumber _ => Some resolve_number
    | Sboolean _ => Some resolve_boolean
    | Sis callback _ => Some (resolve_is callback)
    | Sarray inner _ => Some (resolve_array (resolve_schema inner))
    | Sdict inner sKey _ => Some (resolve_dict (resolve_schema inner) (resolve_schema sKey))
    | Stuple list _ => Some (resolve_tuple (map resolve_schema list))
    | Sobject dict _ =>
        Some (resolve_object (map (fun kv => (fst kv, resolve_schema (snd kv))) dict))
    | Sunion list _ => Some (resolve_union (map resolve_schema list))
    | Sintersect list _ => Some (resolve_intersect (map resolve_schema list))
    | Stransform inner callback _ =>
        Some (resolve_transform (resolve_schema inner) callback)
    | Sextern _ _ => None
    end.

(** [Schema.resolve = function resolve(data, schema, hint)]. *)
Definition resolve (data : value) (schema : option Schema) (hint : bool) : M (value * value) :=
  match schema with
  | None => mret (data, VUndefined)
  | Some schema => resolve_schema schema data hint
  end.

(** The function a schema is: [schema(data)] is [Schema.resolve(data, schema)[0]]. *)
Definition invoke (schema : Schema) (data : value) : M value :=
  r ← resolve data (Some schema) false;
  mret (fst r).

(** ** [Schema.from] and the methods [defineMethod] declares *)

(** What user code passes where a schema is expected. *)
Inductive source : Type :=
| FromValue (v : value)           (* a plain value: literal, null, object ... *)
| FromSchema (schema : Schema)    (* a schema: [source[kSchema]] *)
| FromString                      (* the constructor String *)
| FromNumber
| FromBoolean
| FromClass (c : Constructor).    (* any other function *)

(** [Schema.from(source)]; [None] when it throws [cannot infer schema]. *)
Definition from (src : source) : option Schema :=
  match src with
  | FromValue v =>
      if isNullable v then Some (Sany empty_meta)
      else match v with
           | VStr _ | VNum _ | VBool _ => Some (required (Sconst v empty_meta))
           | _ => None
           end
  | FromSchema schema => Some schema
  | FromString => Some (Sstring empty_meta)
  | FromNumber => Some (Snumber empty_meta)
  | FromBoolean => Some (Sboolean empty_meta)
  | FromClass c => Some (Sis c empty_meta)
  end.

Module Schema.
Definition any : Schema := Sany empty_meta.
Definition never : Schema := Snever empty_meta.
Definition const (value : value) : Schema := Sconst value empty_meta.
Definition string : Schema := Sstring empty_meta.
Definition number : Schema := Snumber empty_meta.
Definition boolean : Schema := Sboolean empty_meta.
Definition is_ (callback : Constructor) : Schema := Sis callback empty_meta.
Definition array (inner : source) : option Schema :=
    inner ← from inner; Some (Sarray inner empty_meta).
Definition dict (inner sKey : source) : option Schema :=
    inner ← from inner; sKey ← from sKey; Some (Sdict inner sKey empty_meta).
Definition tuple (lst : list source) : option Schema :=
    lst ← mapM from lst; Some (Stuple lst empty_meta).
Definition object (dict : list (String.string * source)) : option Schema :=
    dict ← mapM (fun kv => schema ← from (snd kv); Some (fst kv, schema)) dict;
    Some (Sobject dict empty_meta).
Definition union (lst : list source) : option Schema :=
    lst ← mapM from lst; Some (Sunion lst empty_meta).
Definition intersect (lst : list source) : option Schema :=
    lst ← mapM from lst; Some (Sintersect lst empty_meta).
Definition transform (inner : source) (callback : Callback) : option Schema :=
    inner ← from inner; Some (Stransform inner callback empty_meta).
End Schema.

(** * Definitions used to state the properties *)


(** Concrete schemas and states of the examples. *)

(** A state whose [SchemaError.current] is still [null]. *)
Definition initial (h : heap) : state := {| heap_of := h; current := None |}.

Definition union_a_b : Schema :=
  Sunion [Schema.const (VStr "a"); Schema.const (VStr "b")] empty_meta.

(** [object({ a: string().required() }).default({})], the default object
    stored at location 0. *)
Definition object_with_required_field : Schema :=
  default (VRef 0) (Sobject [("a", required Schema.string)] empty_meta).

(** [object({ a: number() })] and the input [{ a: 1, b: 2 }]. *)
Definition object_a_number : Schema := Sobject [("a", Schema.number)] empty_meta.
Definition input_a1_b2 : obj := OObj [("a", VNum 1); ("b", VNum 2)].


(** [dict(any(), "a")]: the key schema is [Schema.from("a")], that is
    [const("a").required()]; and the input [{ b: 1 }]. *)
Definition dict_key_a : Schema :=
  Sdict Schema.any (required (Schema.const (VStr "a"))) empty_meta.
Definition input_b1 : obj := OObj [("b", VNum 1)].

(** [transform(number(), (x) => x + 1)]. *)
Definition increment : Callback := fun v _ =>
  (match v with VNum n => Return (VNum (n + 1)) | _ => Return v end, []).
Definition transform_increment : Schema :=
  Stransform Schema.number increment empty_meta.

(** [dict(number())], with no key schema, and the input [{ a: 1, b: 2 }]. *)
Definition dict_of_numbers : option Schema :=
  Schema.dict (FromSchema Schema.number) (FromValue VUndefined).

(** [object({ a: number(), b: array(string().default("d")) })] and the
    input [{ a: 1, b: [null], c: true }], its array stored at location 0. *)
Definition object_a_b : Schema :=
  Sobject [("a", Schema.number);
           ("b", Sarray (default (VStr "d") Schema.string) empty_meta)] empty_meta.
Definition input_a_b_c : heap :=
  [OArr [VNull]; OObj [("a", VNum 1); ("b", VRef 0); ("c", VBool true)]].

(** [union([object({ a: const("y").required(), b: any().default(1) }),
    object({ a: any().default("y") })])]. *)
Definition union_of_objects : Schema :=
  Sunion [Sobject [("a", required (Schema.const (VStr "y")));
                   ("b", default (VNum 1) Schema.any)] empty_meta;
          Sobject [("a", default (VStr "y") Schema.any)] empty_meta] empty_meta.

(** [intersect([string()])] and [dict(any())]. *)
Definition intersect_string : Schema := Sintersect [Schema.string] empty_meta.
Definition dict_any : Schema := Sdict Schema.any Schema.any empty_meta.

(** [needle] occurs in [text]. *)
Definition mentions (text needle : string) : bool :=
  match String.index 0 needle text with Some _ => true | None => false end.




(** The kinds without sub-schemas or callback: any, never, const, string,
    number, boolean and is. *)
Definition is_leaf (schema : Schema) : bool :=
  match schema with
  | Sany _ | Snever _ | Sconst _ _ | Sstring _ | Snumber _ | Sboolean _ | Sis _ _ => true
  | _ => false
  end.

(** A resolver that, when it returns, returns its data and changes nothing. *)
Definition returns_data (r : Resolve) : Prop :=
  forall data hint s v a s',
    r data hint s = (Ok (v, a), s') -> v = data /\ a = VUndefined /\ s' = s.

(** Two values are the same data in the heap [h]: the same value, two
    arrays with the same data at each index, or two plain objects with the
    same keys and the same data under each key. *)
#[local] Unset Elimination Schemes.
Inductive same (h : heap) : value -> value -> Prop :=
| same_refl v : same h v v
| same_array l1 l2 elems1 elems2 :
    h !! l1 = Some (OArr elems1) -> h !! l2 = Some (OArr elems2) ->
    Forall2 (same h) elems1 elems2 ->
    same h (VRef l1) (VRef l2)
| same_object l1 l2 entries1 entries2 :
    h !! l1 = Some (OObj entries1) -> h !! l2 = Some (OObj entries2) ->
    (forall key, option_Forall2 (same h) (props_get key entries1) (props_get key entries2)) ->
    same h (VRef l1) (VRef l2).
#[local] Set Elimination Schemes.

(** The schemas made of leaf kinds, array, tuple and object: no transform,
    union, intersect or dict at any depth. The test of an [is] does not
    change when containers are added to the heap, and the fields of an
    object have distinct names, none of them [__proto__]. *)
Fixpoint plain (schema : Schema) : Prop :=
  match schema with
  | Sany _ | Snever _ | Sconst _ _ | Sstring _ | Snumber _ | Sboolean _ => True
  | Sis callback _ =>
      forall (h h' : heap) v, h `prefix_of` h' ->
        ctor_hasInstance callback h v = ctor_hasInstance callback h' v
  | Sarray inner _ => plain inner
  | Stuple lst _ => fold_right (fun x acc => plain x /\ acc) True lst
  | Sobject dict _ =>
      NoDup (map fst dict) /\ ("__proto__" ∉ map fst dict)
      /\ fold_right (fun kv acc => plain (snd kv) /\ acc) True dict
  | _ => False
  end.

(** The heap of [s] starts with [h0]: containers were added, none changed. *)
Definition grows_from (h0 : heap) (s : state) : Prop := h0 `prefix_of` heap_of s.

(** A resolver that only adds containers to the heap, returns no adapted
    echo, and returns a null value only if that is its data. *)
Definition quiet (r : Resolve) : Prop :=
  forall data hint s,
    heap_of s `prefix_of` heap_of (snd (r data hint s))
    /\ forall v a, fst (r data hint s) = Ok (v, a) ->
         a = VUndefined /\ (isNullable v = true -> v = data).

(** A resolver that resolves what it returned, in the heap it left or a
    larger one, to the same data. *)
Definition idempotent (r : Resolve) : Prop :=
  forall x hint s v a s1,
    r x hint s = (Ok (v, a), s1) ->
    forall t, heap_of s1 `prefix_of` heap_of t ->
      exists v' t', r v hint t = (Ok (v', VUndefined), t') /\ same (heap_of t') v v'.

(** Invariants of a resolution. A computation keeps the property [Inv] of
    states when it leaves it true in the state it ends in, by a return or by
    a throw, and what it returns is in [G]. *)
Definition keeps {A} (Inv : state -> Prop) (G : A -> Prop) (m : M A) : Prop :=
  forall s, Inv s -> Inv (snd (m s)) /\ forall a, fst (m s) = Ok a -> G a.

(** A resolver is sound for [Inv] and a property [good] of values when, on
    good data, it keeps [Inv] and returns a good value and a good echo. *)
Definition sound (Inv : state -> Prop) (good : value -> Prop) (r : Resolve) : Prop :=
  forall data hint, good data ->
    keeps Inv (fun va => good (fst va) /\ good (snd va)) (r data hint).

Definition sound_call (Inv : state -> Prop) (good : value -> Prop) (callback : Callback) : Prop :=
  forall v, good v -> keeps Inv good (call callback v).

Definition is_ref (v : value) : bool :=
  match v with VRef _ => true | _ => false end.

(** The values a container holds. *)
Definition obj_values (o : obj) : list value :=
  match o with
  | OArr elems => elems
  | OObj entries => map snd entries
  end.

Definition good_props (good : value -> Prop) (ps : props) : Prop :=
  Forall (fun kv => good (snd kv)) ps.

(** What the heap operations must grant for [Inv] and [good] to be kept:
    reads of good containers are good, writes of good values into good
    containers keep [Inv], and so does storing a new container of good
    values, whose reference is good. *)
Record invariant (Inv : state -> Prop) (good : value -> Prop) : Prop := {
  inv_primitive : forall v, is_ref v = false -> good v;
  inv_read : forall s data key,
    Inv s -> good data -> good (heap_read (heap_of s) data key);
  inv_write : forall s data key v,
    Inv s -> good data -> good v -> Inv (set_heap (heap_write (heap_of s) data key v) s);
  inv_delete : forall s data key,
    Inv s -> good data -> Inv (set_heap (heap_delete (heap_of s) data key) s);
  inv_alloc : forall s o,
    Inv s -> Forall good (obj_values o) ->
    Inv (set_heap (heap_of s ++ [o])%list s) /\ good (VRef (length (heap_of s)));
  inv_entries : forall s v,
    Inv s -> good v -> good_props good (own_entries (heap_of s) v);
  inv_elements : forall s data,
    Inv s -> good data -> Forall good (elements (heap_of s) data)
}.

(** The defaults of a schema and of its sub-schemas are good and their
    callbacks keep [Inv]. *)
Fixpoint schema_ok (Inv : state -> Prop) (good : value -> Prop) (schema : Schema) : Prop :=
  good (fallback_of (meta schema)) /\
  match schema with
  | Sarray inner _ => schema_ok Inv good inner
  | Sdict inner sKey _ => schema_ok Inv good inner /\ schema_ok Inv good sKey
  | Stuple lst _ | Sunion lst _ | Sintersect lst _ =>
      fold_right (fun x acc => schema_ok Inv good x /\ acc) True lst
  | Sobject dict _ =>
      fold_right (fun kv acc => schema_ok Inv good (snd kv) /\ acc) True dict
  | Stransform inner callback _ => schema_ok Inv good inner /\ sound_call Inv good callback
  | _ => True
  end.


(** A value other than the reference to [l]. *)
Definition avoids (l : loc) (v : value) : Prop := v <> VRef l.

(** No container of the heap holds a reference to [l]. *)
Definition unreferenced (l : loc) (h : heap) : Prop :=
  forall l' o, h !! l' = Some o -> Forall (avoids l) (obj_values o).

(** The location [l] holds [o], and nothing in the heap refers to it: only
    who was given [VRef l] can reach it. *)
Definition framed (l : loc) (o : obj) (s : state) : Prop :=
  heap_of s !! l = Some o /\ unreferenced l (heap_of s).

(** A resolver of keys that maps each key to itself and changes nothing. *)
Definition key_identity (sKey : Resolve) : Prop :=
  forall key s, exists a, sKey (VStr key) false s = (Ok (VStr key, a), s).

(** [SchemaError.current] is [c]. *)
Definition current_is (c : option Schema) (s : state) : Prop := current s = c.

Definition any_value (v : value) : Prop := True.

(** * Reasoning principles *)

(** Induction on schemas, through the lists of sub-schemas. *)
Section SchemaInduction.
Variable P : Schema -> Prop.
Hypothesis Hany : forall m, P (Sany m).
Hypothesis Hnever : forall m, P (Snever m).
Hypothesis Hconst : forall v m, P (Sconst v m).
Hypothesis Hstring : forall m, P (Sstring m).
Hypothesis Hnumber : forall m, P (Snumber m).
Hypothesis Hboolean : forall m, P (Sboolean m).
Hypothesis His : forall c m, P (Sis c m).
Hypothesis Harray : forall inner m, P inner -> P (Sarray inner m).
Hypothesis Hdict : forall inner sKey m, P inner -> P sKey -> P (Sdict inner sKey m).
Hypothesis Htuple : forall lst m, Forall P lst -> P (Stuple lst m).
Hypothesis Hobject : forall dict m, Forall (fun kv => P (snd kv)) dict -> P (Sobject dict m).
Hypothesis Hunion : forall lst m, Forall P lst -> P (Sunion lst m).
Hypothesis Hintersect : forall lst m, Forall P lst -> P (Sintersect lst m).
Hypothesis Htransform : forall inner c m, P inner -> P (Stransform inner c m).
Hypothesis Hextern : forall t m, P (Sextern t m).

Fixpoint Schema_ind (schema : Schema) : P schema :=
    let all := fix all (l : list Schema) : Forall P l :=
      match l with
      | [] => Forall_nil _
      | x :: l' => Forall_cons _ _ _ (Schema_ind x) (all l')
      end in
    let fields := fix fields (d : list (string * Schema)) : Forall (fun kv => P (snd kv)) d :=
      match d with
      | [] => Forall_nil _
      | kv :: d' => Forall_cons (fun kv => P (snd kv)) kv d' (Schema_ind (snd kv)) (fields d')
      end in
    match schema with
    | Sany m => Hany m
    | Snever m => Hnever m
    | Sconst v m => Hconst v m
    | Sstring m => Hstring m
    | Snumber m => Hnumber m
    | Sboolean m => Hboolean m
    | Sis c m => His c m
    | Sarray inner m => Harray inner m (Schema_ind inner)
    | Sdict inner sKey m => Hdict inner sKey m (Schema_ind inner) (Schema_ind sKey)
    | Stuple lst m => Htuple lst m (all lst)
    | Sobject dict m => Hobject dict m (fields dict)
    | Sunion lst m => Hunion lst m (all lst)
    | Sintersect lst m => Hintersect lst m (all lst)
    | Stransform inner c m => Htransform inner c m (Schema_ind inner)
    | Sextern t m => Hextern t m
    end.
End SchemaInduction.


(** * Printing schemas, and predicates on schemas *)

(** ** [toString]

    [defineMethod(name, keys, format)] gives every schema it builds the
    method [toString = format.bind(null, schema)]. A formatter returns a
    string, except that of [const], which returns the value itself when it
    is not a string; a template literal converts what it embeds with
    [String], and [Array.prototype.join] prints a null or undefined element
    as the empty string. A schema built with [new Schema({ type })] alone
    has no formatter ([None]): it inherits [Function.prototype.toString].
    [JSON.stringify] of a string is [json_quote], as in the error
    messages. *)

(** [items.join(sep)]. *)
Definition join_values (h : heap) (sep : string) (items : list value) : string :=
  join sep (map (fun v => if isNullable v then "" else ToString h v) items).

(** [schema.toString(inline)]. *)
Fixpoint toString (h : heap) (schema : Schema) (inline : bool) : option value :=
  match schema with
  | Sis callback _ => Some (VStr (ctor_name callback))
  | Sany _ => Some (VStr "any")
  | Snever _ => Some (VStr "never")
  | Sconst value _ =>
      Some (match value with VStr s => VStr (json_quote s) | _ => value end)
  | Sstring _ => Some (VStr "string")
  | Snumber _ => Some (VStr "number")
  | Sboolean _ => Some (VStr "boolean")
  | Sarray inner _ =>
      item ← toString h inner true;
      Some (VStr (ToString h item ++ "[]"))
  | Sdict inner sKey _ =>
      key ← toString h sKey false;
      item ← toString h inner false;
      Some (VStr ("{ [key: " ++ ToString h key ++ "]: " ++ ToString h item ++ " }"))
  | Stuple lst _ =>
      items ← mapM (fun inner => toString h inner false) lst;
      Some (VStr ("[" ++ join_values h ", " items ++ "]"))
  | Sobject dict _ =>
      match dict with
      | [] => Some (VStr "{}")
      | _ =>
          items ← mapM (fun kv : string * Schema =>
                          item ← toString h (snd kv) false;
                          Some (fst kv ++ (if meta_required (meta (snd kv)) then "" else "?")
                                ++ ": " ++ ToString h item)) dict;
          Some (VStr ("{ " ++ join ", " items ++ " }"))
      end
  | Sunion lst _ =>
      items ← mapM (fun inner => toString h inner false) lst;
      let result := join_values h " | " items in
      Some (VStr (if inline then "(" ++ result ++ ")" else result))
  | Sintersect lst _ =>
      items ← mapM (fun inner => toString h inner true) lst;
      Some (VStr (join_values h " & " items))
  | Stransform inner _ _ => toString h inner inline
  | Sextern _ _ => None
  end.

(** A union, or a transform of one: what [toString(true)] puts in
    parentheses. *)
Fixpoint prints_union (schema : Schema) : bool :=
  match schema with
  | Sunion _ _ => true
  | Stransform inner _ _ => prints_union inner
  | _ => false
  end.

(** The value of a [const] that is not a string, seen through transforms:
    what [toString] returns as it is. *)
Fixpoint printed_const (schema : Schema) : option value :=
  match schema with
  | Sconst (VStr _) _ => None
  | Sconst value _ => Some value
  | Stransform inner _ _ => printed_const inner
  | _ => None
  end.

(** A schema that [defineMethod] built has a formatter of its own. *)
Definition has_formatter (schema : Schema) : bool :=
  match schema with
  | Sextern _ _ => false
  | _ => true
  end.

(** A schema that can be printed: the template literal [`${schema}`],
    which [init] evaluates with [SchemaError.current] when an error is
    built, does not throw. Two things in the formatters can throw a
    [TypeError], and [prints] excludes both at any depth. The formatter of
    a union takes the method [toString] off each alternative and calls it
    on nothing, [list.map(({ toString: format }) => format())], which the
    method inherited from [Function.prototype] refuses; the other
    formatters call it on the sub-schema. And the formatter of [const]
    returns the value as it is: a container is then printed by the host's
    conversion of objects, which throws at the top, where [toString] has
    to return a primitive, and below for an object that hides the
    [toString] and [valueOf] it inherits. *)
Fixpoint prints (schema : Schema) : bool :=
  match schema with
  | Sconst (VRef _) _ => false
  | Sarray inner _ | Stransform inner _ _ => prints inner
  | Sdict inner sKey _ => prints sKey && prints inner
  | Stuple lst _ | Sintersect lst _ => forallb prints lst
  | Sobject dict _ => forallb (fun kv => prints (snd kv)) dict
  | Sunion lst _ => forallb (fun inner => has_formatter inner && prints inner) lst
  | _ => true
  end.

(** The types [Schema.extend] is called with. *)
Definition extended : list string :=
  ["any"; "never"; "const"; "string"; "number"; "boolean"; "is"; "array"; "dict";
   "tuple"; "object"; "union"; "intersect"; "transform"].

(** Whether [resolvers[type]] finds something: a registered resolver, or a
    member of [Object.prototype], which the table inherits. *)
Definition found (type : string) : bool :=
  bool_decide (type ∈ extended) || inherited type.

(** A key that begins with a digit. The keys that read as array indices
    are among them; [for ... in] visits those before the others, whenever
    they were created. *)
Definition numeric (key : string) : bool :=
  match key with
  | String c _ => (48 <=? nat_of_ascii c)%nat && (nat_of_ascii c <=? 57)%nat
  | EmptyString => false
  end.

(** ** Predicates on values and schemas *)

(** [['string', 'number', 'boolean'].includes(typeof source)]. *)
Definition is_literal (v : value) : bool :=
  match v with
  | VStr _ | VNum _ | VBool _ => true
  | _ => false
  end.

(** The types whose resolver has a third parameter [strict]. *)
Definition reads_hint (schema : Schema) : bool :=
  match schema with
  | Sdict _ _ _ | Stuple _ _ | Sobject _ _ => true
  | _ => false
  end.

(** A schema with no [transform] and no [dict] at any depth. *)
Fixpoint readonly (schema : Schema) : bool :=
  match schema with
  | Sarray inner _ => readonly inner
  | Stuple lst _ | Sunion lst _ | Sintersect lst _ => forallb readonly lst
  | Sobject dict _ => forallb (fun kv => readonly (snd kv)) dict
  | Sdict _ _ _ | Stransform _ _ _ => false
  | _ => true
  end.

(** A schema the resolution of which looks nothing up in
    [Object.prototype], at any depth: every schema built with
    [new Schema({ type })] alone has a [type] under which [resolvers] finds
    nothing; no field of an object has the name of a member of
    [Object.prototype], which [data[key]] would read from there when the
    data has no such property; and a transform, which reads from the data
    the properties that the inner result names, is a transform of a schema
    that leaves the data as it is. *)
Fixpoint regular (schema : Schema) : bool :=
  match schema with
  | Sextern type _ => negb (found type)
  | Sarray inner _ => regular inner
  | Stransform inner _ _ => regular inner && readonly inner
  | Sdict inner sKey _ => regular inner && regular sKey
  | Stuple lst _ | Sunion lst _ | Sintersect lst _ => forallb regular lst
  | Sobject dict _ => forallb (fun kv => negb (inherited (fst kv)) && regular (snd kv)) dict
  | _ => true
  end.

(** The types whose resolver returns an array it builds, and those whose
    resolver returns a plain object it builds. *)
Definition builds_array (schema : Schema) : bool :=
  match schema with
  | Sarray _ _ | Stuple _ _ => true
  | _ => false
  end.

Definition builds_object (schema : Schema) : bool :=
  match schema with
  | Sdict _ _ _ | Sobject _ _ | Sintersect _ _ => true
  | _ => false
  end.

(** The heap of [s] has at least [n] containers. *)
Definition at_least (n : nat) (s : state) : Prop := n <= length (heap_of s).

(** ** Runs that differ in [SchemaError.current] only *)

(** Two errors that differ at most in the context of a [SchemaError]. *)
Definition same_error (e e' : exn) : Prop :=
  match e, e' with
  | SchemaError message _, SchemaError message' _ => message = message'
  | OtherError what, OtherError what' => what = what'
  | _, _ => False
  end.

(** Two runs that end alike: with the same heap, and the same result or
    errors that differ at most in their context. *)
Definition alike {A} (x y : outcome A * state) : Prop :=
  heap_of (snd x) = heap_of (snd y)
  /\ match fst x, fst y with
     | Ok a, Ok b => a = b
     | Throw e, Throw e' => same_error e e'
     | _, _ => False
     end.

(** Two computations that, run in states with the same heap, end alike:
    neither reads [SchemaError.current] but to put it in the errors it
    builds. *)
Definition alike_runs {A} (m m' : M A) : Prop :=
  forall s t, heap_of s = heap_of t -> alike (m s) (m' t).

Definition alike_resolvers (r r' : Resolve) : Prop :=
  forall data hint, alike_runs (r data hint) (r' data hint).

(** The metadata [resolve] reads: [required] and [default]. *)
Definition essential (m : Meta) : Meta :=
  {| meta_default := meta_default m; meta_required := meta_required m;
     meta_hidden := false; meta_adaptive := false;
     meta_description := None; meta_comment := None |}.

(** A schema without what [hidden], [adaptive], [description] and [comment]
    set, at any depth. *)
Fixpoint bare (schema : Schema) : Schema :=
  match schema with
  | Sany m => Sany (essential m)
  | Snever m => Snever (essential m)
  | Sconst value m => Sconst value (essential m)
  | Sstring m => Sstring (essential m)
  | Snumber m => Snumber (essential m)
  | Sboolean m => Sboolean (essential m)
  | Sis callback m => Sis callback (essential m)
  | Sarray inner m => Sarray (bare inner) (essential m)
  | Sdict inner sKey m => Sdict (bare inner) (bare sKey) (essential m)
  | Stuple lst m => Stuple (map bare lst) (essential m)
  | Sobject dict m => Sobject (map (fun kv => (fst kv, bare (snd kv))) dict) (essential m)
  | Sunion lst m => Sunion (map bare lst) (essential m)
  | Sintersect lst m => Sintersect (map bare lst) (essential m)
  | Stransform inner callback m => Stransform (bare inner) callback (essential m)
  | Sextern t m => Sextern t (essential m)
  end.

(** ** Sub-schemas called in turn *)

(** [lst.map((schema, index) => schema(xs[index]))]: each schema called on
    the element at its position, on [undefined] past the end of [xs]. *)
Fixpoint invoke_each (lst : list Schema) (xs : list value) : M (list value) :=
  match lst with
  | [] => mret []
  | schema :: rest =>
      v ← invoke schema (hd VUndefined xs);
      vs ← invoke_each rest (tl xs);
      mret (v :: vs)
  end.

(** The properties [keys] of the object [data], in turn: each is read,
    resolved by [inner] and deleted. *)
Fixpoint consume_entries (inner : Schema) (data : value) (keys : list string) : M props :=
  match keys with
  | [] => mret []
  | key :: rest =>
      item ← get_property data (KStr key);
      v ← invoke inner item;
      delete_property data key;;
      entries ← consume_entries inner data rest;
      mret ((key, v) :: entries)
  end.

(** The properties the loop of the object resolver gives [result], for the
    values [vs] that the fields named [keys] resolved to, on data with the
    own properties [D]. *)
Fixpoint object_fields (D : props) (keys : list string) (vs : list value) (result : props)
    : props :=
  match keys, vs with
  | key :: keys, v :: vs =>
      object_fields D keys vs
        (if negb (isNullable v) || props_in key D then props_put key v result else result)
  | _, _ => result
  end.

(** ** The properties a transform moves *)



(** What the callback [increment] computes. *)
Definition incremented (x : value) : value :=
  match x with
  | VNum n => VNum (n + 1)
  | _ => x
  end.
(** ** The monad and [resolve], unfolded *)

Lemma bind_unfold {A B} (m : M A) (f : A -> M B) (s : state) :
  (m ≫= f) s = match m s with
               | (Ok a, s') => f a s'
               | (Throw e, s') => (Throw e, s')
               end.
Proof. reflexivity. Qed.

Lemma set_current_restore (c : option Schema) (s : state) :
  set_current (current s) (set_current c s) = s.
Proof. destruct s; reflexivity. Qed.

Lemma current_set_current (c : option Schema) (s : state) :
  current (set_current c s) = c.
Proof. reflexivity. Qed.

Lemma heap_of_set_current (c : option Schema) (s : state) :
  heap_of (set_current c s) = heap_of s.
Proof. reflexivity. Qed.

(** [resolve_schema] looks the resolver up and runs the body of [resolve]. *)
Lemma resolve_schema_unfold (schema : Schema) :
  exists callback, resolve_schema schema = resolve_with schema callback.
Proof. destruct schema; eexists; reflexivity. Qed.

(** A non-null input goes to the registered resolver, inside the context
    of the schema; what it throws is wrapped anew. *)
Lemma resolve_with_dispatch (schema : Schema) (callback : Resolve) data hint s :
  isNullable data = false ->
  resolve_with schema (Some callback) data hint s =
    match callback data hint (set_current (Some schema) s) with
    | (Ok r, s') => (Ok r, set_current (current s) s')
    | (Throw e, s') => (fst (rewrap (A := value * value) e s'),
                        set_current (current s) (snd (rewrap (A := value * value) e s')))
    end.
Proof.
  intros Hnull. unfold resolve_with, try_finally, try_catch.
  rewrite bind_unfold. cbn [modify]. rewrite Hnull.
  destruct (callback data hint (set_current (Some schema) s)) as [[r|e] s'].
  - reflexivity.
  - destruct (rewrap e s'); reflexivity.
Qed.

(** A null or undefined input: the required check, then the default. *)
Lemma resolve_with_nullable (schema : Schema) (callback : option Resolve) data hint s :
  isNullable data = true ->
  resolve_with schema callback data hint s =
    if meta_required (meta schema)
    then (Throw (SchemaError "missing required value" (Some schema)), s)
    else if isNullable (fallback_of (meta schema)) then (Ok (data, VUndefined), s)
    else resolve_with schema callback (fallback_of (meta schema)) hint s.
Proof.
  intros Hnull. unfold resolve_with, try_finally, try_catch.
  rewrite !bind_unfold. cbn [modify]. rewrite Hnull.
  destruct (meta_required (meta schema)).
  - destruct s; reflexivity.
  - destruct (isNullable (fallback_of (meta schema))) eqn:Hfallback.
    + destruct s; reflexivity.
    + reflexivity.
Qed.

(** ** Union *)




(** ** Property lists *)

Lemma props_get_set_eq (key : string) (v : value) (ps : props) :
  props_get key (props_set key v ps) = Some v.
Proof.
  induction ps as [|[k w] ps IH]; cbn.
  - rewrite String.eqb_refl. reflexivity.
  - destruct (String.eqb k key) eqn:Hk; cbn; rewrite Hk; [reflexivity|exact IH].
Qed.

Lemma props_get_set_ne (key key' : string) (v : value) (ps : props) :
  key <> key' -> props_get key' (props_set key v ps) = props_get key' ps.
Proof.
  intros Hne. induction ps as [|[k w] ps IH]; cbn.
  - apply String.eqb_neq in Hne. rewrite Hne. reflexivity.
  - destruct (String.eqb k key) eqn:Hk; cbn.
    + apply String.eqb_eq in Hk. subst k. apply String.eqb_neq in Hne. rewrite Hne. reflexivity.
    + destruct (String.eqb k key'); [reflexivity|exact IH].
Qed.

Lemma props_get_delete_eq (key : string) (ps : props) :
  props_get key (props_delete key ps) = None.
Proof.
  induction ps as [|[k w] ps IH]; cbn; [reflexivity|].
  destruct (String.eqb k key) eqn:Hk; cbn; [exact IH|]. rewrite Hk. exact IH.
Qed.

Lemma props_get_delete_ne (key key' : string) (ps : props) :
  key <> key' -> props_get key' (props_delete key ps) = props_get key' ps.
Proof.
  intros Hne. induction ps as [|[k w] ps IH]; cbn; [reflexivity|].
  destruct (String.eqb k key) eqn:Hk; cbn.
  - apply String.eqb_eq in Hk. subst k. apply String.eqb_neq in Hne. rewrite Hne. exact IH.
  - destruct (String.eqb k key'); [reflexivity|exact IH].
Qed.

Lemma props_get_None (key : string) (ps : props) :
  props_get key ps = None <-> key ∉ props_keys ps.
Proof.
  induction ps as [|[k w] ps IH]; cbn.
  - split; [intros _; apply not_elem_of_nil|reflexivity].
  - rewrite not_elem_of_cons. destruct (String.eqb k key) eqn:Hk.
    + apply String.eqb_eq in Hk. subst k. split; [discriminate|]. intros [Hne _]. congruence.
    + apply String.eqb_neq in Hk. rewrite IH. split; [intros H; split; [congruence|exact H]|tauto].
Qed.

Lemma props_has_get (key : string) (ps : props) :
  props_has key ps = true <-> exists v, props_get key ps = Some v.
Proof.
  unfold props_has. destruct (props_get key ps); split; eauto; try discriminate.
  intros [v [=]].
Qed.

Lemma props_has_keys (key : string) (ps : props) :
  props_has key ps = true <-> key ∈ props_keys ps.
Proof.
  unfold props_has. destruct (props_get key ps) eqn:Hget.
  - split; [intros _|reflexivity].
    destruct (decide (key ∈ props_keys ps)) as [Hin|Hnot]; [exact Hin|].
    apply props_get_None in Hnot. congruence.
  - apply props_get_None in Hget. split; [discriminate|contradiction].
Qed.

Lemma props_has_false (key : string) (ps : props) :
  props_has key ps = false <-> props_get key ps = None.
Proof. unfold props_has. destruct (props_get key ps); split; congruence. Qed.

Lemma props_put_cases (key : string) (v : value) (ps : props) :
  props_put key v ps = ps \/ props_put key v ps = props_set key v ps.
Proof.
  unfold props_put.
  destruct (String.eqb key "__proto__" && negb (props_has key ps)); [left|right]; reflexivity.
Qed.

Lemma props_put_set (key : string) (v : value) (ps : props) :
  key <> "__proto__" -> props_put key v ps = props_set key v ps.
Proof.
  intros Hne. unfold props_put. apply String.eqb_neq in Hne. rewrite Hne. reflexivity.
Qed.

Lemma inherited_not_proto (key : string) : inherited key = false -> key <> "__proto__".
Proof. intros Hkey ->. discriminate Hkey. Qed.

Lemma props_put_ordinary (key : string) (v : value) (ps : props) :
  inherited key = false -> props_put key v ps = props_set key v ps.
Proof. intros Hkey. apply props_put_set, inherited_not_proto, Hkey. Qed.

Lemma props_put_own (key : string) (v : value) (ps : props) :
  props_has key ps = true -> props_put key v ps = props_set key v ps.
Proof.
  intros Hown. unfold props_put. rewrite Hown, andb_false_r. reflexivity.
Qed.

Lemma props_get_put_ne (key key' : string) (v : value) (ps : props) :
  key <> key' -> props_get key' (props_put key v ps) = props_get key' ps.
Proof.
  intros Hne. destruct (props_put_cases key v ps) as [-> | ->]; [reflexivity|].
  apply props_get_set_ne, Hne.
Qed.

(** * The claims *)

(** C10. A schema is a function: calling [schema(data)] returns the first
    component of [Schema.resolve(data, schema)], leaves the same state, and
    throws exactly what [Schema.resolve(data, schema)] throws. *)
Theorem invoke_is_resolve_first (schema : Schema) (data : value) (s : state) :
  invoke schema data s =
    match resolve data (Some schema) false s with
    | (Ok r, s') => (Ok (fst r), s')
    | (Throw e, s') => (Throw e, s')
    end.
Proof.
  unfold invoke. rewrite bind_unfold.
  destruct (resolve data (Some schema) false s) as [[r|e] s']; reflexivity.
Qed.

(** C5 (amended). For a null or undefined input, and a schema that, if it
    is marked required, can be printed: a schema marked required fails
    with [missing required value], whatever its default; otherwise,
    without a non-null default, the input is returned unchanged and the
    state with it, whatever resolver is registered; otherwise resolution is
    that of the default in place of the input. *)
Theorem resolve_nullable_input (schema : Schema) (data : value) (hint : bool) (s : state) :
  isNullable data = true ->
  (meta_required (meta schema) = true -> prints schema = true) ->
  (forall callback,
     resolve_with schema callback data hint s =
       if meta_required (meta schema)
       then (Throw (SchemaError "missing required value" (Some schema)), s)
       else if isNullable (fallback_of (meta schema)) then (Ok (data, VUndefined), s)
       else resolve_with schema callback (fallback_of (meta schema)) hint s)
  /\ resolve data (Some schema) hint s =
       if meta_required (meta schema)
       then (Throw (SchemaError "missing required value" (Some schema)), s)
       else if isNullable (fallback_of (meta schema)) then (Ok (data, VUndefined), s)
       else resolve (fallback_of (meta schema)) (Some schema) hint s.
Proof.
  intros Hnull _. split.
  - intros callback. apply resolve_with_nullable. exact Hnull.
  - unfold resolve. destruct (resolve_schema_unfold schema) as [callback ->].
    apply resolve_with_nullable. exact Hnull.
Qed.

Lemma resolve_nullable_input_witness :
  resolve VUndefined (Some (default (VStr "d") Schema.string)) false (initial [])
  = (Ok (VStr "d", VUndefined), initial [])
  /\ resolve VNull (Some (required (default (VStr "d") Schema.string))) false (initial [])
     = (Throw (SchemaError "missing required value"
                 (Some (required (default (VStr "d") Schema.string)))), initial []).
Proof.
  split.
  - destruct (resolve_nullable_input (default (VStr "d") Schema.string) VUndefined false
                (initial []) eq_refl (fun _ => eq_refl)) as [_ H].
    rewrite H. reflexivity.
  - destruct (resolve_nullable_input (required (default (VStr "d") Schema.string)) VNull false
                (initial []) eq_refl (fun _ => eq_refl)) as [_ H].
    rewrite H. reflexivity.
Defined.

(** C5 as stated fails: a schema that is not required, resolved on
    [undefined], fails with [missing required value] when its default lacks
    a required field. *)
Lemma missing_required_without_required_flag :
  meta_required (meta object_with_required_field) = false
  /\ fst (resolve VUndefined (Some object_with_required_field) false (initial [OObj []]))
     = Throw (SchemaError "missing required value" (Some object_with_required_field)).
Proof. split; reflexivity. Qed.



(** C3, on the code. [resolve("c", union([const("a"), const("b")]))] throws
    [expected union but got "c"]: the messages of the two alternatives,
    [expected a but got "c"] and [expected b but got "c"], are collected by
    the loop and left out of the error. *)
Theorem union_error_omits_alternatives :
  resolve (VStr "c") (Some union_a_b) false (initial [])
  = (Throw (SchemaError ("expected union but got " ++ json_quote "c") (Some union_a_b)),
     initial [])
  /\ fst (resolve (VStr "c") (Some (Schema.const (VStr "a"))) false (initial []))
     = Throw (SchemaError ("expected a but got " ++ json_quote "c")
                (Some (Schema.const (VStr "a"))))
  /\ fst (resolve (VStr "c") (Some (Schema.const (VStr "b"))) false (initial []))
     = Throw (SchemaError ("expected b but got " ++ json_quote "c")
                (Some (Schema.const (VStr "b"))))
  /\ mentions ("expected union but got " ++ json_quote "c")
              ("expected a but got " ++ json_quote "c") = false
  /\ mentions ("expected union but got " ++ json_quote "c")
              ("expected b but got " ++ json_quote "c") = false
  /\ mentions ("expected union but got " ++ json_quote "c") "expected a" = false
  /\ mentions ("expected union but got " ++ json_quote "c") "expected b" = false.
Proof. repeat split; reflexivity. Qed.

(** * Invariants kept by the resolvers

    The resolvers touch the state only through the heap operations below
    and through the resolvers of their sub-schemas; whatever those keep,
    they keep. *)

Section Invariant.
Variable Inv : state -> Prop.
Variable good : value -> Prop.

Hypothesis HInv : invariant Inv good.

Lemma keeps_ret {A} (G : A -> Prop) (a : A) : G a -> keeps Inv G (mret a).
Proof. intros Ha s HI. split; [exact HI|]. cbn. intros a' [= <-]. exact Ha. Qed.

Lemma keeps_bind {A B} (G1 : A -> Prop) (G2 : B -> Prop) (m : M A) (f : A -> M B) :
  keeps Inv G1 m -> (forall a, G1 a -> keeps Inv G2 (f a)) -> keeps Inv G2 (m ≫= f).
Proof.
  intros Hm Hf s HI. rewrite bind_unfold. destruct (Hm s HI) as [HI' HG].
  destruct (m s) as [[a|e] s']; cbn in *.
  - apply Hf; auto.
  - split; [exact HI'|]. intros a [=].
Qed.

Lemma keeps_throw {A} (G : A -> Prop) (e : exn) : keeps Inv G (throw e).
Proof. intros s HI. split; [exact HI|]. intros a [=]. Qed.

Lemma keeps_weaken {A} (G G' : A -> Prop) (m : M A) :
  (forall a, G a -> G' a) -> keeps Inv G m -> keeps Inv G' m.
Proof. intros HGG Hm s HI. destruct (Hm s HI) as [HI' HG]. split; auto. Qed.

Lemma keeps_try_catch {A} (G : A -> Prop) (body : M A) (handler : exn -> M A) :
  keeps Inv G body -> (forall e, keeps Inv G (handler e)) ->
  keeps Inv G (try_catch body handler).
Proof.
  intros Hbody Hhandler s HI. unfold try_catch. destruct (Hbody s HI) as [HI' HG].
  destruct (body s) as [[a|e] s']; cbn in *.
  - split; [exact HI'|]. exact HG.
  - apply Hhandler. exact HI'.
Qed.

Lemma keeps_throw_SchemaError {A} (G : A -> Prop) (message : string) :
  keeps Inv G (throw_SchemaError message).
Proof. intros s HI. split; [exact HI|]. intros a [=]. Qed.

Lemma keeps_stringify (data : value) : keeps Inv (fun _ => True) (stringify data).
Proof.
  intros s HI. unfold stringify. destruct (JSON_stringify (heap_of s) data); cbn; auto.
Qed.

Lemma keeps_get_heap : keeps Inv (fun h => exists s, Inv s /\ heap_of s = h) get_heap.
Proof. intros s HI. split; [exact HI|]. cbn. intros h [= <-]. eauto. Qed.

Lemma keeps_get_property (data : value) (key : pkey) :
  good data -> keeps Inv good (get_property data key).
Proof.
  intros Hdata s HI. split; [exact HI|]. cbn. intros v [= <-].
  apply (inv_read Inv good HInv); assumption.
Qed.

Lemma keeps_set_property (data : value) (key : pkey) (v : value) :
  good data -> good v -> keeps Inv (fun _ => True) (set_property data key v).
Proof.
  intros Hdata Hv s HI. split; [|auto]. cbn. apply (inv_write Inv good HInv); assumption.
Qed.

Lemma keeps_delete_property (data : value) (key : string) :
  good data -> keeps Inv (fun _ => True) (delete_property data key).
Proof.
  intros Hdata s HI. split; [|auto]. cbn. apply (inv_delete Inv good HInv); assumption.
Qed.

Lemma keeps_has_property (data : value) (key : string) :
  keeps Inv (fun _ => True) (has_property data key).
Proof. intros s HI. split; [exact HI|auto]. Qed.

Lemma keeps_in_property (data : value) (key : string) :
  keeps Inv (fun _ => True) (in_property data key).
Proof. intros s HI. split; [exact HI|auto]. Qed.

Lemma keeps_alloc (o : obj) : Forall good (obj_values o) -> keeps Inv good (alloc o).
Proof.
  intros Ho s HI. destruct ((inv_alloc Inv good HInv) s o HI Ho) as [HI' Hl]. split; [exact HI'|].
  cbn. intros v [= <-]. exact Hl.
Qed.

Lemma keeps_expected_array {A} (G : A -> Prop) (data : value) :
  keeps Inv G (expected_array data).
Proof.
  unfold expected_array. eapply keeps_bind; [apply keeps_stringify|].
  intros text _. apply keeps_throw_SchemaError.
Qed.

Lemma keeps_expected_object {A} (G : A -> Prop) (data : value) :
  keeps Inv G (expected_object data).
Proof.
  unfold expected_object. eapply keeps_bind; [apply keeps_stringify|].
  intros text _. apply keeps_throw_SchemaError.
Qed.

Lemma keeps_property (data : value) (key : pkey) (schema : Resolve) :
  good data -> sound Inv good schema -> keeps Inv good (property data key schema).
Proof.
  intros Hdata Hschema. unfold property.
  eapply keeps_bind; [apply keeps_get_property; exact Hdata|]. intros item Hitem.
  eapply keeps_bind; [apply Hschema; exact Hitem|]. intros [value adapted] [Hvalue Hadapted].
  cbn in Hvalue, Hadapted. destruct (isNullable adapted).
  - apply keeps_ret. exact Hvalue.
  - eapply keeps_bind; [apply keeps_set_property; assumption|].
    intros _ _. apply keeps_ret. exact Hvalue.
Qed.

Lemma keeps_mapM {A B} (G : B -> Prop) (f : A -> M B) (l : list A) :
  (forall x, keeps Inv G (f x)) -> keeps Inv (Forall G) (mapM f l).
Proof.
  intros Hf. induction l as [|x l IH]; cbn [mapM].
  - apply keeps_ret. constructor.
  - eapply keeps_bind; [apply Hf|]. intros y Hy.
    eapply keeps_bind; [apply IH|]. intros ys Hys.
    apply keeps_ret. constructor; assumption.
Qed.

Lemma keeps_for_in_loop {A} (G : A -> Prop) (subject : value) (keys : list string)
    (body : string -> A -> M A) (acc : A) :
  (forall key acc, G acc -> keeps Inv G (body key acc)) -> G acc ->
  keeps Inv G (for_in_loop subject keys body acc).
Proof.
  intros Hbody. revert acc. induction keys as [|key keys IH]; intros acc Hacc; cbn [for_in_loop].
  - apply keeps_ret. exact Hacc.
  - eapply keeps_bind; [apply keeps_has_property|]. intros [|] _.
    + eapply keeps_bind; [apply Hbody; exact Hacc|]. intros acc' Hacc'. apply IH. exact Hacc'.
    + apply IH. exact Hacc.
Qed.

Lemma keeps_for_in {A} (G : A -> Prop) (subject : value)
    (body : string -> A -> M A) (acc : A) :
  (forall key acc, G acc -> keeps Inv G (body key acc)) -> G acc ->
  keeps Inv G (for_in subject body acc).
Proof.
  intros Hbody Hacc. unfold for_in.
  eapply keeps_bind; [apply keeps_get_heap|]. intros h _.
  apply keeps_for_in_loop; assumption.
Qed.

Lemma good_props_set (key : string) (v : value) (ps : props) :
  good v -> good_props good ps -> good_props good (props_set key v ps).
Proof.
  intros Hv. induction ps as [|[k w] ps IH]; intros Hps; cbn [props_set].
  - repeat constructor. exact Hv.
  - inversion Hps as [|? ? Hw Hrest]; subst. destruct (String.eqb k key).
    + constructor; assumption.
    + constructor; [exact Hw|]. apply IH. exact Hrest.
Qed.

Lemma good_props_put (key : string) (v : value) (ps : props) :
  good v -> good_props good ps -> good_props good (props_put key v ps).
Proof.
  intros Hv Hps. destruct (props_put_cases key v ps) as [-> | ->]; [exact Hps|].
  apply good_props_set; assumption.
Qed.

Lemma good_props_assign (source target : props) :
  good_props good source -> good_props good target ->
  good_props good (props_assign source target).
Proof.
  unfold props_assign. revert target.
  induction source as [|[k v] source IH]; intros target Hsource Htarget; cbn [fold_left].
  - exact Htarget.
  - inversion Hsource as [|? ? Hv Hrest]; subst. apply IH; [exact Hrest|].
    apply good_props_put; assumption.
Qed.

Lemma good_props_values (ps : props) : good_props good ps -> Forall good (map snd ps).
Proof. intros Hps. apply Forall_map. exact Hps. Qed.

Lemma Inv_write_all (data : value) (entries : props) (s : state) (h : heap) :
  good data -> good_props good entries -> Inv (set_heap h s) ->
  Inv (set_heap (fold_left (fun h kv => heap_write h data (KStr (fst kv)) (snd kv)) entries h) s).
Proof.
  intros Hdata. revert h. induction entries as [|[k v] entries IH]; intros h Hentries Hh.
  - exact Hh.
  - inversion Hentries as [|? ? Hv Hrest]; subst. cbn [fold_left]. apply IH; [exact Hrest|].
    exact ((inv_write Inv good HInv) (set_heap h s) data (KStr k) v Hh Hdata Hv).
Qed.

Lemma keeps_assign_into (data source : value) :
  good data -> good source -> keeps Inv (fun _ => True) (assign_into data source).
Proof.
  intros Hdata Hsource s HI. split; [|auto]. cbn.
  apply Inv_write_all; [exact Hdata|apply (inv_entries Inv good HInv); assumption|].
  destruct s; exact HI.
Qed.

Lemma keeps_merge (result : props) (data : value) :
  good data -> good_props good result -> keeps Inv (good_props good) (merge result data).
Proof.
  intros Hdata Hresult. unfold merge. apply keeps_for_in; [|exact Hresult].
  intros key acc Hacc. unfold merge_body. destruct (props_in key acc).
  - apply keeps_ret. exact Hacc.
  - eapply keeps_bind; [apply keeps_get_property; exact Hdata|]. intros item Hitem.
    apply keeps_ret. apply good_props_put; assumption.
Qed.

Lemma sound_any : sound Inv good resolve_any.
Proof.
  intros data hint Hdata. apply keeps_ret. split; [exact Hdata|]. apply (inv_primitive Inv good HInv). reflexivity.
Qed.

Lemma sound_never : sound Inv good resolve_never.
Proof.
  intros data hint Hdata. unfold resolve_never.
  eapply keeps_bind; [apply keeps_stringify|]. intros text _. apply keeps_throw_SchemaError.
Qed.

Lemma sound_const (value : value) : sound Inv good (resolve_const value).
Proof.
  intros data hint Hdata. unfold resolve_const, strict_equal. case_bool_decide as Heq.
  - subst. apply keeps_ret. split; [exact Hdata|]. apply (inv_primitive Inv good HInv). reflexivity.
  - eapply keeps_bind; [apply keeps_get_heap|]. intros h _.
    eapply keeps_bind; [apply keeps_stringify|]. intros text _. apply keeps_throw_SchemaError.
Qed.

Lemma sound_string : sound Inv good resolve_string.
Proof.
  intros data hint Hdata. unfold resolve_string.
  destruct data;
    try (eapply keeps_bind; [apply keeps_stringify|]; intros text _; apply keeps_throw_SchemaError).
  apply keeps_ret. split; [exact Hdata|]. apply (inv_primitive Inv good HInv). reflexivity.
Qed.

Lemma sound_number : sound Inv good resolve_number.
Proof.
  intros data hint Hdata. unfold resolve_number.
  destruct data;
    try (eapply keeps_bind; [apply keeps_stringify|]; intros text _; apply keeps_throw_SchemaError).
  apply keeps_ret. split; [exact Hdata|]. apply (inv_primitive Inv good HInv). reflexivity.
Qed.

Lemma sound_boolean : sound Inv good resolve_boolean.
Proof.
  intros data hint Hdata. unfold resolve_boolean.
  destruct data;
    try (eapply keeps_bind; [apply keeps_stringify|]; intros text _; apply keeps_throw_SchemaError).
  apply keeps_ret. split; [exact Hdata|]. apply (inv_primitive Inv good HInv). reflexivity.
Qed.

Lemma sound_is (callback : Constructor) : sound Inv good (resolve_is callback).
Proof.
  intros data hint Hdata. unfold resolve_is.
  eapply keeps_bind; [apply keeps_get_heap|]. intros h _.
  destruct (ctor_hasInstance callback h data).
  - apply keeps_ret. split; [exact Hdata|]. apply (inv_primitive Inv good HInv). reflexivity.
  - apply keeps_throw_SchemaError.
Qed.

Lemma keeps_container (o : obj) :
  Forall good (obj_values o) ->
  keeps Inv (fun va : value * value => good (fst va) /\ good (snd va))
    (container ← alloc o; mret (container, VUndefined)).
Proof.
  intros Ho. eapply keeps_bind; [apply keeps_alloc; exact Ho|]. intros container Hc.
  apply keeps_ret. split; [exact Hc|]. apply (inv_primitive Inv good HInv). reflexivity.
Qed.

Lemma sound_array (inner : Resolve) :
  sound Inv good inner -> sound Inv good (resolve_array inner).
Proof.
  intros Hinner data hint Hdata. unfold resolve_array.
  eapply keeps_bind; [apply keeps_get_heap|]. intros h _.
  destruct (negb (isArray h data)); [apply keeps_expected_array|].
  eapply keeps_bind.
  { apply keeps_mapM with (G := good). intros index. apply keeps_property; assumption. }
  intros result Hresult. apply keeps_container. exact Hresult.
Qed.

Lemma keeps_dict_body (inner sKey : Resolve) (strict : bool) (data : value)
    (key : string) (result : props) :
  sound Inv good inner -> sound Inv good sKey -> good data -> good_props good result ->
  keeps Inv (good_props good) (dict_body inner sKey strict data key result).
Proof.
  intros Hinner HsKey Hdata Hresult. unfold dict_body.
  eapply keeps_bind with (G1 := fun _ => True).
  { apply keeps_try_catch.
    - eapply keeps_bind; [apply HsKey; apply (inv_primitive Inv good HInv); reflexivity|].
      intros r _. apply keeps_ret. exact I.
    - intros e. destruct strict; [apply keeps_ret; exact I|apply keeps_throw]. }
  intros [rKey|] _; [|apply keeps_ret; exact Hresult].
  eapply keeps_bind; [apply keeps_property; assumption|]. intros value Hvalue.
  eapply keeps_bind; [apply keeps_get_heap|]. intros h _.
  eapply keeps_bind; [apply keeps_get_property; exact Hdata|]. intros item Hitem.
  eapply keeps_bind; [apply keeps_set_property; assumption|]. intros _ _.
  eapply keeps_bind; [apply keeps_delete_property; assumption|]. intros _ _.
  apply keeps_ret. apply good_props_put; assumption.
Qed.

Lemma sound_dict (inner sKey : Resolve) :
  sound Inv good inner -> sound Inv good sKey -> sound Inv good (resolve_dict inner sKey).
Proof.
  intros Hinner HsKey data strict Hdata. unfold resolve_dict.
  eapply keeps_bind; [apply keeps_get_heap|]. intros h _.
  destruct (negb (isObject h data)); [apply keeps_expected_object|].
  eapply keeps_bind.
  { apply keeps_for_in with (G := good_props good); [|constructor].
    intros key acc Hacc. apply keeps_dict_body; assumption. }
  intros result Hresult. apply keeps_container. apply good_props_values. exact Hresult.
Qed.

Lemma keeps_tuple_loop (lst : list Resolve) (data : value) (index : nat) :
  Forall (sound Inv good) lst -> good data ->
  keeps Inv (Forall good) (tuple_loop lst data index).
Proof.
  intros Hlst Hdata. revert index.
  induction Hlst as [|inner lst Hinner _ IH]; intros index; cbn [tuple_loop].
  - apply keeps_ret. constructor.
  - eapply keeps_bind; [apply keeps_property; assumption|]. intros value Hvalue.
    eapply keeps_bind; [apply IH|]. intros values Hvalues.
    apply keeps_ret. constructor; assumption.
Qed.

Lemma sound_tuple (lst : list Resolve) :
  Forall (sound Inv good) lst -> sound Inv good (resolve_tuple lst).
Proof.
  intros Hlst data strict Hdata. unfold resolve_tuple.
  eapply keeps_bind; [apply keeps_get_heap|]. intros h _.
  destruct (negb (isArray h data)); [apply keeps_expected_array|].
  eapply keeps_bind; [apply keeps_tuple_loop; assumption|]. intros result Hresult.
  destruct strict.
  - apply keeps_container. exact Hresult.
  - eapply keeps_bind; [apply keeps_get_heap|]. intros h' (s' & HI' & <-).
    apply keeps_container. cbn [obj_values]. apply Forall_app. split; [exact Hresult|].
    apply Forall_drop. apply (inv_elements Inv good HInv); assumption.
Qed.

Lemma keeps_object_loop (dict : list (string * Resolve)) (data : value) (result : props) :
  Forall (fun kv => sound Inv good (snd kv)) dict -> good data -> good_props good result ->
  keeps Inv (good_props good) (object_loop dict data result).
Proof.
  intros Hdict Hdata. revert result.
  induction Hdict as [|[key schema] dict Hschema _ IH]; intros result Hresult; cbn [object_loop].
  - apply keeps_ret. exact Hresult.
  - eapply keeps_bind; [apply keeps_property; assumption|]. intros value Hvalue.
    eapply keeps_bind; [apply keeps_in_property|]. intros present _.
    destruct (negb (isNullable value) || present).
    + apply IH. apply good_props_put; assumption.
    + apply IH. exact Hresult.
Qed.

Lemma sound_object (dict : list (string * Resolve)) :
  Forall (fun kv => sound Inv good (snd kv)) dict -> sound Inv good (resolve_object dict).
Proof.
  intros Hdict data strict Hdata. unfold resolve_object.
  eapply keeps_bind; [apply keeps_get_heap|]. intros h _.
  destruct (negb (isObject h data)); [apply keeps_expected_object|].
  eapply keeps_bind; [apply keeps_object_loop; [assumption..|constructor]|].
  intros result Hresult.
  eapply keeps_bind with (G1 := good_props good).
  { destruct strict; [apply keeps_ret; exact Hresult|apply keeps_merge; assumption]. }
  intros result' Hresult'. apply keeps_container. apply good_props_values. exact Hresult'.
Qed.

Lemma keeps_union_loop (lst : list Resolve) (data : value) (messages : list string) :
  Forall (sound Inv good) lst -> good data ->
  keeps Inv (fun r => match r with
                      | inl va => good (fst va) /\ good (snd va)
                      | inr _ => True
                      end) (union_loop lst data messages).
Proof.
  intros Hlst Hdata. revert messages.
  induction Hlst as [|inner lst Hinner _ IH]; intros messages; cbn [union_loop].
  - apply keeps_ret. exact I.
  - apply keeps_try_catch.
    + eapply keeps_bind; [apply Hinner; exact Hdata|]. intros r Hr. apply keeps_ret. exact Hr.
    + intros e. apply IH.
Qed.

Lemma sound_union (lst : list Resolve) :
  Forall (sound Inv good) lst -> sound Inv good (resolve_union lst).
Proof.
  intros Hlst data hint Hdata. unfold resolve_union.
  eapply keeps_bind; [apply keeps_union_loop; assumption|]. intros [result|messages] Hr.
  - apply keeps_ret. exact Hr.
  - eapply keeps_bind; [apply keeps_stringify|]. intros text _. apply keeps_throw_SchemaError.
Qed.

Lemma keeps_intersect_loop (lst : list Resolve) (data : value) (result : props) :
  Forall (sound Inv good) lst -> good data -> good_props good result ->
  keeps Inv (good_props good) (intersect_loop lst data result).
Proof.
  intros Hlst Hdata. revert result.
  induction Hlst as [|inner lst Hinner _ IH]; intros result Hresult; cbn [intersect_loop].
  - apply keeps_ret. exact Hresult.
  - eapply keeps_bind; [apply Hinner; exact Hdata|]. intros r [Hvalue _].
    eapply keeps_bind; [apply keeps_get_heap|]. intros h (s' & HI' & <-).
    apply IH. apply good_props_assign; [|exact Hresult]. apply (inv_entries Inv good HInv); assumption.
Qed.

Lemma sound_intersect (lst : list Resolve) :
  Forall (sound Inv good) lst -> sound Inv good (resolve_intersect lst).
Proof.
  intros Hlst data hint Hdata. unfold resolve_intersect.
  eapply keeps_bind; [apply keeps_intersect_loop; [assumption..|constructor]|].
  intros result Hresult.
  eapply keeps_bind; [apply keeps_get_heap|]. intros h _.
  eapply keeps_bind with (G1 := good_props good).
  { destruct (isObject h data); [apply keeps_merge; assumption|apply keeps_ret; exact Hresult]. }
  intros result' Hresult'. apply keeps_container. apply good_props_values. exact Hresult'.
Qed.

Lemma keeps_transform_body (data : value) (key : string) (temp : props) :
  good data -> good_props good temp ->
  keeps Inv (good_props good) (transform_body data key temp).
Proof.
  intros Hdata Htemp. unfold transform_body.
  eapply keeps_bind; [apply keeps_in_property|]. intros present _.
  destruct (negb present); [apply keeps_ret; exact Htemp|].
  eapply keeps_bind; [apply keeps_get_property; exact Hdata|]. intros item Hitem.
  eapply keeps_bind; [apply keeps_delete_property; exact Hdata|]. intros _ _.
  apply keeps_ret. apply good_props_put; assumption.
Qed.

Lemma sound_transform (inner : Resolve) (callback : Callback) :
  sound Inv good inner -> sound_call Inv good callback ->
  sound Inv good (resolve_transform inner callback).
Proof.
  intros Hinner Hcall data hint Hdata. unfold resolve_transform.
  eapply keeps_bind; [apply Hinner; exact Hdata|]. intros [result adapted] [Hresult Hadapted].
  cbn in Hresult, Hadapted.
  eapply keeps_bind; [apply keeps_get_heap|]. intros h _.
  destruct (isObject h data).
  - eapply keeps_bind.
    { apply keeps_for_in with (G := good_props good); [|constructor].
      intros key acc Hacc. apply keeps_transform_body; assumption. }
    intros temp Htemp.
    eapply keeps_bind; [apply keeps_alloc; apply good_props_values; exact Htemp|].
    intros temp' Htemp'.
    eapply keeps_bind; [apply Hcall; exact Htemp'|]. intros patch Hpatch.
    eapply keeps_bind; [apply keeps_assign_into; assumption|]. intros _ _.
    eapply keeps_bind; [apply Hcall; exact Hresult|]. intros value Hvalue.
    apply keeps_ret. split; [exact Hvalue|]. apply (inv_primitive Inv good HInv). reflexivity.
  - eapply keeps_bind; [apply Hcall; exact Hresult|]. intros value Hvalue.
    eapply keeps_bind.
    { apply Hcall. destruct adapted; assumption. }
    intros echo Hecho. apply keeps_ret. split; assumption.
Qed.

End Invariant.

(** ** The resolution context *)

Lemma resolve_with_restores (schema : Schema) (callback : option Resolve) data hint s :
  current (snd (resolve_with schema callback data hint s)) = current s.
Proof.
  unfold resolve_with, try_finally.
  match goal with |- context [try_catch ?b ?h ?s0] => destruct (try_catch b h s0) end.
  reflexivity.
Qed.

Lemma current_invariant (c : option Schema) : invariant (current_is c) any_value.
Proof.
  split; intros; try exact I; try assumption.
  - split; [assumption|exact I].
  - apply Forall_forall. intros; exact I.
  - apply Forall_forall. intros; exact I.
Qed.

Lemma resolve_schema_keeps_current (schema : Schema) (c : option Schema) :
  sound (current_is c) any_value (resolve_schema schema).
Proof.
  intros data hint _ s Hs. split; [|intros; split; exact I].
  destruct (resolve_schema_unfold schema) as [callback ->].
  unfold current_is. rewrite resolve_with_restores. exact Hs.
Qed.

Lemma call_keeps_current (callback : Callback) (c : option Schema) :
  sound_call (current_is c) any_value callback.
Proof.
  intros v _ s Hs. split; [|intros; exact I]. unfold call.
  destruct (callback v (heap_of s)) as [[r|message|what] effects]; exact Hs.
Qed.

(** Every registered resolver leaves [SchemaError.current] as it found it. *)
Lemma registered_keeps_current (schema : Schema) :
  exists callback,
    resolve_schema schema = resolve_with schema callback
    /\ forall cb c, callback = Some cb -> sound (current_is c) any_value cb.
Proof.
  assert (Hlist : forall (lst : list Schema) c,
            Forall (sound (current_is c) any_value) (map resolve_schema lst)).
  { intros lst c. apply Forall_map, Forall_forall. intros x _. apply resolve_schema_keeps_current. }
  destruct schema; eexists; (split; [reflexivity|]); intros cb c [= <-].
  - apply sound_any, current_invariant.
  - apply sound_never.
  - apply sound_const, current_invariant.
  - apply sound_string, current_invariant.
  - apply sound_number, current_invariant.
  - apply sound_boolean, current_invariant.
  - apply sound_is, current_invariant.
  - apply sound_array; [apply current_invariant|apply resolve_schema_keeps_current].
  - apply sound_dict; [apply current_invariant|apply resolve_schema_keeps_current..].
  - apply sound_tuple; [apply current_invariant|apply Hlist].
  - apply sound_object; [apply current_invariant|].
    apply Forall_map, Forall_forall. intros x _. apply resolve_schema_keeps_current.
  - apply sound_union. apply Hlist.
  - apply sound_intersect; [apply current_invariant|apply Hlist].
  - apply sound_transform; [apply current_invariant|apply resolve_schema_keeps_current|].
    apply call_keeps_current.
Qed.

(** C8. [resolve] leaves [SchemaError.current] as it found it, whether it
    returns (early or from the resolver) or throws; and a [SchemaError] it
    throws was built while [SchemaError.current] was the schema being
    resolved, so that every nested and sibling call of one resolution ran
    with the context restored around it. *)
Theorem resolve_context_discipline (data : value) (schema : option Schema) (hint : bool)
    (s : state) :
  current (snd (resolve data schema hint s)) = current s
  /\ match fst (resolve data schema hint s) with
     | Throw (SchemaError _ context) => context = schema
     | _ => True
     end.
Proof.
  destruct schema as [schema|]; [|split; reflexivity]. cbn [resolve].
  destruct (registered_keeps_current schema) as (callback & -> & Hsound).
  split; [apply resolve_with_restores|].
  unfold resolve_with, try_finally, try_catch. rewrite bind_unfold. cbn [modify].
  set (s1 := set_current (Some schema) s).
  assert (Hdispatch : forall d,
    match fst (let '(r, s') :=
                 match (match callback with
                        | Some cb => cb d hint
                        | None => throw_SchemaError
                                    ("unsupported type " ++ dquote ++ type schema ++ dquote)
                        end) s1 with
                 | (Throw e, s') => rewrap e s'
                 | r => r
                 end in (r, set_current (current s) s')) with
    | Throw (SchemaError _ context) => context = Some schema
    | _ => True
    end).
  { intros d. destruct callback as [cb|]; [|reflexivity].
    destruct (Hsound cb (Some schema) eq_refl d hint I s1 eq_refl) as [Hcur _].
    destruct (cb d hint s1) as [[r|e] s'] eqn:Hcb; cbn in Hcur; [exact I|].
    destruct e; cbn; [exact Hcur|exact I]. }
  destruct (isNullable data).
  - destruct (meta_required (meta schema)); [reflexivity|].
    destruct (isNullable (fallback_of (meta schema))); [exact I|]. apply Hdispatch.
  - apply Hdispatch.
Qed.

(** ** Invariants of the heap alone, kept by [resolve] *)

Section HeapInvariant.
Variable Inv : state -> Prop.
Variable good : value -> Prop.
Hypothesis HInv : invariant Inv good.
Hypothesis Inv_set_current : forall c s, Inv s -> Inv (set_current c s).

Lemma sound_resolve_with (schema : Schema) (callback : option Resolve) :
  good (fallback_of (meta schema)) ->
  (forall cb, callback = Some cb -> sound Inv good cb) ->
  sound Inv good (resolve_with schema callback).
Proof.
  intros Hfallback Hcallback data hint Hdata s HI.
  assert (Hundefined : good VUndefined) by (apply (inv_primitive _ _ HInv); reflexivity).
  assert (Hbody : keeps Inv (fun va : value * value => good (fst va) /\ good (snd va))
            (try_catch
               (modify (set_current (Some schema));;
                if isNullable data then
                  if meta_required (meta schema) then throw_SchemaError "missing required value"
                  else if isNullable (fallback_of (meta schema)) then mret (data, VUndefined)
                  else match callback with
                       | None => throw_SchemaError
                                   ("unsupported type " ++ dquote ++ type schema ++ dquote)
                       | Some callback => callback (fallback_of (meta schema)) hint
                       end
                else match callback with
                     | None => throw_SchemaError
                                 ("unsupported type " ++ dquote ++ type schema ++ dquote)
                     | Some callback => callback data hint
                     end)
               rewrap)).
  { apply keeps_try_catch.
    - eapply keeps_bind with (G1 := fun _ => True).
      { intros s0 HI0. split; [|auto]. cbn. apply Inv_set_current. exact HI0. }
      intros _ _. destruct (isNullable data).
      + destruct (meta_required (meta schema)); [apply keeps_throw_SchemaError|].
        destruct (isNullable (fallback_of (meta schema))).
        * apply keeps_ret. split; assumption.
        * destruct callback as [cb|]; [|apply keeps_throw_SchemaError].
          apply (Hcallback cb eq_refl). exact Hfallback.
      + destruct callback as [cb|]; [|apply keeps_throw_SchemaError].
        apply (Hcallback cb eq_refl). exact Hdata.
    - intros e. destruct e; [apply keeps_throw_SchemaError|apply keeps_throw]. }
  unfold resolve_with, try_finally. destruct (Hbody s HI) as [HI' HG].
  match goal with |- context [try_catch ?b ?h s] => destruct (try_catch b h s) as [r s'] end.
  cbn in *. split; [apply Inv_set_current; exact HI'|exact HG].
Qed.

Lemma Forall_sound_resolve (lst : list Schema) :
  Forall (fun x => schema_ok Inv good x -> sound Inv good (resolve_schema x)) lst ->
  fold_right (fun x acc => schema_ok Inv good x /\ acc) True lst ->
  Forall (sound Inv good) (map resolve_schema lst).
Proof.
  induction 1 as [|x lst Hx _ IH]; cbn [fold_right map]; [constructor|].
  intros [Hok Hrest]. constructor; auto.
Qed.

Lemma Forall_sound_fields (dict : list (string * Schema)) :
  Forall (fun kv => schema_ok Inv good (snd kv) -> sound Inv good (resolve_schema (snd kv)))
    dict ->
  fold_right (fun kv acc => schema_ok Inv good (snd kv) /\ acc) True dict ->
  Forall (fun kv => sound Inv good (snd kv))
    (map (fun kv => (fst kv, resolve_schema (snd kv))) dict).
Proof.
  induction 1 as [|kv dict Hkv _ IH]; cbn [fold_right map]; [constructor|].
  intros [Hok Hrest]. constructor; auto.
Qed.

(** Whatever the heap operations keep, [resolve] keeps, for a schema whose
    defaults and callbacks fit. *)
Lemma sound_resolve_schema (schema : Schema) :
  schema_ok Inv good schema -> sound Inv good (resolve_schema schema).
Proof.
  induction schema using Schema_ind; intros [Hfallback Hsub]; cbn [resolve_schema];
    apply sound_resolve_with; try exact Hfallback; intros cb [= <-].
  - apply sound_any. exact HInv.
  - apply sound_never.
  - apply sound_const. exact HInv.
  - apply sound_string. exact HInv.
  - apply sound_number. exact HInv.
  - apply sound_boolean. exact HInv.
  - apply sound_is. exact HInv.
  - apply sound_array; [exact HInv|]. apply IHschema. exact Hsub.
  - destruct Hsub as [Hinner HsKey]. apply sound_dict; [exact HInv|auto..].
  - apply sound_tuple; [exact HInv|]. apply Forall_sound_resolve; assumption.
  - apply sound_object; [exact HInv|]. apply Forall_sound_fields; assumption.
  - apply sound_union. apply Forall_sound_resolve; assumption.
  - apply sound_intersect; [exact HInv|]. apply Forall_sound_resolve; assumption.
  - destruct Hsub as [Hinner Hcall]. apply sound_transform; [exact HInv|auto..].
Qed.

End HeapInvariant.
(** ** A plain object stays a plain object *)

Lemma obj_write_object (entries : props) (key : pkey) (v : value) :
  obj_write (OObj entries) key v = OObj (props_put (pkey_string key) v entries).
Proof. destruct key; reflexivity. Qed.

Lemma obj_read_object (entries : props) (key : pkey) :
  obj_read (OObj entries) key = props_read (pkey_string key) entries.
Proof. destruct key; reflexivity. Qed.








(** ** Objects: [merge] and the loop over the declared fields *)

Lemma merge_loop (l : loc) (entries : props) (keys : list string) (result : props) (s : state) :
  heap_of s !! l = Some (OObj entries) ->
  exists result',
    for_in_loop (VRef l) keys (merge_body (VRef l)) result s = (Ok result', s)
    /\ forall key, props_get key result' =
          match props_get key result with
          | Some v => Some v
          | None => if bool_decide (key ∈ keys) && negb (inherited key)
                    then props_get key entries else None
          end.
Proof.
  intros Hl. revert result. induction keys as [|k keys IH]; intros result.
  - exists result. split; [reflexivity|]. intros key. destruct (props_get key result); reflexivity.
  - cbn [for_in_loop]. rewrite bind_unfold. cbn [has_property heap_has]. rewrite Hl. cbn [obj_has].
    destruct (props_has k entries) eqn:Hpresent.
    + rewrite bind_unfold. unfold merge_body at 1. unfold props_in.
      destruct (props_has k result || inherited k) eqn:Hin.
      * cbn [mret M_ret]. destruct (IH result) as (result' & Hloop & Hget).
        exists result'. split; [exact Hloop|]. intros key. rewrite Hget.
        destruct (props_get key result) eqn:Hkey; [reflexivity|].
        destruct (decide (key = k)) as [->|Hne].
        { apply props_has_false in Hkey. rewrite Hkey in Hin. cbn in Hin. rewrite Hin.
          rewrite !andb_false_r. reflexivity. }
        rewrite (bool_decide_ext (key ∈ k :: keys) (key ∈ keys)); [reflexivity|].
        rewrite elem_of_cons. tauto.
      * apply orb_false_iff in Hin as [Hhas Hinh].
        rewrite bind_unfold. cbn [get_property heap_read mret M_ret]. rewrite Hl.
        cbn [obj_read pkey_string]. rewrite props_put_ordinary by exact Hinh.
        destruct (IH (props_set k (props_read k entries) result)) as (result' & Hloop & Hget).
        exists result'. split; [exact Hloop|]. intros key. rewrite Hget.
        apply props_has_false in Hhas. apply props_has_get in Hpresent as [v Hv].
        destruct (decide (key = k)) as [->|Hne].
        { rewrite props_get_set_eq, Hhas, Hinh. rewrite bool_decide_eq_true_2 by left.
          unfold props_read. rewrite Hv. reflexivity. }
        rewrite props_get_set_ne by congruence.
        destruct (props_get key result); [reflexivity|].
        rewrite (bool_decide_ext (key ∈ k :: keys) (key ∈ keys)); [reflexivity|].
        rewrite elem_of_cons. tauto.
    + destruct (IH result) as (result' & Hloop & Hget).
      exists result'. split; [exact Hloop|]. intros key. rewrite Hget.
      destruct (props_get key result); [reflexivity|].
      apply props_has_false in Hpresent.
      destruct (decide (key = k)) as [->|Hne].
      { rewrite Hpresent. destruct (_ && _), (_ && _); reflexivity. }
      rewrite (bool_decide_ext (key ∈ k :: keys) (key ∈ keys)); [reflexivity|].
      rewrite elem_of_cons. tauto.
Qed.

(** [merge(result, data)] on an object: it changes no state, keeps what
    [result] has and adds the other properties of [data], except those
    named like a member of [Object.prototype], which [in] finds in
    [result]. *)
Lemma merge_object (l : loc) (entries : props) (result : props) (s : state) :
  heap_of s !! l = Some (OObj entries) ->
  exists result',
    merge result (VRef l) s = (Ok result', s)
    /\ forall key, props_get key result' =
          match props_get key result with
          | Some v => Some v
          | None => if inherited key then None else props_get key entries
          end.
Proof.
  intros Hl. unfold merge, for_in. rewrite bind_unfold. cbn [get_heap enumerable_keys].
  rewrite Hl. cbn [obj_keys].
  destruct (merge_loop l entries (props_keys entries) result s Hl) as (result' & Hloop & Hget).
  exists result'. split; [exact Hloop|]. intros key. rewrite Hget.
  destruct (props_get key result); [reflexivity|].
  destruct (inherited key); [rewrite andb_false_r; reflexivity|]. rewrite andb_true_r.
  case_bool_decide as Hin; [reflexivity|].
  symmetry. apply props_get_None. exact Hin.
Qed.

Lemma object_loop_undeclared (dict : list (string * Resolve)) (data : value)
    (result result' : props) (s s' : state) (key : string) :
  object_loop dict data result s = (Ok result', s') ->
  key ∉ map fst dict ->
  props_get key result' = props_get key result.
Proof.
  revert result s. induction dict as [|[k schema] dict IH]; intros result s Hloop Hkey.
  - cbv [object_loop mret M_ret] in Hloop. congruence.
  - cbn [object_loop] in Hloop. rewrite bind_unfold in Hloop.
    destruct (property data (KStr k) schema s) as [[value|e] s1]; [|discriminate].
    rewrite bind_unfold in Hloop. cbn [in_property] in Hloop.
    cbn [map fst] in Hkey. apply not_elem_of_cons in Hkey as [Hne Hkey].
    destruct (negb (isNullable value) || heap_in (heap_of s1) data k).
    + rewrite (IH _ _ Hloop Hkey). apply props_get_put_ne. congruence.
    + exact (IH _ _ Hloop Hkey).
Qed.

Lemma rewrap_throws {A} (e : exn) (s : state) :
  exists e', rewrap (A := A) e s = (Throw e', s) /\ exn_message e' = exn_message e.
Proof. destruct e; eexists; split; reflexivity. Qed.

Lemma expected_object_throws {A} (data : value) (s : state) :
  exists e, expected_object (A := A) data s = (Throw e, s).
Proof.
  unfold expected_object, stringify. rewrite bind_unfold.
  destruct (JSON_stringify (heap_of s) data); eexists; reflexivity.
Qed.

Lemma expected_array_throws {A} (data : value) (s : state) :
  exists e, expected_array (A := A) data s = (Throw e, s).
Proof.
  unfold expected_array, stringify. rewrite bind_unfold.
  destruct (JSON_stringify (heap_of s) data); eexists; reflexivity.
Qed.

Lemma isObject_true (h : heap) (data : value) :
  isObject h data = true -> exists l entries, data = VRef l /\ h !! l = Some (OObj entries).
Proof.
  destruct data as [| | | | |l]; try discriminate. cbn.
  destruct (h !! l) as [[elems|entries]|] eqn:Hl; try discriminate. eauto.
Qed.

(** ** Intersect: [Object.assign] lets the later source win *)








(** ** Dict: the loop over the entries *)

Lemma for_in_loop_app {A} (subject : value) (pre post : list string)
    (body : string -> A -> M A) (acc : A) (s : state) :
  for_in_loop subject (pre ++ post) body acc s =
    match for_in_loop subject pre body acc s with
    | (Ok acc', s') => for_in_loop subject post body acc' s'
    | (Throw e, s') => (Throw e, s')
    end.
Proof.
  revert acc s. induction pre as [|key pre IH]; intros acc s; [reflexivity|].
  cbn [app for_in_loop]. rewrite !bind_unfold. cbn [has_property].
  destruct (heap_has (heap_of s) subject key).
  - rewrite !bind_unfold. destruct (body key acc s) as [[acc'|e] s']; [apply IH|reflexivity].
  - apply IH.
Qed.

Lemma dict_body_key_fails (inner sKey : Resolve) (strict : bool) (data : value)
    (key : string) (result : props) (s s' : state) (e : exn) :
  sKey (VStr key) false s = (Throw e, s') ->
  dict_body inner sKey strict data key result s =
    if strict then (Ok result, s') else (Throw e, s').
Proof.
  intros HsKey. unfold dict_body, try_catch. rewrite !bind_unfold, HsKey.
  destruct strict; reflexivity.
Qed.

(** C1 (amended). In the resolver of dict, when the resolution of the key
    of an entry throws: in strict mode the entry is skipped, the loop goes
    on with the entries after it, the result and the input as they were; in
    lenient mode the resolver throws that error. *)
Theorem dict_key_failure (inner sKey : Resolve) (data : value) (strict : bool)
    (pre post : list string) (key : string) (result : props) (s s1 s2 : state) (e : exn) :
  isObject (heap_of s) data = true ->
  enumerable_keys (heap_of s) data = (pre ++ key :: post)%list ->
  for_in_loop data pre (dict_body inner sKey strict data) [] s = (Ok result, s1) ->
  heap_has (heap_of s1) data key = true ->
  sKey (VStr key) false s1 = (Throw e, s2) ->
  resolve_dict inner sKey data strict s =
    if strict
    then (result' ← for_in_loop data post (dict_body inner sKey strict data) result;
          object ← alloc (OObj result');
          mret (object, VUndefined)) s2
    else (Throw e, s2).
Proof.
  intros Hobj Hkeys Hpre Hpresent HsKey.
  unfold resolve_dict, for_in. rewrite !bind_unfold. cbn [get_heap].
  rewrite Hobj. cbn [negb]. rewrite !bind_unfold. cbn [get_heap]. rewrite Hkeys.
  rewrite for_in_loop_app, Hpre. cbn [for_in_loop]. rewrite bind_unfold.
  cbn [has_property]. rewrite Hpresent, bind_unfold.
  rewrite (dict_body_key_fails _ _ _ _ _ _ _ _ _ HsKey).
  destruct strict; reflexivity.
Qed.

Lemma dict_key_failure_witness :
  resolve_dict resolve_any (resolve_schema (required (Schema.const (VStr "a"))))
    (VRef 0) true (initial [input_b1])
  = (Ok (VRef 1, VUndefined), initial [input_b1; OObj []])
  /\ resolve_dict resolve_any (resolve_schema (required (Schema.const (VStr "a"))))
       (VRef 0) false (initial [input_b1])
     = (Throw (SchemaError ("expected a but got " ++ json_quote "b")
                 (Some (required (Schema.const (VStr "a"))))),
        initial [input_b1]).
Proof.
  split.
  - exact (dict_key_failure resolve_any
             (resolve_schema (required (Schema.const (VStr "a"))))
             (VRef 0) true [] [] "b" [] (initial [input_b1]) (initial [input_b1])
             (initial [input_b1])
             (SchemaError ("expected a but got " ++ json_quote "b")
                (Some (required (Schema.const (VStr "a")))))
             eq_refl eq_refl eq_refl eq_refl eq_refl).
  - exact (dict_key_failure resolve_any
             (resolve_schema (required (Schema.const (VStr "a"))))
             (VRef 0) false [] [] "b" [] (initial [input_b1]) (initial [input_b1])
             (initial [input_b1])
             (SchemaError ("expected a but got " ++ json_quote "b")
                (Some (required (Schema.const (VStr "a")))))
             eq_refl eq_refl eq_refl eq_refl eq_refl).
Defined.

(** C1 as stated fails: on the input [{ b: 1 }], whose key the key schema
    ["a"] rejects, lenient resolution throws the error of the key and
    strict resolution returns the empty object, the entry skipped. *)
Lemma dict_lenient_throws_strict_skips :
  resolve (VRef 0) (Some dict_key_a) false (initial [input_b1])
  = (Throw (SchemaError ("expected a but got " ++ json_quote "b") (Some dict_key_a)),
     initial [input_b1])
  /\ resolve (VRef 0) (Some dict_key_a) true (initial [input_b1])
     = (Ok (VRef 1, VUndefined), initial [input_b1; OObj []]).
Proof. split; reflexivity. Qed.

(** ** Leaf kinds *)

Lemma stringify_throw_not_ok {A} (data : value) (message : string -> string) (s s' : state)
    (r : A) :
  (text ← stringify data; throw_SchemaError (message text)) s <> (Ok r, s').
Proof.
  rewrite bind_unfold. unfold stringify.
  destruct (JSON_stringify (heap_of s) data); discriminate.
Qed.

Lemma leaf_returns_data (schema : Schema) :
  is_leaf schema = true ->
  exists cb, resolve_schema schema = resolve_with schema (Some cb) /\ returns_data cb.
Proof.
  destruct schema; try discriminate; intros _; eexists; (split; [reflexivity|]);
    intros data hint s v a s' H.
  - injection H as <- <- <-. auto.
  - exfalso. exact (stringify_throw_not_ok _ _ _ _ _ H).
  - unfold resolve_const, strict_equal in H. case_bool_decide as Heq.
    + injection H as <- <- <-. auto.
    + exfalso. rewrite bind_unfold in H. cbn [get_heap] in H.
      exact (stringify_throw_not_ok _ _ _ _ _ H).
  - unfold resolve_string in H.
    destruct data; try (exfalso; exact (stringify_throw_not_ok _ _ _ _ _ H)).
    injection H as <- <- <-. auto.
  - unfold resolve_number in H.
    destruct data; try (exfalso; exact (stringify_throw_not_ok _ _ _ _ _ H)).
    injection H as <- <- <-. auto.
  - unfold resolve_boolean in H.
    destruct data; try (exfalso; exact (stringify_throw_not_ok _ _ _ _ _ H)).
    injection H as <- <- <-. auto.
  - unfold resolve_is in H. rewrite bind_unfold in H. cbn [get_heap] in H.
    destruct (ctor_hasInstance callback (heap_of s) data); [|discriminate].
    injection H as <- <- <-. auto.
Qed.

Lemma resolve_with_returns_data (schema : Schema) (cb : Resolve) data hint s v a s' :
  returns_data cb -> isNullable data = false ->
  resolve_with schema (Some cb) data hint s = (Ok (v, a), s') ->
  v = data /\ a = VUndefined /\ s' = s.
Proof.
  intros Hcb Hnull H. rewrite resolve_with_dispatch in H by exact Hnull.
  destruct (cb data hint (set_current (Some schema) s)) as [[[v' a']|e] s1] eqn:Hrun.
  - injection H as <- <- <-. destruct (Hcb _ _ _ _ _ _ Hrun) as (-> & -> & ->).
    rewrite set_current_restore. auto.
  - destruct (rewrap_throws (A := value * value) e s1) as (e' & Hrw & _).
    rewrite Hrw in H. discriminate.
Qed.

(** For a schema of a leaf kind (any, never, const, string, number, boolean,
    is) and an input it resolves, resolving the resolved value again
    returns the very same value, and the same state. *)
Lemma leaf_resolve_again (schema : Schema) (x : value) (hint : bool)
    (s s1 : state) (v a : value) :
  is_leaf schema = true ->
  resolve x (Some schema) hint s = (Ok (v, a), s1) ->
  resolve v (Some schema) hint s1 = (Ok (v, a), s1).
Proof.
  intros Hleaf H. cbn [resolve] in *.
  destruct (leaf_returns_data schema Hleaf) as (cb & Hunfold & Hcb).
  rewrite Hunfold in *.
  destruct (isNullable x) eqn:Hx.
  - pose proof (resolve_with_nullable schema (Some cb) x hint s Hx) as Hwith.
    rewrite Hwith in H.
    destruct (meta_required (meta schema)); [discriminate|].
    destruct (isNullable (fallback_of (meta schema))) eqn:Hfallback.
    + injection H as <- <- <-. rewrite Hwith. reflexivity.
    + destruct (resolve_with_returns_data _ _ _ _ _ _ _ _ Hcb Hfallback H) as (-> & -> & ->).
      exact H.
  - destruct (resolve_with_returns_data _ _ _ _ _ _ _ _ Hcb Hx H) as (-> & -> & ->).
    exact H.
Qed.

(** C4 as stated fails: [transform(number(), (x) => x + 1)] resolves 1 to
    2, and the resolved 2 to 3. *)
Lemma transform_not_idempotent :
  resolve (VNum 1) (Some transform_increment) false (initial [])
  = (Ok (VNum 2, VNum 2), initial [])
  /\ resolve (VNum 2) (Some transform_increment) false (initial [])
     = (Ok (VNum 3, VNum 3), initial [])
  /\ VNum 3 <> VNum 2.
Proof. repeat split; [reflexivity..|discriminate]. Qed.

(** ** A container nothing refers to is out of reach *)

Lemma props_read_values (P : value -> Prop) (key : string) (ps : props) :
  P VUndefined -> Forall P (map snd ps) -> P (props_read key ps).
Proof.
  intros Hundef Hps. unfold props_read.
  induction ps as [|[k v] ps IH]; cbn; [exact Hundef|].
  inversion Hps; subst. destruct (String.eqb k key); auto.
Qed.

Lemma props_set_values (P : value -> Prop) (key : string) (v : value) (ps : props) :
  P v -> Forall P (map snd ps) -> Forall P (map snd (props_set key v ps)).
Proof.
  intros Hv. induction ps as [|[k w] ps IH]; intros Hps; cbn.
  - repeat constructor. exact Hv.
  - inversion Hps; subst. destruct (String.eqb k key); cbn; constructor; auto.
Qed.

Lemma props_delete_values (P : value -> Prop) (key : string) (ps : props) :
  Forall P (map snd ps) -> Forall P (map snd (props_delete key ps)).
Proof.
  induction ps as [|[k w] ps IH]; intros Hps; cbn; [constructor|].
  inversion Hps; subst. destruct (String.eqb k key); cbn; auto.
Qed.

Lemma obj_read_values (P : value -> Prop) (o : obj) (key : pkey) :
  P VUndefined -> Forall P (obj_values o) -> P (obj_read o key).
Proof.
  intros Hundef Ho. destruct o as [elems|entries].
  - destruct key as [i|k]; cbn; [|exact Hundef].
    destruct (elems !! i) as [v|] eqn:Hi; [|exact Hundef].
    eapply Forall_lookup_1; eassumption.
  - rewrite obj_read_object. apply props_read_values; assumption.
Qed.

Lemma obj_write_values (P : value -> Prop) (o : obj) (key : pkey) (v : value) :
  P VUndefined -> P v -> Forall P (obj_values o) -> Forall P (obj_values (obj_write o key v)).
Proof.
  intros Hundef Hv Ho. destruct o as [elems|entries].
  - destruct key as [i|k]; cbn; [|exact Ho]. case_decide; cbn.
    + apply Forall_insert; assumption.
    + apply Forall_app. split; [exact Ho|]. apply Forall_app. split.
      * apply Forall_replicate. exact Hundef.
      * repeat constructor. exact Hv.
  - rewrite obj_write_object.
    destruct (props_put_cases (pkey_string key) v entries) as [-> | ->]; [exact Ho|].
    apply props_set_values; assumption.
Qed.

Lemma obj_delete_values (P : value -> Prop) (o : obj) (key : string) :
  Forall P (obj_values o) -> Forall P (obj_values (obj_delete o key)).
Proof.
  intros Ho. destruct o as [elems|entries]; [exact Ho|]. cbn.
  apply props_delete_values. exact Ho.
Qed.

Lemma obj_entries_values (P : value -> Prop) (o : obj) :
  Forall P (obj_values o) -> good_props P (obj_entries o).
Proof.
  intros Ho. destruct o as [elems|entries]; cbn in *.
  - unfold good_props. apply list.Forall_forall. intros [k v] Hin.
    apply elem_of_lookup_imap in Hin as (i & x & Heq & Hx). injection Heq as -> ->.
    cbn. eapply Forall_lookup_1; eassumption.
  - unfold good_props. induction entries as [|kv entries IH]; [constructor|].
    inversion Ho; subst. constructor; auto.
Qed.

Lemma unreferenced_insert (l l' : loc) (o : obj) (h : heap) :
  unreferenced l h -> Forall (avoids l) (obj_values o) -> unreferenced l (<[l' := o]> h).
Proof.
  intros Hh Ho l'' o'' Hl''. destruct (decide (l'' = l')) as [->|Hne].
  - apply list_lookup_insert_Some in Hl'' as [(_ & <- & _)|[? _]]; [exact Ho|congruence].
  - rewrite list_lookup_insert_ne in Hl'' by congruence. eapply Hh. exact Hl''.
Qed.

Lemma unreferenced_app (l : loc) (o : obj) (h : heap) :
  unreferenced l h -> Forall (avoids l) (obj_values o) -> unreferenced l (h ++ [o])%list.
Proof.
  intros Hh Ho l' o' Hl'. apply lookup_app_Some in Hl' as [Hl'|[_ Hl']].
  - eapply Hh. exact Hl'.
  - apply list_lookup_singleton_Some in Hl' as [_ <-]. exact Ho.
Qed.

Lemma framed_invariant (l : loc) (o : obj) : invariant (framed l o) (avoids l).
Proof.
  split.
  - intros v Hv ->. discriminate.
  - intros s data key [Hl Hun] Hdata. unfold heap_read.
    destruct data as [| | | | |l']; try discriminate.
    destruct (heap_of s !! l') as [o'|] eqn:Hl'; [|discriminate].
    apply obj_read_values; [discriminate|]. eapply Hun. exact Hl'.
  - intros s data key v [Hl Hun] Hdata Hv. unfold framed, heap_write. cbn [heap_of set_heap].
    destruct data as [| | | | |l']; try (split; assumption).
    destruct (heap_of s !! l') as [o'|] eqn:Hl'; [|split; assumption].
    assert (l' <> l) by (intros ->; apply Hdata; reflexivity).
    split.
    + rewrite list_lookup_insert_ne by congruence. exact Hl.
    + apply unreferenced_insert; [exact Hun|].
      apply obj_write_values; [discriminate|exact Hv|]. eapply Hun. exact Hl'.
  - intros s data key [Hl Hun] Hdata. unfold framed, heap_delete. cbn [heap_of set_heap].
    destruct data as [| | | | |l']; try (split; assumption).
    destruct (heap_of s !! l') as [o'|] eqn:Hl'; [|split; assumption].
    assert (l' <> l) by (intros ->; apply Hdata; reflexivity).
    split.
    + rewrite list_lookup_insert_ne by congruence. exact Hl.
    + apply unreferenced_insert; [exact Hun|].
      apply obj_delete_values. eapply Hun. exact Hl'.
  - intros s o' [Hl Hun] Ho'. split.
    + split; cbn [heap_of set_heap].
      * apply lookup_app_l_Some. exact Hl.
      * apply unreferenced_app; assumption.
    + intros [= Heq]. apply lookup_lt_Some in Hl. lia.
  - intros s v [Hl Hun] Hv. unfold own_entries.
    destruct v as [| | | |str|l']; try constructor.
    + unfold string_entries, good_props. apply list.Forall_forall. intros [k x] Hin.
      apply elem_of_lookup_imap in Hin as (i & c & Heq & _). injection Heq as -> ->.
      discriminate.
    + destruct (heap_of s !! l') as [o'|] eqn:Hl'; [|constructor].
      apply obj_entries_values. eapply Hun. exact Hl'.
  - intros s data [Hl Hun] Hdata. unfold elements.
    destruct data as [| | | | |l']; try constructor.
    destruct (heap_of s !! l') as [[elems|entries]|] eqn:Hl'; try constructor.
    exact (Hun l' (OArr elems) Hl').
Qed.

(** Resolving data other than [VRef l], with a schema whose defaults and
    callbacks leave [l] alone, does not touch what [l] holds. *)
Lemma resolve_schema_framed (l : loc) (o : obj) (schema : Schema) :
  schema_ok (framed l o) (avoids l) schema ->
  sound (framed l o) (avoids l) (resolve_schema schema).
Proof.
  apply sound_resolve_schema.
  - apply framed_invariant.
  - intros c s H. exact H.
Qed.

(** ** Dict: the entries leave the input *)

Lemma props_keys_set (key k : string) (v : value) (ps : props) :
  k ∈ props_keys (props_set key v ps) <-> k = key \/ k ∈ props_keys ps.
Proof.
  rewrite <- !props_has_keys, !props_has_get. destruct (decide (k = key)) as [->|Hne].
  - rewrite props_get_set_eq. split; eauto.
  - rewrite props_get_set_ne by congruence. split; [auto|]. intros [?|?]; [congruence|auto].
Qed.

Lemma props_keys_delete (key k : string) (ps : props) :
  k ∈ props_keys (props_delete key ps) <-> k <> key /\ k ∈ props_keys ps.
Proof.
  rewrite <- !props_has_keys, !props_has_get. destruct (decide (k = key)) as [->|Hne].
  - rewrite props_get_delete_eq. split; [intros [v [=]]|intros [? _]; congruence].
  - rewrite props_get_delete_ne by congruence. split; [auto|]. intros [_ ?]. auto.
Qed.

Lemma props_keys_put (key k : string) (v : value) (ps : props) :
  k ∈ props_keys (props_put key v ps)
  <-> (k = key /\ (key <> "__proto__" \/ key ∈ props_keys ps)) \/ k ∈ props_keys ps.
Proof.
  unfold props_put. destruct (String.eqb key "__proto__") eqn:Hproto; cbn [andb].
  - apply String.eqb_eq in Hproto. destruct (props_has key ps) eqn:Hown; cbn [negb].
    + apply props_has_keys in Hown. rewrite props_keys_set. tauto.
    + assert (key ∉ props_keys ps) by (rewrite <- props_has_keys; congruence). tauto.
  - apply String.eqb_neq in Hproto. rewrite props_keys_set. tauto.
Qed.

Lemma props_put_values (P : value -> Prop) (key : string) (v : value) (ps : props) :
  P v -> Forall P (map snd ps) -> Forall P (map snd (props_put key v ps)).
Proof.
  intros Hv Hps. destruct (props_put_cases key v ps) as [-> | ->]; [exact Hps|].
  apply props_set_values; assumption.
Qed.

Lemma framed_write_self (l : loc) (cur : props) (key : string) (v : value) (s : state) :
  framed l (OObj cur) s -> avoids l v ->
  framed l (OObj (props_put key v cur))
    (set_heap (heap_write (heap_of s) (VRef l) (KStr key) v) s).
Proof.
  intros [Hl Hun] Hv. unfold framed, heap_write. cbn [heap_of set_heap]. rewrite Hl.
  split.
  - rewrite list_lookup_insert_eq by (eapply lookup_lt_Some; eassumption). reflexivity.
  - apply unreferenced_insert; [exact Hun|]. cbn.
    apply props_put_values; [exact Hv|]. exact (Hun l _ Hl).
Qed.

Lemma framed_delete_self (l : loc) (cur : props) (key : string) (s : state) :
  framed l (OObj cur) s ->
  framed l (OObj (props_delete key cur)) (set_heap (heap_delete (heap_of s) (VRef l) key) s).
Proof.
  intros [Hl Hun]. unfold framed, heap_delete. cbn [heap_of set_heap]. rewrite Hl.
  split.
  - rewrite list_lookup_insert_eq by (eapply lookup_lt_Some; eassumption). reflexivity.
  - apply unreferenced_insert; [exact Hun|]. cbn.
    apply props_delete_values. exact (Hun l _ Hl).
Qed.

(** [property(data, key, schema)] on the framed object itself: the nested
    resolution leaves it alone, then at most [key] is written. *)
Lemma property_self (l : loc) (cur : props) (key : string) (inner : Resolve)
    (s s1 : state) (value : value) :
  framed l (OObj cur) s ->
  sound (framed l (OObj cur)) (avoids l) inner ->
  property (VRef l) (KStr key) inner s = (Ok value, s1) ->
  exists cur1,
    framed l (OObj cur1) s1
    /\ (forall k, k ∈ props_keys cur -> k ∈ props_keys cur1)
    /\ (forall k, k ∈ props_keys cur1 -> k = key \/ k ∈ props_keys cur)
    /\ (forall k, k <> key -> props_get k cur1 = props_get k cur).
Proof.
  intros Hframed Hinner Hprop. unfold property in Hprop.
  rewrite bind_unfold in Hprop. cbn [get_property heap_read] in Hprop.
  destruct Hframed as [Hl Hun]. rewrite Hl in Hprop. cbn [obj_read pkey_string] in Hprop.
  assert (Hitem : avoids l (props_read key cur)).
  { apply props_read_values; [discriminate|]. exact (Hun l _ Hl). }
  rewrite bind_unfold in Hprop.
  destruct (Hinner (props_read key cur) false Hitem s (conj Hl Hun)) as [Hframed1 Hgood].
  destruct (inner (props_read key cur) false s) as [[[v adapted]|e] s_a]; [|discriminate].
  cbn [snd] in Hframed1. destruct (Hgood _ eq_refl) as [_ Hadapted]. cbn in Hadapted.
  destruct (isNullable adapted).
  - injection Hprop as <- <-. exists cur. split; [exact Hframed1|]. repeat split; auto.
  - rewrite bind_unfold in Hprop. cbn in Hprop. injection Hprop as <- <-.
    exists (props_put key adapted cur). split.
    + pose proof (framed_write_self l cur key adapted s_a Hframed1 Hadapted) as H.
      unfold heap_write in H. exact H.
    + repeat split; intros k; rewrite ?props_keys_put; [auto|tauto|].
      intros Hne. apply props_get_put_ne. congruence.
Qed.

Lemma dict_body_consumes (l : loc) (cur : props) (key : string) (inner sKey : Resolve)
    (strict : bool) (acc acc1 : props) (s s1 : state) :
  framed l (OObj cur) s ->
  sound (framed l (OObj cur)) (avoids l) inner ->
  key_identity sKey ->
  dict_body inner sKey strict (VRef l) key acc s = (Ok acc1, s1) ->
  exists cur1,
    framed l (OObj cur1) s1
    /\ (forall k, k ∈ props_keys cur1 <-> k <> key /\ k ∈ props_keys cur)
    /\ acc1 = props_put key (props_read key acc1) acc.
Proof.
  intros Hframed Hinner HsKey Hbody. unfold dict_body, try_catch in Hbody.
  rewrite !bind_unfold in Hbody. destruct (HsKey key s) as [a0 Hkey]. rewrite Hkey in Hbody.
  cbn [mret M_ret fst] in Hbody. rewrite bind_unfold in Hbody.
  destruct (property (VRef l) (KStr key) inner s) as [[value|e] s_p] eqn:Hprop; [|discriminate].
  destruct (property_self _ _ _ _ _ _ _ Hframed Hinner Hprop) as (cur1 & Hframed1 & Hsub & Hsup & _).
  rewrite bind_unfold in Hbody. cbn [get_heap] in Hbody. rewrite bind_unfold in Hbody.
  cbn [get_property heap_read] in Hbody. pose proof Hframed1 as [Hl1 _]. rewrite Hl1 in Hbody.
  cbn [obj_read pkey_string] in Hbody. rewrite !bind_unfold in Hbody.
  cbn [set_property delete_property modify ToString ToString_go mret M_ret] in Hbody.
  injection Hbody as <- <-.
  assert (Hitem : avoids l (props_read key cur1)).
  { apply props_read_values; [discriminate|]. destruct Hframed1 as [? Hun]. exact (Hun l _ H). }
  pose proof (framed_write_self l cur1 key _ s_p Hframed1 Hitem) as Hframed2.
  pose proof (framed_delete_self l _ key _ Hframed2) as Hframed3.
  eexists. split; [exact Hframed3|]. split.
  - intros k. rewrite props_keys_delete, props_keys_put. split.
    + intros [Hne [[? _]|Hin]]; [congruence|]. split; [exact Hne|].
      destruct (Hsup k Hin); [congruence|assumption].
    + intros [Hne Hin]. split; [exact Hne|]. right. apply Hsub. exact Hin.
  - unfold props_put. destruct (String.eqb key "__proto__" && negb (props_has key acc));
      [reflexivity|].
    unfold props_read. rewrite props_get_set_eq. reflexivity.
Qed.

Lemma dict_loop_consumes (l : loc) (inner sKey : Resolve) (strict : bool) :
  (forall o, sound (framed l o) (avoids l) inner) ->
  key_identity sKey ->
  forall (rest : list string) (acc cur : props) (s : state) (acc' : props) (s' : state),
    framed l (OObj cur) s ->
    "__proto__" ∉ props_keys acc ->
    (forall k, k ∈ props_keys cur -> k ∈ rest) ->
    (forall k, k ∈ rest -> k <> "__proto__" -> k ∈ props_keys cur \/ k ∈ props_keys acc) ->
    for_in_loop (VRef l) rest (dict_body inner sKey strict (VRef l)) acc s = (Ok acc', s') ->
    framed l (OObj []) s'
    /\ forall k, k ∈ props_keys acc' <-> k ∈ props_keys acc \/ (k ∈ rest /\ k <> "__proto__").
Proof.
  intros Hinner HsKey rest.
  induction rest as [|key rest IH]; intros acc cur s acc' s' Hframed Hproto Hsub Hsup Hloop.
  - cbv [for_in_loop mret M_ret] in Hloop. injection Hloop as <- <-.
    assert (cur = []) as ->.
    { destruct cur as [|[k v] cur]; [reflexivity|].
      exfalso. eapply not_elem_of_nil. apply (Hsub k). left. }
    split; [exact Hframed|]. intros k. split; [auto|]. intros [?|[Hin _]]; [assumption|].
    exfalso. eapply not_elem_of_nil. exact Hin.
  - cbn [for_in_loop] in Hloop. rewrite bind_unfold in Hloop.
    cbn [has_property heap_has] in Hloop. pose proof Hframed as [Hl _].
    rewrite Hl in Hloop. cbn [obj_has] in Hloop.
    destruct (props_has key cur) eqn:Hpresent.
    + rewrite bind_unfold in Hloop.
      destruct (dict_body inner sKey strict (VRef l) key acc s) as [[acc1|e] s1] eqn:Hbody;
        [|discriminate].
      destruct (dict_body_consumes _ _ _ _ _ _ _ _ _ _ Hframed (Hinner _) HsKey Hbody)
        as (cur1 & Hframed1 & Hcur1 & Hacc1).
      assert (Hkeys1 : forall k, k ∈ props_keys acc1
                <-> (k = key /\ key <> "__proto__") \/ k ∈ props_keys acc).
      { intros k. rewrite Hacc1, props_keys_put. split; [|tauto].
        intros [[-> [?|?]]|?]; [left; split; [reflexivity|assumption]| |right; assumption].
        destruct (decide (key = "__proto__")); [congruence|].
        left. split; [reflexivity|assumption]. }
      destruct (IH acc1 cur1 s1 acc' s' Hframed1) as [Hfinal Hkeys]; [| | |exact Hloop|].
      * rewrite Hkeys1. intros [[Heq Hne]|Hin]; [congruence|exact (Hproto Hin)].
      * intros k Hk. apply Hcur1 in Hk as [Hne Hk].
        apply Hsub in Hk. apply elem_of_cons in Hk as [?|?]; [congruence|assumption].
      * intros k Hk Hnp. destruct (decide (k = key)) as [->|Hne].
        { right. apply Hkeys1. auto. }
        destruct (Hsup k) as [Hin|Hin]; [right; exact Hk|exact Hnp| |].
        { left. apply Hcur1. auto. }
        { right. apply Hkeys1. auto. }
      * split; [exact Hfinal|]. intros k. rewrite Hkeys, Hkeys1, elem_of_cons. split.
        { intros [[[-> ?]|?]|[? ?]]; [right; split; [left; reflexivity|assumption]|left; assumption|].
          right. split; [right; assumption|assumption]. }
        intros [?|[[->|?] ?]]; [left; right; assumption|left; left; split; [reflexivity|assumption]|].
        right. split; assumption.
    + apply props_has_false, props_get_None in Hpresent.
      destruct (IH acc cur s acc' s' Hframed) as [Hfinal Hkeys]; [exact Hproto| | |exact Hloop|].
      * intros k Hk. pose proof (Hsub k Hk) as Hin.
        apply elem_of_cons in Hin as [->|?]; [contradiction|assumption].
      * intros k Hk. apply Hsup. right. exact Hk.
      * split; [exact Hfinal|]. intros k. rewrite Hkeys, elem_of_cons.
        split; [tauto|]. intros [?|[[->|?] Hnp]]; auto.
        destruct (Hsup key) as [?|?]; [left|exact Hnp|contradiction|auto].
Qed.

Lemma resolve_any_key (m : Meta) (key : string) (s : state) :
  resolve (VStr key) (Some (Sany m)) false s = (Ok (VStr key, VUndefined), s).
Proof.
  cbn [resolve resolve_schema]. rewrite resolve_with_dispatch by reflexivity.
  cbn. rewrite set_current_restore. reflexivity.
Qed.

(** X29. Resolving a dict schema whose key schema maps each key to itself
    (as [any] does, the key schema of a dict declared without one) on a
    plain object that nothing else refers to, with an inner schema whose
    defaults and callbacks leave that object alone: when resolution
    returns, the input object has no entry left, and the result is another
    object whose keys are those the input had, [__proto__] left out. *)
Theorem dict_consumes_input (inner sKey : Schema) (m : Meta) (l : loc) (entries : props)
    (strict : bool) (s s' : state) (r a : value) :
  heap_of s !! l = Some (OObj entries) ->
  unreferenced l (heap_of s) ->
  (forall o, schema_ok (framed l o) (avoids l) inner) ->
  key_identity (resolve_schema sKey) ->
  resolve (VRef l) (Some (Sdict inner sKey m)) strict s = (Ok (r, a), s') ->
  heap_of s' !! l = Some (OObj [])
  /\ exists (l_r : loc) (result : props),
       r = VRef l_r /\ l_r <> l /\ heap_of s' !! l_r = Some (OObj result)
       /\ forall key, key ∈ props_keys result
                      <-> key ∈ props_keys entries /\ key <> "__proto__".
Proof.
  intros Hl Hun Hinner HsKey Hres. cbn [resolve resolve_schema] in Hres.
  rewrite resolve_with_dispatch in Hres by reflexivity.
  set (s0 := set_current (Some (Sdict inner sKey m)) s) in *.
  unfold resolve_dict, for_in in Hres. rewrite !bind_unfold in Hres. cbn [get_heap] in Hres.
  assert (Hl0 : heap_of s0 !! l = Some (OObj entries)) by exact Hl.
  cbn [isObject enumerable_keys] in Hres. rewrite !Hl0 in Hres. cbn [negb obj_keys] in Hres.
  rewrite !bind_unfold in Hres. cbn [get_heap enumerable_keys] in Hres.
  rewrite ?Hl0 in Hres. cbn [obj_keys] in Hres.
  destruct (for_in_loop (VRef l) (props_keys entries)
              (dict_body (resolve_schema inner) (resolve_schema sKey) strict (VRef l)) [] s0)
    as [[result|e] s1] eqn:Hloop.
  2:{ destruct (rewrap_throws (A := value * value) e s1) as (e' & Hrw & _).
      rewrite Hrw in Hres. discriminate. }
  assert (Hframed : framed l (OObj entries) s0) by (split; assumption).
  rewrite bind_unfold in Hres.
  destruct (dict_loop_consumes l _ _ strict
              (fun o => resolve_schema_framed l o inner (Hinner o)) HsKey
              _ [] _ _ _ _ Hframed (not_elem_of_nil _) (fun k H => H)
              (fun k H _ => or_introl H) Hloop)
    as [[Hl1 _] Hkeys].
  cbn in Hres. injection Hres as <- <- <-. cbn [heap_of set_current set_heap].
  split; [apply lookup_app_l_Some; exact Hl1|].
  exists (length (heap_of s1)), result. split; [reflexivity|]. split.
  { apply lookup_lt_Some in Hl1. lia. }
  split.
  - rewrite lookup_app_r by lia. rewrite Nat.sub_diag. reflexivity.
  - intros key. rewrite Hkeys. split; [intros [Hin|?]; [|assumption]|auto].
    exfalso. eapply not_elem_of_nil. exact Hin.
Qed.

Lemma dict_consumes_input_witness :
  dict_of_numbers = Some (Sdict Schema.number Schema.any empty_meta)
  /\ resolve (VRef 0) (Some (Sdict Schema.number Schema.any empty_meta)) false
       (initial [input_a1_b2])
     = (Ok (VRef 1, VUndefined), initial [OObj []; OObj [("a", VNum 1); ("b", VNum 2)]])
  /\ ([OObj []; OObj [("a", VNum 1); ("b", VNum 2)]] !! 0 = Some (OObj [])
      /\ exists (l_r : loc) (result : props),
           VRef 1 = VRef l_r /\ l_r <> 0
           /\ [OObj []; OObj [("a", VNum 1); ("b", VNum 2)]] !! l_r = Some (OObj result)
           /\ forall key, key ∈ props_keys result
                          <-> key ∈ ["a"; "b"] /\ key <> "__proto__").
Proof.
  split; [reflexivity|]. split; [reflexivity|].
  apply (dict_consumes_input Schema.number Schema.any empty_meta 0
           [("a", VNum 1); ("b", VNum 2)] false (initial [input_a1_b2])
           (initial [OObj []; OObj [("a", VNum 1); ("b", VNum 2)]]) (VRef 1) VUndefined).
  - reflexivity.
  - intros l' o H. destruct l' as [|l']; [|discriminate].
    injection H as <-. repeat constructor; discriminate.
  - intros o. split; [discriminate|exact I].
  - intros key s. eexists. apply resolve_any_key.
  - reflexivity.
Defined.

(** C9. The dict resolver deletes every entry it processes from the input,
    but the result does not get every resolved entry. For [dict(number())]
    and the input [{ a: 1, b: 2 }] the result is [{ a: 1, b: 2 }] and the
    input is left empty, as the claim says. For the input
    [{ "__proto__": 1, b: 2 }], whose property [__proto__] is its own (as
    [JSON.parse] makes it), the entry [__proto__] resolves, to 1, and is
    deleted from the input, yet the result is [{ b: 2 }]: the assignment
    [result[rKey] = ...] ran the setter of [Object.prototype]. The entry
    is resolved like any other: were it no number, as in
    [{ "__proto__": "x" }], the resolution would fail. *)
Theorem dict_result_lacks_proto_entry :
  dict_of_numbers = Some (Sdict Schema.number Schema.any empty_meta)
  /\ resolve (VRef 0) dict_of_numbers false (initial [input_a1_b2])
     = (Ok (VRef 1, VUndefined), initial [OObj []; OObj [("a", VNum 1); ("b", VNum 2)]])
  /\ resolve (VNum 1) (Some Schema.number) false
       (initial [OObj [("__proto__", VNum 1); ("b", VNum 2)]])
     = (Ok (VNum 1, VUndefined), initial [OObj [("__proto__", VNum 1); ("b", VNum 2)]])
  /\ resolve (VRef 0) dict_of_numbers false
       (initial [OObj [("__proto__", VNum 1); ("b", VNum 2)]])
     = (Ok (VRef 1, VUndefined), initial [OObj []; OObj [("b", VNum 2)]])
  /\ heap_has [OObj []; OObj [("b", VNum 2)]] (VRef 1) "__proto__" = false
  /\ resolve (VRef 0) dict_of_numbers false (initial [OObj [("__proto__", VStr "x")]])
     = (Throw (SchemaError ("expected number but got " ++ json_quote "x")
                 (Some (Sdict Schema.number Schema.any empty_meta))),
        initial [OObj [("__proto__", VStr "x")]]).
Proof. repeat split. Qed.

(** ** Object: the undeclared keys *)




(** C7. The object resolver copies the undeclared input keys in lenient
    mode and omits them in strict mode, but not every undeclared key: for
    [object({ a: number() })] and the input [{ a: 1, b: 2 }] the result is
    [{ a: 1, b: 2 }] leniently and [{ a: 1 }] strictly, as the claim says,
    while for [object({})] and the input [{ toString: 1, b: 2 }] the
    lenient result is [{ b: 2 }]. [merge] skips a key that is [in] the
    result, and the name of a member of [Object.prototype] is [in] every
    object. *)
Theorem object_lenient_skips_inherited_names :
  resolve (VRef 0) (Some object_a_number) false (initial [input_a1_b2])
  = (Ok (VRef 1, VUndefined), initial [input_a1_b2; OObj [("a", VNum 1); ("b", VNum 2)]])
  /\ resolve (VRef 0) (Some object_a_number) true (initial [input_a1_b2])
     = (Ok (VRef 1, VUndefined), initial [input_a1_b2; OObj [("a", VNum 1)]])
  /\ resolve (VRef 0) (Some (Sobject [] empty_meta)) false
       (initial [OObj [("toString", VNum 1); ("b", VNum 2)]])
     = (Ok (VRef 1, VUndefined),
        initial [OObj [("toString", VNum 1); ("b", VNum 2)]; OObj [("b", VNum 2)]])
  /\ heap_has [OObj [("toString", VNum 1); ("b", VNum 2)]] (VRef 0) "toString" = true
  /\ heap_has [OObj [("toString", VNum 1); ("b", VNum 2)]; OObj [("b", VNum 2)]]
       (VRef 1) "toString" = false.
Proof. repeat split. Qed.

(** ** Re-resolving: the kinds that leave their input alone *)

Lemma same_grows (h h' : heap) :
  h `prefix_of` h' -> forall v v', same h v v' -> same h' v v'.
Proof.
  intros Hgrow. fix IH 3. intros v v' Hsame.
  destruct Hsame as [v|l1 l2 elems1 elems2 H1 H2 Helems|l1 l2 entries1 entries2 H1 H2 Hentries].
  - apply same_refl.
  - eapply same_array; [eapply prefix_lookup_Some; eassumption..|].
    clear H1 H2. revert elems1 elems2 Helems. fix IHelems 3. intros elems1 elems2 Helems.
    destruct Helems as [|x y elems1 elems2 Hxy Helems]; constructor.
    + apply IH. exact Hxy.
    + apply IHelems. exact Helems.
  - eapply same_object; [eapply prefix_lookup_Some; eassumption..|].
    intros key. destruct (Hentries key) as [x y Hxy|]; constructor. apply IH. exact Hxy.
Qed.

Lemma same_undefined (h : heap) (v : value) : same h VUndefined v -> v = VUndefined.
Proof. intros H. inversion H. reflexivity. Qed.

Lemma quiet_keeps (r : Resolve) (h0 : heap) (data : value) (hint : bool) :
  quiet r ->
  keeps (grows_from h0)
    (fun va => snd va = VUndefined /\ (isNullable (fst va) = true -> fst va = data))
    (r data hint).
Proof.
  intros Hr s Hs. destruct (Hr data hint s) as [Hgrow Hok]. split.
  - unfold grows_from in *. etrans; eassumption.
  - intros [v a] Hva. exact (Hok v a Hva).
Qed.

Lemma keeps_quiet (r : Resolve) :
  (forall h0 data hint,
     keeps (grows_from h0)
       (fun va => snd va = VUndefined /\ (isNullable (fst va) = true -> fst va = data))
       (r data hint)) ->
  quiet r.
Proof.
  intros Hr data hint s. destruct (Hr (heap_of s) data hint s) as [Hgrow Hok]; [unfold grows_from; reflexivity|].
  split; [exact Hgrow|]. intros v a Hva. exact (Hok (v, a) Hva).
Qed.

(** With a quiet resolver [property] writes nothing. *)
Lemma property_quiet (data : value) (key : pkey) (schema : Resolve) (s : state) :
  quiet schema ->
  property data key schema s =
    match schema (heap_read (heap_of s) data key) false s with
    | (Ok va, s') => (Ok (fst va), s')
    | (Throw e, s') => (Throw e, s')
    end.
Proof.
  intros Hschema. unfold property. rewrite bind_unfold. cbn [get_property].
  rewrite bind_unfold.
  destruct (Hschema (heap_read (heap_of s) data key) false s) as [_ Hok].
  destruct (schema (heap_read (heap_of s) data key) false s) as [[[v a]|e] s']; [|reflexivity].
  destruct (Hok v a eq_refl) as [-> _]. reflexivity.
Qed.

Lemma keeps_property_quiet (h0 : heap) (data : value) (key : pkey) (schema : Resolve) :
  quiet schema -> keeps (grows_from h0) (fun _ => True) (property data key schema).
Proof.
  intros Hschema s Hs. rewrite property_quiet by exact Hschema.
  destruct (Hschema (heap_read (heap_of s) data key) false s) as [Hgrow _].
  destruct (schema (heap_read (heap_of s) data key) false s) as [[va|e] s'];
    (split; [unfold grows_from in *; etrans; eassumption|auto]).
Qed.

Lemma keeps_alloc_grows (h0 : heap) (o : obj) (data : value) :
  keeps (grows_from h0)
    (fun va : value * value =>
       snd va = VUndefined /\ (isNullable (fst va) = true -> fst va = data))
    (container ← alloc o; mret (container, VUndefined)).
Proof.
  intros s Hs. split.
  - cbn. apply prefix_app_r. exact Hs.
  - cbn. intros va [= <-]. split; [reflexivity|discriminate].
Qed.

Lemma grows_from_refl (s : state) : grows_from (heap_of s) s.
Proof. unfold grows_from. reflexivity. Qed.

Lemma quiet_leaf_result (h0 : heap) (data : value) :
  keeps (grows_from h0)
    (fun va : value * value =>
       snd va = VUndefined /\ (isNullable (fst va) = true -> fst va = data))
    (mret (data, VUndefined)).
Proof. apply keeps_ret. split; [reflexivity|auto]. Qed.

Lemma quiet_any : quiet resolve_any.
Proof. apply keeps_quiet. intros h0 data hint. apply quiet_leaf_result. Qed.

Lemma quiet_never : quiet resolve_never.
Proof.
  apply keeps_quiet. intros h0 data hint. unfold resolve_never.
  eapply keeps_bind; [apply keeps_stringify|]. intros text _. apply keeps_throw_SchemaError.
Qed.

Lemma quiet_const (value : value) : quiet (resolve_const value).
Proof.
  apply keeps_quiet. intros h0 data hint. unfold resolve_const, strict_equal.
  case_bool_decide as Heq.
  - subst. apply quiet_leaf_result.
  - eapply keeps_bind; [apply keeps_get_heap|]. intros h _.
    eapply keeps_bind; [apply keeps_stringify|]. intros text _. apply keeps_throw_SchemaError.
Qed.

Lemma quiet_string : quiet resolve_string.
Proof.
  apply keeps_quiet. intros h0 data hint. unfold resolve_string.
  destruct data;
    try (eapply keeps_bind; [apply keeps_stringify|]; intros text _; apply keeps_throw_SchemaError).
  apply quiet_leaf_result.
Qed.

Lemma quiet_number : quiet resolve_number.
Proof.
  apply keeps_quiet. intros h0 data hint. unfold resolve_number.
  destruct data;
    try (eapply keeps_bind; [apply keeps_stringify|]; intros text _; apply keeps_throw_SchemaError).
  apply quiet_leaf_result.
Qed.

Lemma quiet_boolean : quiet resolve_boolean.
Proof.
  apply keeps_quiet. intros h0 data hint. unfold resolve_boolean.
  destruct data;
    try (eapply keeps_bind; [apply keeps_stringify|]; intros text _; apply keeps_throw_SchemaError).
  apply quiet_leaf_result.
Qed.

Lemma quiet_is (callback : Constructor) : quiet (resolve_is callback).
Proof.
  apply keeps_quiet. intros h0 data hint. unfold resolve_is.
  eapply keeps_bind; [apply keeps_get_heap|]. intros h _.
  destruct (ctor_hasInstance callback h data); [apply quiet_leaf_result|].
  apply keeps_throw_SchemaError.
Qed.

Lemma quiet_array (inner : Resolve) : quiet inner -> quiet (resolve_array inner).
Proof.
  intros Hinner. apply keeps_quiet. intros h0 data hint. unfold resolve_array.
  eapply keeps_bind; [apply keeps_get_heap|]. intros h _.
  destruct (negb (isArray h data)); [apply keeps_expected_array|].
  eapply keeps_bind.
  { apply keeps_mapM with (G := fun _ => True). intros index.
    apply keeps_property_quiet. exact Hinner. }
  intros result _. apply keeps_alloc_grows.
Qed.

Lemma keeps_tuple_loop_quiet (h0 : heap) (lst : list Resolve) (data : value) (index : nat) :
  Forall quiet lst -> keeps (grows_from h0) (fun _ => True) (tuple_loop lst data index).
Proof.
  intros Hlst. revert index. induction Hlst as [|inner lst Hinner _ IH]; intros index;
    cbn [tuple_loop].
  - apply keeps_ret. exact I.
  - eapply keeps_bind; [apply keeps_property_quiet; exact Hinner|]. intros value _.
    eapply keeps_bind; [apply IH|]. intros values _. apply keeps_ret. exact I.
Qed.

Lemma quiet_tuple (lst : list Resolve) : Forall quiet lst -> quiet (resolve_tuple lst).
Proof.
  intros Hlst. apply keeps_quiet. intros h0 data strict. unfold resolve_tuple.
  eapply keeps_bind; [apply keeps_get_heap|]. intros h _.
  destruct (negb (isArray h data)); [apply keeps_expected_array|].
  eapply keeps_bind; [apply keeps_tuple_loop_quiet; exact Hlst|]. intros result _.
  destruct strict; [apply keeps_alloc_grows|].
  eapply keeps_bind; [apply keeps_get_heap|]. intros h' _. apply keeps_alloc_grows.
Qed.

Lemma keeps_object_loop_quiet (h0 : heap) (dict : list (string * Resolve)) (data : value)
    (result : props) :
  Forall (fun kv => quiet (snd kv)) dict ->
  keeps (grows_from h0) (fun _ => True) (object_loop dict data result).
Proof.
  intros Hdict. revert result.
  induction Hdict as [|[key schema] dict Hschema _ IH]; intros result; cbn [object_loop].
  - apply keeps_ret. exact I.
  - eapply keeps_bind; [apply keeps_property_quiet; exact Hschema|]. intros value _.
    eapply keeps_bind; [apply keeps_in_property|]. intros present _.
    destruct (negb (isNullable value) || present); apply IH.
Qed.

(** [merge] reads and changes nothing. *)
Lemma merge_state (result : props) (data : value) (s : state) :
  exists result', merge result data s = (Ok result', s).
Proof.
  unfold merge, for_in. rewrite bind_unfold. cbn [get_heap].
  generalize (enumerable_keys (heap_of s) data) as keys. intros keys. revert result.
  induction keys as [|key keys IH]; intros result; cbn [for_in_loop].
  - eexists. reflexivity.
  - rewrite bind_unfold. cbn [has_property]. destruct (heap_has (heap_of s) data key); [|apply IH].
    rewrite bind_unfold. unfold merge_body at 1. destruct (props_in key result).
    + cbn [mret M_ret]. apply IH.
    + rewrite bind_unfold. cbn [get_property mret M_ret]. apply IH.
Qed.

Lemma quiet_object (dict : list (string * Resolve)) :
  Forall (fun kv => quiet (snd kv)) dict -> quiet (resolve_object dict).
Proof.
  intros Hdict. apply keeps_quiet. intros h0 data strict. unfold resolve_object.
  eapply keeps_bind; [apply keeps_get_heap|]. intros h _.
  destruct (negb (isObject h data)); [apply keeps_expected_object|].
  eapply keeps_bind; [apply keeps_object_loop_quiet; exact Hdict|]. intros result _.
  eapply keeps_bind with (G1 := fun _ => True).
  { destruct strict; [apply keeps_ret; exact I|].
    intros s Hs. destruct (merge_state result data s) as [result' ->]. split; [exact Hs|auto]. }
  intros result' _. apply keeps_alloc_grows.
Qed.

Lemma quiet_resolve_with (schema : Schema) (cb : Resolve) :
  quiet cb -> quiet (resolve_with schema (Some cb)).
Proof.
  intros Hcb.
  assert (Hdispatch : forall data hint s, isNullable data = false ->
    heap_of s `prefix_of` heap_of (snd (resolve_with schema (Some cb) data hint s))
    /\ forall v a, fst (resolve_with schema (Some cb) data hint s) = Ok (v, a) ->
         a = VUndefined /\ (isNullable v = true -> v = data)).
  { intros data hint s Hnull. rewrite resolve_with_dispatch by exact Hnull.
    destruct (Hcb data hint (set_current (Some schema) s)) as [Hgrow Hok].
    destruct (cb data hint (set_current (Some schema) s)) as [[[v a]|e] s'].
    - split; [exact Hgrow|]. cbn. intros v' a' [= <- <-]. exact (Hok _ _ eq_refl).
    - destruct (rewrap_throws (A := value * value) e s') as (e' & -> & _).
      split; [exact Hgrow|]. cbn. intros v' a' [=]. }
  intros data hint s. destruct (isNullable data) eqn:Hnull; [|apply Hdispatch; exact Hnull].
  rewrite resolve_with_nullable by exact Hnull.
  destruct (meta_required (meta schema)).
  { split; [reflexivity|]. cbn. intros v a [=]. }
  destruct (isNullable (fallback_of (meta schema))) eqn:Hfallback.
  { split; [reflexivity|]. cbn. intros v a [= <- <-]. auto. }
  destruct (Hdispatch (fallback_of (meta schema)) hint s Hfallback) as [Hgrow Hok].
  split; [exact Hgrow|]. intros v a Hva. destruct (Hok v a Hva) as [-> Hv].
  split; [reflexivity|]. intros Hvnull. rewrite (Hv Hvnull) in Hvnull. congruence.
Qed.

Lemma idempotent_any : idempotent resolve_any.
Proof.
  intros x hint s v a s1 H t _. injection H as <- <- <-.
  exists x, t. split; [reflexivity|apply same_refl].
Qed.

Lemma idempotent_never : idempotent resolve_never.
Proof.
  intros x hint s v a s1 H. exfalso. exact (stringify_throw_not_ok _ _ _ _ _ H).
Qed.

Lemma idempotent_const (value : value) : idempotent (resolve_const value).
Proof.
  intros x hint s v a s1 H t _. unfold resolve_const, strict_equal in *.
  case_bool_decide as Heq.
  - injection H as <- <- <-. rewrite bool_decide_eq_true_2 by reflexivity.
    exists value, t. split; [reflexivity|apply same_refl].
  - exfalso. rewrite bind_unfold in H. cbn [get_heap] in H.
    exact (stringify_throw_not_ok _ _ _ _ _ H).
Qed.

Lemma idempotent_string : idempotent resolve_string.
Proof.
  intros x hint s v a s1 H t _. unfold resolve_string in H.
  destruct x; try (exfalso; exact (stringify_throw_not_ok _ _ _ _ _ H)).
  injection H as <- <- <-. eexists _, t. split; [reflexivity|apply same_refl].
Qed.

Lemma idempotent_number : idempotent resolve_number.
Proof.
  intros x hint s v a s1 H t _. unfold resolve_number in H.
  destruct x; try (exfalso; exact (stringify_throw_not_ok _ _ _ _ _ H)).
  injection H as <- <- <-. eexists _, t. split; [reflexivity|apply same_refl].
Qed.

Lemma idempotent_boolean : idempotent resolve_boolean.
Proof.
  intros x hint s v a s1 H t _. unfold resolve_boolean in H.
  destruct x; try (exfalso; exact (stringify_throw_not_ok _ _ _ _ _ H)).
  injection H as <- <- <-. eexists _, t. split; [reflexivity|apply same_refl].
Qed.

Lemma idempotent_is (callback : Constructor) :
  (forall (h h' : heap) v, h `prefix_of` h' ->
     ctor_hasInstance callback h v = ctor_hasInstance callback h' v) ->
  idempotent (resolve_is callback).
Proof.
  intros Hstable x hint s v a s1 H t Ht. unfold resolve_is in *.
  rewrite bind_unfold in H. cbn [get_heap] in H.
  destruct (ctor_hasInstance callback (heap_of s) x) eqn:Hinst; [|discriminate].
  injection H as <- <- <-. rewrite bind_unfold. cbn [get_heap].
  rewrite <- (Hstable _ _ x Ht), Hinst.
  exists x, t. split; [reflexivity|apply same_refl].
Qed.

Lemma idempotent_resolve_with (schema : Schema) (cb : Resolve) :
  quiet cb -> idempotent cb -> idempotent (resolve_with schema (Some cb)).
Proof.
  intros Hquiet Hidem.
  assert (Hdispatch : forall d hint s v a s1, isNullable d = false ->
    resolve_with schema (Some cb) d hint s = (Ok (v, a), s1) ->
    forall t, heap_of s1 `prefix_of` heap_of t ->
      exists v' t', resolve_with schema (Some cb) v hint t = (Ok (v', VUndefined), t')
                    /\ same (heap_of t') v v').
  { intros d hint s v a s1 Hnull H t Ht. rewrite resolve_with_dispatch in H by exact Hnull.
    destruct (Hquiet d hint (set_current (Some schema) s)) as [_ Hok].
    destruct (cb d hint (set_current (Some schema) s)) as [[[v0 a0]|e] s'] eqn:Hrun.
    2:{ destruct (rewrap_throws (A := value * value) e s') as (e' & Hrw & _).
        rewrite Hrw in H. discriminate. }
    injection H as <- <- <-. destruct (Hok _ _ eq_refl) as [_ Hv].
    assert (Hvnull : isNullable v0 = false).
    { destruct (isNullable v0) eqn:E; [|reflexivity]. rewrite (Hv eq_refl) in E. congruence. }
    destruct (Hidem _ _ _ _ _ _ Hrun (set_current (Some schema) t) Ht) as (v' & t' & Hrun' & Hsame).
    exists v', (set_current (current t) t'). split; [|exact Hsame].
    rewrite resolve_with_dispatch by exact Hvnull. rewrite Hrun'. reflexivity. }
  intros x hint s v a s1 H t Ht. destruct (isNullable x) eqn:Hnull.
  2:{ exact (Hdispatch _ _ _ _ _ _ Hnull H t Ht). }
  rewrite resolve_with_nullable in H by exact Hnull.
  destruct (meta_required (meta schema)) eqn:Hreq; [discriminate|].
  destruct (isNullable (fallback_of (meta schema))) eqn:Hfallback.
  - injection H as <- <- <-. exists x, t. split; [|apply same_refl].
    rewrite resolve_with_nullable by exact Hnull. rewrite Hreq, Hfallback. reflexivity.
  - exact (Hdispatch _ _ _ _ _ _ Hfallback H t Ht).
Qed.

Lemma isArray_true (h : heap) (data : value) :
  isArray h data = true -> exists l elems, data = VRef l /\ h !! l = Some (OArr elems).
Proof.
  destruct data as [| | | | |l]; try discriminate. cbn.
  destruct (h !! l) as [[elems|entries]|] eqn:Hl; try discriminate. eauto.
Qed.

Lemma mapM_unfold {A B} (f : A -> M B) (x : A) (l : list A) (s : state) :
  mapM f (x :: l) s =
    match f x s with
    | (Ok y, s1) =>
        match mapM f l s1 with
        | (Ok ys, s2) => (Ok (y :: ys), s2)
        | (Throw e, s2) => (Throw e, s2)
        end
    | (Throw e, s1) => (Throw e, s1)
    end.
Proof.
  cbn [mapM]. rewrite bind_unfold. destruct (f x s) as [[y|e] s1]; [|reflexivity].
  rewrite bind_unfold. destruct (mapM f l s1) as [[ys|e] s2]; reflexivity.
Qed.

Lemma mapM_length {A B} (f : A -> M B) (l : list A) (s s' : state) (ys : list B) :
  mapM f l s = (Ok ys, s') -> length ys = length l.
Proof.
  revert s ys. induction l as [|x l IH]; intros s ys H.
  - cbv [mapM mret M_ret] in H. injection H as <- <-. reflexivity.
  - rewrite mapM_unfold in H. destruct (f x s) as [[y|e] s1]; [|discriminate].
    destruct (mapM f l s1) as [[ys0|e] s2] eqn:Hrest; [|discriminate].
    injection H as <- <-. cbn. f_equal. eapply IH. exact Hrest.
Qed.

(** Resolving again the array that [resolve_array] built: each element is
    resolved again. *)
Lemma array_again (inner : Resolve) (ld a1 : loc) :
  quiet inner -> idempotent inner ->
  forall (m k : nat) (s : state) (vs : list value) (s_n : state),
    mapM (fun index => property (VRef ld) (KIdx index) inner) (seq k m) s = (Ok vs, s_n) ->
    forall (t : state) (ws : list value),
      heap_of s_n `prefix_of` heap_of t ->
      heap_of t !! a1 = Some (OArr ws) ->
      (forall j, j < m -> ws !! (k + j) = vs !! j) ->
      exists vs' t',
        mapM (fun index => property (VRef a1) (KIdx index) inner) (seq k m) t = (Ok vs', t')
        /\ heap_of t `prefix_of` heap_of t'
        /\ Forall2 (same (heap_of t')) vs vs'.
Proof.
  intros Hquiet Hidem. induction m as [|m IH]; intros k s vs s_n H t ws Ht Ha1 Hws.
  - cbv [seq mapM mret M_ret] in H. injection H as <- <-.
    exists [], t. repeat split; [reflexivity|constructor].
  - cbn [seq] in *. rewrite mapM_unfold in H. rewrite property_quiet in H by exact Hquiet.
    destruct (inner (heap_read (heap_of s) (VRef ld) (KIdx k)) false s)
      as [[[v_k a_k]|e] s1] eqn:Hin; [|discriminate].
    cbn [fst] in H.
    destruct (mapM (fun index => property (VRef ld) (KIdx index) inner) (seq (S k) m) s1)
      as [[vs_r|e] s2] eqn:Hrest; [|discriminate].
    injection H as <- <-.
    assert (Hgrow1 : heap_of s1 `prefix_of` heap_of s2).
    { assert (Hk : keeps (grows_from (heap_of s1)) (Forall (fun _ => True))
                     (mapM (fun index => property (VRef ld) (KIdx index) inner) (seq (S k) m))).
      { apply keeps_mapM. intros index. apply keeps_property_quiet. exact Hquiet. }
      destruct (Hk s1 (grows_from_refl s1)) as [Hg _]. rewrite Hrest in Hg. exact Hg. }
    assert (Hread : heap_read (heap_of t) (VRef a1) (KIdx k) = v_k).
    { cbn [heap_read]. rewrite Ha1. cbn [obj_read].
      specialize (Hws 0 ltac:(lia)). rewrite Nat.add_0_r in Hws. rewrite Hws. reflexivity. }
    destruct (Hidem _ _ _ _ _ _ Hin t) as (v_k' & t1 & Hagain & Hsame).
    { etrans; [exact Hgrow1|exact Ht]. }
    destruct (Hquiet v_k false t) as [Hgrow_t _]. rewrite Hagain in Hgrow_t. cbn [snd] in Hgrow_t.
    destruct (IH (S k) s1 vs_r s2 Hrest t1 ws) as (vs_r' & t' & Hloop & Hgrow' & Hall).
    { etrans; [exact Ht|exact Hgrow_t]. }
    { eapply prefix_lookup_Some; eassumption. }
    { intros j Hj. specialize (Hws (S j) ltac:(lia)).
      replace (S k + j) with (k + S j) by lia. rewrite Hws. reflexivity. }
    exists (v_k' :: vs_r'), t'. split; [|split].
    + rewrite mapM_unfold, property_quiet by exact Hquiet. rewrite Hread, Hagain.
      cbn [fst]. rewrite Hloop. reflexivity.
    + etrans; eassumption.
    + constructor; [|exact Hall]. eapply same_grows; eassumption.
Qed.

Lemma idempotent_array (inner : Resolve) :
  quiet inner -> idempotent inner -> idempotent (resolve_array inner).
Proof.
  intros Hquiet Hidem x hint s v a s1 H t Ht. unfold resolve_array in H.
  rewrite bind_unfold in H. cbn [get_heap] in H.
  destruct (isArray (heap_of s) x) eqn:Harr; cbn [negb] in H.
  2:{ destruct (expected_array_throws (A := value * value) x s) as [e He].
      rewrite He in H. discriminate. }
  apply isArray_true in Harr as (ld & elems & -> & Hld).
  rewrite bind_unfold in H. cbn [elements] in H. rewrite Hld in H.
  destruct (mapM (fun index => property (VRef ld) (KIdx index) inner)
              (seq 0 (length elems)) s) as [[vs|e] s_n] eqn:Hloop; [|discriminate].
  cbn in H. injection H as <- <- <-. cbn [heap_of set_heap] in Ht.
  set (a1 := length (heap_of s_n)) in *.
  assert (Ha1 : heap_of t !! a1 = Some (OArr vs)).
  { eapply prefix_lookup_Some; [|exact Ht]. unfold a1.
    rewrite lookup_app_r by lia. rewrite Nat.sub_diag. reflexivity. }
  assert (Hlen : length vs = length elems).
  { rewrite (mapM_length _ _ _ _ _ Hloop). apply length_seq. }
  destruct (array_again inner ld a1 Hquiet Hidem _ _ _ _ _ Hloop t vs)
    as (vs' & t' & Hloop' & Hgrow' & Hall).
  { etrans; [|exact Ht]. apply prefix_app_r. reflexivity. }
  { exact Ha1. }
  { intros j _. reflexivity. }
  exists (VRef (length (heap_of t'))), (set_heap (heap_of t' ++ [OArr vs'])%list t').
  split.
  - unfold resolve_array. rewrite bind_unfold. cbn [get_heap isArray elements].
    rewrite Ha1. cbn [negb]. rewrite bind_unfold, Hlen, Hloop'. reflexivity.
  - cbn [heap_of set_heap]. eapply same_array.
    + apply lookup_app_l_Some. eapply prefix_lookup_Some; eassumption.
    + rewrite lookup_app_r by lia. rewrite Nat.sub_diag. reflexivity.
    + eapply list.Forall2_impl; [exact Hall|]. intros y y' Hy.
      eapply same_grows; [|exact Hy]. apply prefix_app_r. reflexivity.
Qed.

Lemma tuple_loop_unfold (inner : Resolve) (lst : list Resolve) (data : value) (index : nat)
    (s : state) :
  quiet inner ->
  tuple_loop (inner :: lst) data index s =
    match inner (heap_read (heap_of s) data (KIdx index)) false s with
    | (Ok va, s1) =>
        match tuple_loop lst data (S index) s1 with
        | (Ok values, s2) => (Ok (fst va :: values), s2)
        | (Throw e, s2) => (Throw e, s2)
        end
    | (Throw e, s1) => (Throw e, s1)
    end.
Proof.
  intros Hquiet. cbn [tuple_loop]. rewrite bind_unfold, property_quiet by exact Hquiet.
  destruct (inner (heap_read (heap_of s) data (KIdx index)) false s) as [[va|e] s1];
    [|reflexivity].
  rewrite bind_unfold. destruct (tuple_loop lst data (S index) s1) as [[values|e] s2];
    reflexivity.
Qed.

Lemma tuple_loop_length (lst : list Resolve) (data : value) (index : nat) (s s' : state)
    (vs : list value) :
  tuple_loop lst data index s = (Ok vs, s') -> length vs = length lst.
Proof.
  revert index s vs. induction lst as [|inner lst IH]; intros index s vs H.
  - cbv [tuple_loop mret M_ret] in H. injection H as <- <-. reflexivity.
  - cbn [tuple_loop] in H. rewrite bind_unfold in H.
    destruct (property data (KIdx index) inner s) as [[value|e] s1]; [|discriminate].
    rewrite bind_unfold in H.
    destruct (tuple_loop lst data (S index) s1) as [[values|e] s2] eqn:Hrest; [|discriminate].
    cbv [mret M_ret] in H. injection H as <- <-. cbn. f_equal. eapply IH. exact Hrest.
Qed.

Lemma tuple_again (ld a1 : loc) (lst : list Resolve) :
  Forall quiet lst -> Forall idempotent lst ->
  forall (k : nat) (s : state) (vs : list value) (s_n : state),
    tuple_loop lst (VRef ld) k s = (Ok vs, s_n) ->
    forall (t : state) (ws : list value),
      heap_of s_n `prefix_of` heap_of t ->
      heap_of t !! a1 = Some (OArr ws) ->
      (forall j, j < length lst -> ws !! (k + j) = vs !! j) ->
      exists vs' t',
        tuple_loop lst (VRef a1) k t = (Ok vs', t')
        /\ heap_of t `prefix_of` heap_of t'
        /\ Forall2 (same (heap_of t')) vs vs'.
Proof.
  intros Hquiet. induction Hquiet as [|inner lst Hq Hquiet IH]; intros Hidem k s vs s_n H t ws
    Ht Ha1 Hws.
  - cbv [tuple_loop mret M_ret] in H. injection H as <- <-.
    exists [], t. repeat split; [reflexivity|constructor].
  - inversion Hidem as [|? ? Hi Hidem']; subst.
    rewrite tuple_loop_unfold in H by exact Hq.
    destruct (inner (heap_read (heap_of s) (VRef ld) (KIdx k)) false s)
      as [[[v_k a_k]|e] s1] eqn:Hin; [|discriminate].
    cbn [fst] in H.
    destruct (tuple_loop lst (VRef ld) (S k) s1) as [[vs_r|e] s2] eqn:Hrest; [|discriminate].
    injection H as <- <-.
    assert (Hgrow1 : heap_of s1 `prefix_of` heap_of s2).
    { destruct (keeps_tuple_loop_quiet (heap_of s1) lst (VRef ld) (S k) Hquiet s1
                  (grows_from_refl s1)) as [Hg _]. rewrite Hrest in Hg. exact Hg. }
    assert (Hread : heap_read (heap_of t) (VRef a1) (KIdx k) = v_k).
    { cbn [heap_read]. rewrite Ha1. cbn [obj_read].
      specialize (Hws 0 ltac:(cbn; lia)). rewrite Nat.add_0_r in Hws. rewrite Hws. reflexivity. }
    destruct (Hi _ _ _ _ _ _ Hin t) as (v_k' & t1 & Hagain & Hsame).
    { etrans; [exact Hgrow1|exact Ht]. }
    destruct (Hq v_k false t) as [Hgrow_t _]. rewrite Hagain in Hgrow_t. cbn [snd] in Hgrow_t.
    destruct (IH Hidem' (S k) s1 vs_r s2 Hrest t1 ws) as (vs_r' & t' & Hloop & Hgrow' & Hall).
    { etrans; [exact Ht|exact Hgrow_t]. }
    { eapply prefix_lookup_Some; eassumption. }
    { intros j Hj. specialize (Hws (S j) ltac:(cbn; lia)).
      replace (S k + j) with (k + S j) by lia. rewrite Hws. reflexivity. }
    exists (v_k' :: vs_r'), t'. split; [|split].
    + rewrite tuple_loop_unfold by exact Hq. rewrite Hread, Hagain.
      cbn [fst]. rewrite Hloop. reflexivity.
    + etrans; eassumption.
    + constructor; [|exact Hall]. eapply same_grows; eassumption.
Qed.

Lemma Forall2_same_refl (h : heap) (vs : list value) : Forall2 (same h) vs vs.
Proof. induction vs; constructor; [apply same_refl|assumption]. Qed.

Lemma idempotent_tuple (lst : list Resolve) :
  Forall quiet lst -> Forall idempotent lst -> idempotent (resolve_tuple lst).
Proof.
  intros Hquiet Hidem x strict s v a s1 H t Ht. unfold resolve_tuple in H.
  rewrite bind_unfold in H. cbn [get_heap] in H.
  destruct (isArray (heap_of s) x) eqn:Harr; cbn [negb] in H.
  2:{ destruct (expected_array_throws (A := value * value) x s) as [e He].
      rewrite He in H. discriminate. }
  apply isArray_true in Harr as (ld & elems & -> & Hld).
  rewrite bind_unfold in H.
  destruct (tuple_loop lst (VRef ld) 0 s) as [[vs|e] s_n] eqn:Hloop; [|discriminate].
  pose proof (tuple_loop_length _ _ _ _ _ _ Hloop) as Hlen.
  set (rest := drop (length lst) (elements (heap_of s_n) (VRef ld))) in *.
  set (ws := if strict then vs else (vs ++ rest)%list).
  assert (Hs1 : v = VRef (length (heap_of s_n)) /\ a = VUndefined
                /\ heap_of s1 = (heap_of s_n ++ [OArr ws])%list).
  { unfold ws. destruct strict; cbn in H; injection H as <- <- <-; auto. }
  destruct Hs1 as (-> & -> & Hs1). rewrite Hs1 in Ht. clear H.
  set (a1 := length (heap_of s_n)) in *.
  assert (Ha1 : heap_of t !! a1 = Some (OArr ws)).
  { eapply prefix_lookup_Some; [|exact Ht]. unfold a1.
    rewrite lookup_app_r by lia. rewrite Nat.sub_diag. reflexivity. }
  destruct (tuple_again ld a1 lst Hquiet Hidem _ _ _ _ Hloop t ws)
    as (vs' & t' & Hloop' & Hgrow' & Hall).
  { etrans; [|exact Ht]. apply prefix_app_r. reflexivity. }
  { exact Ha1. }
  { intros j Hj. unfold ws. destruct strict; [reflexivity|].
    cbn. apply lookup_app_l. lia. }
  set (ws' := if strict then vs' else (vs' ++ rest)%list).
  exists (VRef (length (heap_of t'))), (set_heap (heap_of t' ++ [OArr ws'])%list t').
  assert (Ha1' : heap_of t' !! a1 = Some (OArr ws)).
  { eapply prefix_lookup_Some; eassumption. }
  split.
  - unfold resolve_tuple. rewrite bind_unfold. cbn [get_heap isArray].
    rewrite Ha1. cbn [negb]. rewrite bind_unfold, Hloop'. unfold ws'.
    destruct strict; [reflexivity|]. rewrite bind_unfold. cbn [get_heap elements].
    rewrite Ha1'. unfold ws. rewrite <- Hlen, drop_app_length. reflexivity.
  - cbn [heap_of set_heap]. eapply same_array.
    + apply lookup_app_l_Some. exact Ha1'.
    + rewrite lookup_app_r by lia. rewrite Nat.sub_diag. reflexivity.
    + assert (Hall' : Forall2 (same (heap_of t' ++ [OArr ws'])%list) vs vs').
      { eapply list.Forall2_impl; [exact Hall|]. intros y y' Hy.
        eapply same_grows; [|exact Hy]. apply prefix_app_r. reflexivity. }
      unfold ws, ws'. destruct strict; [exact Hall'|].
      apply Forall2_app; [exact Hall'|apply Forall2_same_refl].
Qed.

Lemma object_loop_unfold (key : string) (schema : Resolve) (dict : list (string * Resolve))
    (data : value) (acc : props) (s : state) :
  quiet schema ->
  object_loop ((key, schema) :: dict) data acc s =
    match schema (heap_read (heap_of s) data (KStr key)) false s with
    | (Ok va, s1) =>
        object_loop dict data
          (if negb (isNullable (fst va)) || heap_in (heap_of s1) data key
           then props_put key (fst va) acc else acc) s1
    | (Throw e, s1) => (Throw e, s1)
    end.
Proof.
  intros Hquiet. cbn [object_loop]. rewrite bind_unfold, property_quiet by exact Hquiet.
  destruct (schema (heap_read (heap_of s) data (KStr key)) false s) as [[va|e] s1];
    [|reflexivity].
  rewrite bind_unfold. cbn [in_property].
  destruct (negb (isNullable (fst va)) || heap_in (heap_of s1) data key); reflexivity.
Qed.

Lemma heap_in_object (h : heap) (l : loc) (entries : props) (key : string) :
  h !! l = Some (OObj entries) ->
  heap_in h (VRef l) key = props_has key entries || inherited key.
Proof. intros Hl. unfold heap_in. cbn. rewrite Hl. reflexivity. Qed.

Lemma object_loop_keeps (dict : list (string * Resolve)) (data : value)
    (acc result : props) (s s' : state) (key : string) :
  object_loop dict data acc s = (Ok result, s') ->
  props_get key acc <> None -> props_get key result <> None.
Proof.
  revert acc s. induction dict as [|[k schema] dict IH]; intros acc s Hloop Hkey.
  - cbv [object_loop mret M_ret] in Hloop. congruence.
  - cbn [object_loop] in Hloop. rewrite bind_unfold in Hloop.
    destruct (property data (KStr k) schema s) as [[value|e] s1]; [|discriminate].
    rewrite bind_unfold in Hloop. cbn [in_property] in Hloop.
    destruct (negb (isNullable value) || heap_in (heap_of s1) data k).
    + eapply IH; [exact Hloop|]. destruct (decide (k = key)) as [->|Hne].
      * rewrite props_put_own by (apply props_has_get; destruct (props_get key acc); eauto; congruence).
        rewrite props_get_set_eq. discriminate.
      * rewrite props_get_put_ne by exact Hne. exact Hkey.
    + eapply IH; eassumption.
Qed.

(** A declared field that the loop leaves out of the result is not a
    property of the input. *)
Lemma object_first (ld : loc) (D : props) (dict : list (string * Resolve)) :
  Forall (fun kv => quiet (snd kv)) dict ->
  "__proto__" ∉ map fst dict ->
  forall (acc result : props) (s s_n : state),
    heap_of s !! ld = Some (OObj D) ->
    object_loop dict (VRef ld) acc s = (Ok result, s_n) ->
    forall key, key ∈ map fst dict -> props_get key result = None ->
      props_get key D = None /\ inherited key = false.
Proof.
  induction 1 as [|[k schema] dict Hq _ IH];
    intros Hproto acc result s s_n Hld Hloop key Hkey Hnone.
  - exfalso. eapply not_elem_of_nil. exact Hkey.
  - cbn [map fst] in Hproto. apply not_elem_of_cons in Hproto as [Hk_proto Hproto].
    cbn [snd] in Hq. rewrite object_loop_unfold in Hloop by exact Hq.
    destruct (Hq (heap_read (heap_of s) (VRef ld) (KStr k)) false s) as [Hgrow _].
    destruct (schema (heap_read (heap_of s) (VRef ld) (KStr k)) false s)
      as [[va|e] s1]; [|discriminate].
    cbn [snd] in Hgrow.
    assert (Hld1 : heap_of s1 !! ld = Some (OObj D))
      by (eapply prefix_lookup_Some; eassumption).
    rewrite (heap_in_object _ _ _ _ Hld1) in Hloop.
    destruct (decide (key = k)) as [->|Hne].
    + destruct (negb (isNullable (fst va)) || (props_has k D || inherited k)) eqn:Hincl.
      * exfalso. eapply (object_loop_keeps _ _ _ _ _ _ k Hloop); [|exact Hnone].
        rewrite props_put_set by congruence. rewrite props_get_set_eq. discriminate.
      * apply orb_false_iff in Hincl as [_ Hpresent].
        apply orb_false_iff in Hpresent as [Hpresent Hinh].
        split; [apply props_has_false; exact Hpresent|exact Hinh].
    + cbn [map fst] in Hkey. apply elem_of_cons in Hkey as [?|Hkey]; [congruence|].
      eapply IH; eassumption.
Qed.

Lemma option_same_refl (h : heap) (o : option value) : option_Forall2 (same h) o o.
Proof. destruct o; constructor. apply same_refl. Qed.

Lemma option_same_grows (h h' : heap) (o o' : option value) :
  h `prefix_of` h' -> option_Forall2 (same h) o o' -> option_Forall2 (same h') o o'.
Proof. intros Hgrow [x y Hxy|]; constructor. eapply same_grows; eassumption. Qed.

Lemma option_same_set (h : heap) (k key : string) (v v' : value) (acc acc2 : props) :
  same h v v' ->
  option_Forall2 (same h) (props_get key acc) (props_get key acc2) ->
  option_Forall2 (same h) (props_get key (props_set k v acc))
                          (props_get key (props_set k v' acc2)).
Proof.
  intros Hv Hacc. destruct (decide (k = key)) as [->|Hne].
  - rewrite !props_get_set_eq. constructor. exact Hv.
  - rewrite !props_get_set_ne by exact Hne. exact Hacc.
Qed.

(** Resolving again the object that [resolve_object] built: each declared
    field is resolved again, from the value the first resolution gave it. *)
Lemma object_again (ld a1 : loc) (D E : props) (dict : list (string * Resolve)) :
  Forall (fun kv => quiet (snd kv)) dict ->
  Forall (fun kv => idempotent (snd kv)) dict ->
  NoDup (map fst dict) ->
  "__proto__" ∉ map fst dict ->
  forall (acc result : props) (s s_n : state),
    heap_of s !! ld = Some (OObj D) ->
    object_loop dict (VRef ld) acc s = (Ok result, s_n) ->
    forall (t : state) (acc2 : props),
      heap_of s_n `prefix_of` heap_of t ->
      heap_of t !! a1 = Some (OObj E) ->
      (forall key, key ∈ map fst dict -> props_get key E = props_get key result) ->
      (forall key, key ∈ map fst dict -> props_get key acc = None) ->
      (forall key, option_Forall2 (same (heap_of t)) (props_get key acc) (props_get key acc2)) ->
      exists result2 t',
        object_loop dict (VRef a1) acc2 t = (Ok result2, t')
        /\ heap_of t `prefix_of` heap_of t'
        /\ forall key,
             option_Forall2 (same (heap_of t')) (props_get key result) (props_get key result2).
Proof.
  intros Hquiet. induction Hquiet as [|[k schema] dict Hq Hquiet IH];
    intros Hidem Hnodup Hproto acc result s s_n Hld Hloop t acc2 Ht Ha1 HE Hacc Hrel.
  - cbv [object_loop mret M_ret] in Hloop. injection Hloop as <- <-.
    exists acc2, t. repeat split; [reflexivity|exact Hrel].
  - inversion Hidem as [|? ? Hi Hidem']; subst. cbn [snd] in Hq, Hi.
    cbn [map fst] in Hnodup. apply list.NoDup_cons in Hnodup as [Hk Hnodup].
    cbn [map fst] in Hproto. apply not_elem_of_cons in Hproto as [Hk_proto Hproto].
    assert (Hk_put : forall w ps, props_put k w ps = props_set k w ps)
      by (intros w ps; apply props_put_set; congruence).
    rewrite object_loop_unfold in Hloop by exact Hq.
    destruct (Hq (heap_read (heap_of s) (VRef ld) (KStr k)) false s) as [Hgrow1 Hok1].
    destruct (schema (heap_read (heap_of s) (VRef ld) (KStr k)) false s)
      as [[[v_k a_k]|e] s1] eqn:Hin; [|discriminate].
    cbn [fst snd] in *. destruct (Hok1 _ _ eq_refl) as [_ Hvnull].
    assert (Hld1 : heap_of s1 !! ld = Some (OObj D))
      by (eapply prefix_lookup_Some; eassumption).
    rewrite (heap_in_object _ _ _ _ Hld1), Hk_put in Hloop.
    set (incl := negb (isNullable v_k) || (props_has k D || inherited k)) in *.
    assert (Hgrow_n : heap_of s1 `prefix_of` heap_of s_n).
    { destruct (keeps_object_loop_quiet (heap_of s1) dict (VRef ld)
                  (if incl then props_set k v_k acc else acc) Hquiet s1 (grows_from_refl s1))
        as [Hg _]. rewrite Hloop in Hg. exact Hg. }
    assert (Hresult_k : props_get k result = if incl then Some v_k else None).
    { rewrite (object_loop_undeclared _ _ _ _ _ _ k Hloop Hk).
      destruct incl; [apply props_get_set_eq|]. apply Hacc. left. }
    assert (Hread : heap_read (heap_of t) (VRef a1) (KStr k) = v_k).
    { cbn [heap_read]. rewrite Ha1. cbn [obj_read pkey_string]. unfold props_read.
      rewrite (HE k) by left. rewrite Hresult_k. destruct incl eqn:Hincl; [reflexivity|].
      apply orb_false_iff in Hincl as [Hnull Hpresent]. apply negb_false_iff in Hnull.
      apply orb_false_iff in Hpresent as [Hpresent _].
      rewrite (Hvnull Hnull). cbn [heap_read]. rewrite Hld. cbn [obj_read pkey_string].
      unfold props_read. apply props_has_false in Hpresent. rewrite Hpresent. reflexivity. }
    destruct (Hi _ _ _ _ _ _ Hin t) as (v_k' & t1 & Hagain & Hsame).
    { etrans; [exact Hgrow_n|exact Ht]. }
    destruct (Hq v_k false t) as [Hgrow_t _]. rewrite Hagain in Hgrow_t. cbn [snd] in Hgrow_t.
    assert (Ha1' : heap_of t1 !! a1 = Some (OObj E))
      by (eapply prefix_lookup_Some; eassumption).
    assert (Hincl2 : negb (isNullable v_k') || (props_has k E || inherited k) = incl).
    { unfold props_has. rewrite (HE k) by left. rewrite Hresult_k.
      destruct incl eqn:Hincl; [apply orb_true_r|].
      apply orb_false_iff in Hincl as [Hnull Hpresent]. apply negb_false_iff in Hnull.
      apply orb_false_iff in Hpresent as [Hpresent Hinh]. rewrite Hinh.
      assert (v_k = VUndefined) as ->.
      { rewrite (Hvnull Hnull). cbn [heap_read]. rewrite Hld. cbn [obj_read pkey_string].
        unfold props_read. apply props_has_false in Hpresent. rewrite Hpresent. reflexivity. }
      rewrite (same_undefined _ _ Hsame). reflexivity. }
    destruct (IH Hidem' Hnodup Hproto _ _ _ _ Hld1 Hloop t1
                (if incl then props_set k v_k' acc2 else acc2))
      as (result2 & t' & Hloop' & Hgrow' & Hfinal).
    { etrans; [exact Ht|exact Hgrow_t]. }
    { exact Ha1'. }
    { intros key Hkey. apply HE. right. exact Hkey. }
    { intros key Hkey. assert (k <> key) by (intros ->; contradiction).
      destruct incl; [rewrite props_get_set_ne by assumption|]; apply Hacc; right; exact Hkey. }
    { intros key. destruct incl.
      - apply option_same_set; [exact Hsame|].
        eapply option_same_grows; [exact Hgrow_t|apply Hrel].
      - eapply option_same_grows; [exact Hgrow_t|apply Hrel]. }
    exists result2, t'. split; [|split].
    + rewrite object_loop_unfold by exact Hq. rewrite Hread, Hagain. cbn [fst].
      rewrite (heap_in_object _ _ _ _ Ha1'), Hincl2, Hk_put. exact Hloop'.
    + etrans; eassumption.
    + exact Hfinal.
Qed.

Lemma idempotent_object (dict : list (string * Resolve)) :
  Forall (fun kv => quiet (snd kv)) dict ->
  Forall (fun kv => idempotent (snd kv)) dict ->
  NoDup (map fst dict) ->
  "__proto__" ∉ map fst dict ->
  idempotent (resolve_object dict).
Proof.
  intros Hquiet Hidem Hnodup Hproto x strict s v a s1 H t Ht. unfold resolve_object in H.
  rewrite bind_unfold in H. cbn [get_heap] in H.
  destruct (isObject (heap_of s) x) eqn:Hobj; cbn [negb] in H.
  2:{ destruct (expected_object_throws (A := value * value) x s) as [e He].
      rewrite He in H. discriminate. }
  apply isObject_true in Hobj as (ld & D & -> & Hld).
  rewrite bind_unfold in H.
  destruct (object_loop dict (VRef ld) [] s) as [[result|e] s_n] eqn:Hloop; [|discriminate].
  assert (Hld_n : heap_of s_n !! ld = Some (OObj D)).
  { destruct (keeps_object_loop_quiet (heap_of s) dict (VRef ld) [] Hquiet s
                (grows_from_refl s)) as [Hg _]. rewrite Hloop in Hg.
    unfold grows_from in Hg. cbn [snd] in Hg. eapply prefix_lookup_Some; eassumption. }
  rewrite bind_unfold in H.
  assert (Hfirst : exists E,
            (if strict then mret result else merge result (VRef ld)) s_n = (Ok E, s_n)
            /\ forall key, props_get key E =
                 match props_get key result with
                 | Some w => Some w
                 | None => if strict || inherited key then None else props_get key D
                 end).
  { destruct strict.
    - exists result. split; [reflexivity|]. intros key. destruct (props_get key result); reflexivity.
    - exact (merge_object ld D result s_n Hld_n). }
  destruct Hfirst as (E & HE & HgetE). rewrite HE in H. cbn in H. injection H as <- <- <-.
  cbn [heap_of set_heap] in Ht. set (a1 := length (heap_of s_n)) in *.
  assert (Ha1 : heap_of t !! a1 = Some (OObj E)).
  { eapply prefix_lookup_Some; [|exact Ht]. unfold a1.
    rewrite lookup_app_r by lia. rewrite Nat.sub_diag. reflexivity. }
  destruct (object_again ld a1 D E dict Hquiet Hidem Hnodup Hproto [] result s s_n Hld Hloop t [])
    as (result2 & t' & Hloop' & Hgrow' & Hrel).
  { etrans; [|exact Ht]. apply prefix_app_r. reflexivity. }
  { exact Ha1. }
  { intros key Hkey. rewrite HgetE. destruct (props_get key result) eqn:Hres; [reflexivity|].
    destruct strict; [reflexivity|].
    destruct (object_first ld D dict Hquiet Hproto [] result s s_n Hld Hloop key Hkey Hres)
      as [-> ->]. reflexivity. }
  { reflexivity. }
  { intros key. constructor. }
  assert (Ha1' : heap_of t' !! a1 = Some (OObj E))
    by (eapply prefix_lookup_Some; eassumption).
  assert (Hsecond : exists E2,
            (if strict then mret result2 else merge result2 (VRef a1)) t' = (Ok E2, t')
            /\ forall key, props_get key E2 =
                 match props_get key result2 with
                 | Some w => Some w
                 | None => if strict || inherited key then None else props_get key E
                 end).
  { destruct strict.
    - exists result2. split; [reflexivity|]. intros key.
      destruct (props_get key result2); reflexivity.
    - exact (merge_object a1 E result2 t' Ha1'). }
  destruct Hsecond as (E2 & HE2 & HgetE2).
  exists (VRef (length (heap_of t'))), (set_heap (heap_of t' ++ [OObj E2])%list t').
  split.
  - unfold resolve_object. rewrite bind_unfold. cbn [get_heap isObject].
    rewrite Ha1. cbn [negb]. rewrite bind_unfold, Hloop', bind_unfold, HE2. reflexivity.
  - cbn [heap_of set_heap]. eapply same_object.
    + apply lookup_app_l_Some. exact Ha1'.
    + rewrite lookup_app_r by lia. rewrite Nat.sub_diag. reflexivity.
    + intros key. rewrite HgetE, HgetE2.
      pose proof (Hrel key) as Hkey.
      destruct (props_get key result) as [w|] eqn:Hr1,
               (props_get key result2) as [w2|] eqn:Hr2; inversion Hkey; subst.
      * constructor. eapply same_grows; [|eassumption]. apply prefix_app_r. reflexivity.
      * destruct strict; [constructor|]. cbn [orb].
        destruct (inherited key) eqn:Hinh; [constructor|].
        rewrite HgetE, Hr1. cbn [orb]. rewrite Hinh. apply option_same_refl.
Qed.

Lemma Forall_plain_resolve (lst : list Schema) :
  Forall (fun x => plain x ->
            quiet (resolve_schema x) /\ idempotent (resolve_schema x)) lst ->
  fold_right (fun x acc => plain x /\ acc) True lst ->
  Forall quiet (map resolve_schema lst) /\ Forall idempotent (map resolve_schema lst).
Proof.
  induction 1 as [|x lst Hx _ IH]; cbn [fold_right map]; [split; constructor|].
  intros [Hplain Hrest]. destruct (Hx Hplain) as [Hq Hi]. destruct (IH Hrest) as [Hqs His].
  split; constructor; assumption.
Qed.

Lemma Forall_plain_fields (dict : list (string * Schema)) :
  Forall (fun kv => plain (snd kv) ->
            quiet (resolve_schema (snd kv)) /\ idempotent (resolve_schema (snd kv))) dict ->
  fold_right (fun kv acc => plain (snd kv) /\ acc) True dict ->
  Forall (fun kv => quiet (snd kv)) (map (fun kv => (fst kv, resolve_schema (snd kv))) dict)
  /\ Forall (fun kv => idempotent (snd kv))
       (map (fun kv => (fst kv, resolve_schema (snd kv))) dict).
Proof.
  induction 1 as [|kv dict Hkv _ IH]; cbn [fold_right map]; [split; constructor|].
  intros [Hplain Hrest]. destruct (Hkv Hplain) as [Hq Hi]. destruct (IH Hrest) as [Hqs His].
  split; constructor; assumption.
Qed.

Lemma plain_quiet_idempotent (schema : Schema) :
  plain schema -> quiet (resolve_schema schema) /\ idempotent (resolve_schema schema).
Proof.
  induction schema using Schema_ind; intros Hplain; cbn [resolve_schema plain] in *;
    try contradiction.
  - split; [apply quiet_resolve_with|apply idempotent_resolve_with];
      auto using quiet_any, idempotent_any.
  - split; [apply quiet_resolve_with|apply idempotent_resolve_with];
      auto using quiet_never, idempotent_never.
  - split; [apply quiet_resolve_with|apply idempotent_resolve_with];
      auto using quiet_const, idempotent_const.
  - split; [apply quiet_resolve_with|apply idempotent_resolve_with];
      auto using quiet_string, idempotent_string.
  - split; [apply quiet_resolve_with|apply idempotent_resolve_with];
      auto using quiet_number, idempotent_number.
  - split; [apply quiet_resolve_with|apply idempotent_resolve_with];
      auto using quiet_boolean, idempotent_boolean.
  - split; [apply quiet_resolve_with|apply idempotent_resolve_with];
      auto using quiet_is, idempotent_is.
  - destruct (IHschema Hplain) as [Hq Hi].
    split; [apply quiet_resolve_with|apply idempotent_resolve_with];
      auto using quiet_array, idempotent_array.
  - destruct (Forall_plain_resolve lst H Hplain) as [Hq Hi].
    split; [apply quiet_resolve_with|apply idempotent_resolve_with];
      auto using quiet_tuple, idempotent_tuple.
  - destruct Hplain as (Hnodup & Hproto & Hplain).
    destruct (Forall_plain_fields dict H Hplain) as [Hq Hi].
    assert (Hkeys : NoDup (map fst (map (fun kv => (fst kv, resolve_schema (snd kv))) dict))).
    { rewrite map_map. exact Hnodup. }
    assert (Hnames : "__proto__" ∉ map fst (map (fun kv => (fst kv, resolve_schema (snd kv))) dict)).
    { rewrite map_map. exact Hproto. }
    split; [apply quiet_resolve_with|apply idempotent_resolve_with];
      auto using quiet_object, idempotent_object.
Qed.

(** C4 (amended). For a schema made of the kinds any, never, const, string,
    number, boolean, is, array, tuple and object, no object of which
    declares a field [__proto__], and an input it resolves, resolving the
    resolved value again succeeds and returns the same data: the same
    value, or a container with the same data in it. *)
Theorem plain_resolve_idempotent (schema : Schema) (x : value) (hint : bool)
    (s s1 : state) (v a : value) :
  plain schema ->
  resolve x (Some schema) hint s = (Ok (v, a), s1) ->
  exists v' s2,
    resolve v (Some schema) hint s1 = (Ok (v', VUndefined), s2)
    /\ same (heap_of s2) v v'.
Proof.
  intros Hplain H. destruct (plain_quiet_idempotent schema Hplain) as [_ Hidem].
  exact (Hidem x hint s v a s1 H s1 (reflexivity _)).
Qed.

Lemma plain_resolve_idempotent_witness :
  resolve (VRef 1) (Some object_a_b) false (initial input_a_b_c)
  = (Ok (VRef 3, VUndefined),
     initial (input_a_b_c ++ [OArr [VStr "d"];
                              OObj [("a", VNum 1); ("b", VRef 2); ("c", VBool true)]]))
  /\ exists v' s2,
       resolve (VRef 3) (Some object_a_b) false
         (initial (input_a_b_c ++ [OArr [VStr "d"];
                                   OObj [("a", VNum 1); ("b", VRef 2); ("c", VBool true)]]))
       = (Ok (v', VUndefined), s2)
       /\ same (heap_of s2) (VRef 3) v'.
Proof.
  split; [reflexivity|].
  apply (plain_resolve_idempotent object_a_b (VRef 1) false (initial input_a_b_c)
           _ (VRef 3) VUndefined).
  - cbn. repeat split.
    + apply (bool_decide_unpack (NoDup ["a"; "b"])). reflexivity.
    + apply (bool_decide_unpack ("__proto__" ∉ ["a"; "b"])). reflexivity.
  - reflexivity.
Defined.

(** An object that declares a field [__proto__]: the result never gets a
    property of that name, so a field that is required is missing when the
    result is resolved again. *)
Lemma proto_field_not_idempotent :
  resolve (VRef 0) (Some (Sobject [("__proto__", required Schema.number)] empty_meta)) false
    (initial [OObj [("__proto__", VNum 5)]])
  = (Ok (VRef 1, VUndefined), initial [OObj [("__proto__", VNum 5)]; OObj []])
  /\ exists e s',
       resolve (VRef 1) (Some (Sobject [("__proto__", required Schema.number)] empty_meta)) false
         (initial [OObj [("__proto__", VNum 5)]; OObj []]) = (Throw e, s').
Proof. split; [reflexivity|]. eexists _, _. reflexivity. Qed.

(** The other kinds. A union can resolve its own result through an earlier
    alternative; an intersect of a string returns an object of characters
    that it does not resolve; a dict empties the object it is given, so
    that resolving its result again empties that result. *)
Lemma union_not_idempotent :
  resolve (VRef 0) (Some union_of_objects) false (initial [OObj []])
  = (Ok (VRef 1, VUndefined), initial [OObj []; OObj [("a", VStr "y")]])
  /\ resolve (VRef 1) (Some union_of_objects) false (initial [OObj []; OObj [("a", VStr "y")]])
     = (Ok (VRef 2, VUndefined),
        initial [OObj []; OObj [("a", VStr "y")]; OObj [("a", VStr "y"); ("b", VNum 1)]]).
Proof. split; reflexivity. Qed.

Lemma intersect_not_idempotent :
  resolve (VStr "ab") (Some intersect_string) false (initial [])
  = (Ok (VRef 0, VUndefined), initial [OObj [("0", VStr "a"); ("1", VStr "b")]])
  /\ exists e s',
       resolve (VRef 0) (Some intersect_string) false
         (initial [OObj [("0", VStr "a"); ("1", VStr "b")]]) = (Throw e, s').
Proof. split; [reflexivity|]. eexists _, _. reflexivity. Qed.

Lemma dict_empties_resolved_value :
  resolve (VRef 0) (Some dict_any) false (initial [OObj [("a", VNum 1)]])
  = (Ok (VRef 1, VUndefined), initial [OObj []; OObj [("a", VNum 1)]])
  /\ resolve (VRef 1) (Some dict_any) false (initial [OObj []; OObj [("a", VNum 1)]])
     = (Ok (VRef 2, VUndefined), initial [OObj []; OObj []; OObj [("a", VNum 1)]]).
Proof. split; reflexivity. Qed.
(** * Further properties of the code *)

(** ** Printing schemas *)

(** X1. The chainable setters [required], [hidden], [adaptive], [default],
    [comment] and [description] do not change what the schema's own
    [toString] returns. *)
Theorem toString_ignores_setters (h : heap) (schema : Schema) (inline : bool) :
  toString h (required schema) inline = toString h schema inline
  /\ toString h (hidden schema) inline = toString h schema inline
  /\ toString h (adaptive schema) inline = toString h schema inline
  /\ (forall v, toString h (default v schema) inline = toString h schema inline)
  /\ (forall text, toString h (comment text schema) inline = toString h schema inline)
  /\ (forall text, toString h (description text schema) inline = toString h schema inline).
Proof. repeat split; intros; destruct schema; reflexivity. Qed.

(** X2. The argument [inline] of [toString] matters only to a union, seen
    through transforms: [toString(true)] is [toString()] in parentheses for
    those, and [toString()] for every other schema. *)
Theorem toString_inline (h : heap) (schema : Schema) :
  toString h schema true =
    if prints_union schema
    then v ← toString h schema false; Some (VStr ("(" ++ ToString h v ++ ")"))
    else toString h schema false.
Proof.
  induction schema using Schema_ind; try reflexivity.
  - cbn [toString prints_union].
    destruct (mapM (fun inner => toString h inner false) lst); reflexivity.
  - cbn [toString prints_union]. exact IHschema.
Qed.

(** X3. [toString] returns a string, except for a [const] of a value that
    is not a string, seen through transforms: there it returns the value
    itself. *)
Theorem toString_string_unless_const (h : heap) (schema : Schema) (inline : bool) (v : value) :
  toString h schema inline = Some v ->
  match printed_const schema with
  | Some c => v = c
  | None => exists text, v = VStr text
  end.
Proof.
  revert inline v. induction schema using Schema_ind; intros inline r Hr;
    cbn [toString printed_const] in *.
  all: try (injection Hr as <-; eexists; reflexivity).
  - destruct v; injection Hr as <-; try reflexivity. eexists; reflexivity.
  - destruct (toString h schema true); [|discriminate].
    injection Hr as <-. eexists; reflexivity.
  - destruct (toString h schema2 false); [|discriminate].
    destruct (toString h schema1 false); [|discriminate].
    injection Hr as <-. eexists; reflexivity.
  - destruct (mapM _ lst); [|discriminate]. injection Hr as <-. eexists; reflexivity.
  - destruct dict; [injection Hr as <-; eexists; reflexivity|].
    destruct (mapM _ (p :: dict)); [|discriminate]. injection Hr as <-. eexists; reflexivity.
  - destruct (mapM _ lst); [|discriminate]. injection Hr as <-. eexists; reflexivity.
  - destruct (mapM _ lst); [|discriminate]. injection Hr as <-. eexists; reflexivity.
  - eapply IHschema. exact Hr.
  - discriminate.
Qed.

Lemma toString_string_unless_const_witness :
  match printed_const (Schema.const (VNum 1)) with
  | Some c => VNum 1 = c
  | None => exists text, VNum 1 = VStr text
  end.
Proof.
  exact (toString_string_unless_const [] (Schema.const (VNum 1)) false (VNum 1) eq_refl).
Defined.

(** ** The leaf kinds *)

Lemma stringify_throw_state {A} (data : value) (message : string -> string) (s : state) :
  snd ((text ← stringify data; throw_SchemaError (A := A) (message text)) s) = s.
Proof.
  rewrite bind_unfold. unfold stringify.
  destruct (JSON_stringify (heap_of s) data); reflexivity.
Qed.

(** The resolvers of the leaf kinds leave the state as it is, also when
    they throw. *)
Lemma leaf_state (schema : Schema) :
  is_leaf schema = true ->
  exists cb, resolve_schema schema = resolve_with schema (Some cb)
    /\ forall data hint s, snd (cb data hint s) = s.
Proof.
  destruct schema as [m|m|v m|m|m|m|c m|inner m|inner sKey m|lst m|dict m|lst m|lst m
                     |inner c m|t m];
    try discriminate; intros _; eexists; (split; [reflexivity|]); intros data hint s.
  - reflexivity.
  - apply stringify_throw_state.
  - unfold resolve_const. destruct (strict_equal data v); [reflexivity|].
    rewrite bind_unfold. cbn [get_heap]. apply stringify_throw_state.
  - unfold resolve_string. destruct data; reflexivity || apply stringify_throw_state.
  - unfold resolve_number. destruct data; reflexivity || apply stringify_throw_state.
  - unfold resolve_boolean. destruct data; reflexivity || apply stringify_throw_state.
  - unfold resolve_is. rewrite bind_unfold. cbn [get_heap].
    destruct (ctor_hasInstance c (heap_of s) data); reflexivity.
Qed.

Lemma resolve_with_state (schema : Schema) (cb : Resolve) data hint s :
  (forall data hint s, snd (cb data hint s) = s) ->
  snd (resolve_with schema (Some cb) data hint s) = s.
Proof.
  intros Hcb.
  assert (Hrun : forall d, isNullable d = false ->
            snd (resolve_with schema (Some cb) d hint s) = s).
  { intros d Hd. rewrite resolve_with_dispatch by exact Hd.
    pose proof (Hcb d hint (set_current (Some schema) s)) as Hs.
    destruct (cb d hint (set_current (Some schema) s)) as [[r|e] s1]; cbn in Hs; subst s1.
    - apply set_current_restore.
    - destruct (rewrap_throws (A := value * value) e (set_current (Some schema) s))
        as (e' & -> & _). apply set_current_restore. }
  destruct (isNullable data) eqn:Hnull; [|apply Hrun; exact Hnull].
  rewrite resolve_with_nullable by exact Hnull.
  destruct (meta_required (meta schema)); [reflexivity|].
  destruct (isNullable (fallback_of (meta schema))) eqn:Hfallback; [reflexivity|].
  apply Hrun. exact Hfallback.
Qed.

(** X4. A schema of a leaf kind (any, never, const, string, number, boolean,
    is) resolves without touching the state, whether it returns or throws;
    what it returns is its input itself (the data, or the default in place
    of null or undefined data), with no adapted echo. *)
Theorem leaf_resolve_changes_nothing (schema : Schema) (data : value) (hint : bool)
    (s : state) :
  is_leaf schema = true ->
  snd (resolve data (Some schema) hint s) = s
  /\ forall v a, fst (resolve data (Some schema) hint s) = Ok (v, a) ->
       a = VUndefined
       /\ v = if isNullable data && negb (isNullable (fallback_of (meta schema)))
              then fallback_of (meta schema) else data.
Proof.
  intros Hleaf. cbn [resolve]. split.
  - destruct (leaf_state schema Hleaf) as (cb & -> & Hstate).
    apply resolve_with_state. exact Hstate.
  - destruct (leaf_returns_data schema Hleaf) as (cb & -> & Hcb). intros v a H.
    destruct (resolve_with schema (Some cb) data hint s) as [r s'] eqn:Hrun.
    cbn [fst] in H. subst r.
    destruct (isNullable data) eqn:Hnull; cbn [andb].
    + rewrite resolve_with_nullable in Hrun by exact Hnull.
      destruct (meta_required (meta schema)); [discriminate|].
      destruct (isNullable (fallback_of (meta schema))) eqn:Hfallback; cbn [negb].
      * injection Hrun as <- <- <-. auto.
      * destruct (resolve_with_returns_data _ _ _ _ _ _ _ _ Hcb Hfallback Hrun)
          as (-> & -> & _). auto.
    + destruct (resolve_with_returns_data _ _ _ _ _ _ _ _ Hcb Hnull Hrun) as (-> & -> & _).
      auto.
Qed.

Lemma leaf_resolve_changes_nothing_witness :
  snd (resolve VNull (Some (default (VNum 3) Schema.number)) false (initial [])) = initial []
  /\ forall v a,
       fst (resolve VNull (Some (default (VNum 3) Schema.number)) false (initial []))
         = Ok (v, a) ->
       a = VUndefined /\ v = VNum 3.
Proof.
  exact (leaf_resolve_changes_nothing (default (VNum 3) Schema.number) VNull false
           (initial []) eq_refl).
Defined.

(** X5. Resolving non-null data with [string()], [number()] or [boolean()]
    returns the data when it has that type, and throws [expected string
    (number, boolean) but got] followed by the JSON text of the data when it
    has not; the state is left as it was. *)
Theorem resolve_primitive_kinds (m : Meta) (data : value) (hint : bool) (s : state)
    (text : string) :
  isNullable data = false ->
  JSON_stringify (heap_of s) data = Some text ->
  resolve data (Some (Sstring m)) hint s =
    (match data with
     | VStr _ => Ok (data, VUndefined)
     | _ => Throw (SchemaError ("expected string but got " ++ text) (Some (Sstring m)))
     end, s)
  /\ resolve data (Some (Snumber m)) hint s =
       (match data with
        | VNum _ => Ok (data, VUndefined)
        | _ => Throw (SchemaError ("expected number but got " ++ text) (Some (Snumber m)))
        end, s)
  /\ resolve data (Some (Sboolean m)) hint s =
       (match data with
        | VBool _ => Ok (data, VUndefined)
        | _ => Throw (SchemaError ("expected boolean but got " ++ text) (Some (Sboolean m)))
        end, s).
Proof.
  intros Hnull Htext. cbn [resolve resolve_schema].
  rewrite !resolve_with_dispatch by exact Hnull.
  unfold resolve_string, resolve_number, resolve_boolean.
  repeat split; destruct data; try discriminate Hnull;
    rewrite ?bind_unfold; unfold stringify; cbn [heap_of set_current mret M_ret];
    rewrite ?Htext; cbn; rewrite ?set_current_restore; destruct s; reflexivity.
Qed.

Lemma resolve_primitive_kinds_witness :
  resolve (VNum 1) (Some Schema.string) false (initial []) =
    (Throw (SchemaError "expected string but got 1" (Some Schema.string)), initial [])
  /\ resolve (VNum 1) (Some Schema.number) false (initial []) =
       (Ok (VNum 1, VUndefined), initial [])
  /\ resolve (VNum 1) (Some Schema.boolean) false (initial []) =
       (Throw (SchemaError "expected boolean but got 1" (Some Schema.boolean)), initial []).
Proof.
  exact (resolve_primitive_kinds empty_meta (VNum 1) false (initial []) "1" eq_refl eq_refl).
Defined.

(** X6. [never()] returns only for null or undefined data, and only when the
    schema has no default and is not required: it then returns the data.
    Everything else it rejects, a default included. *)
Theorem never_accepts_only_missing (m : Meta) (data : value) (hint : bool) (s s' : state)
    (r : value * value) :
  resolve data (Some (Snever m)) hint s = (Ok r, s') ->
  isNullable data = true /\ meta_required m = false
  /\ isNullable (fallback_of m) = true /\ r = (data, VUndefined) /\ s' = s.
Proof.
  cbn [resolve resolve_schema]. intros H.
  assert (Hreject : forall d s0 r0 s1, isNullable d = false ->
            resolve_with (Snever m) (Some resolve_never) d hint s0 <> (Ok r0, s1)).
  { intros d s0 r0 s1 Hd Hrun. rewrite resolve_with_dispatch in Hrun by exact Hd.
    destruct (resolve_never d hint (set_current (Some (Snever m)) s0)) as [[r1|e] s2] eqn:Hn.
    - exact (stringify_throw_not_ok _ _ _ _ _ Hn).
    - destruct (rewrap_throws (A := value * value) e s2) as (e' & Hrw & _).
      rewrite Hrw in Hrun. discriminate. }
  destruct (isNullable data) eqn:Hnull; [|exfalso; exact (Hreject _ _ _ _ Hnull H)].
  rewrite resolve_with_nullable in H by exact Hnull. cbn [meta] in H.
  destruct (meta_required m); [discriminate|].
  destruct (isNullable (fallback_of m)) eqn:Hfallback;
    [|exfalso; exact (Hreject _ _ _ _ Hfallback H)].
  injection H as <- <-. auto.
Qed.

Lemma never_accepts_only_missing_witness :
  isNullable VUndefined = true /\ meta_required empty_meta = false
  /\ isNullable (fallback_of empty_meta) = true
  /\ (VUndefined, VUndefined) = (VUndefined, VUndefined) /\ initial [] = initial [].
Proof.
  exact (never_accepts_only_missing empty_meta VUndefined false (initial []) (initial [])
           (VUndefined, VUndefined) eq_refl).
Defined.

Lemma const_value_only (expected : value) (m : Meta) (data : value)
    (hint : bool) (s : state) :
  isNullable data = false ->
  (data = expected ->
   resolve data (Some (Sconst expected m)) hint s = (Ok (expected, VUndefined), s))
  /\ (data <> expected ->
      forall r s', resolve data (Some (Sconst expected m)) hint s <> (Ok r, s')).
Proof.
  intros Hnull. cbn [resolve resolve_schema].
  rewrite resolve_with_dispatch by exact Hnull. unfold resolve_const, strict_equal.
  split; intros Hdata.
  - rewrite bool_decide_true by exact Hdata. cbn. rewrite set_current_restore. reflexivity.
  - rewrite bool_decide_false by exact Hdata. intros r s' H.
    rewrite bind_unfold in H. cbn [get_heap] in H.
    destruct ((text ← stringify data;
               throw_SchemaError
                 ("expected "
                  ++ ToString (heap_of (set_current (Some (Sconst expected m)) s)) expected
                  ++ " but got " ++ text)) (set_current (Some (Sconst expected m)) s))
      as [[r1|e] s2] eqn:Hn.
    + exact (stringify_throw_not_ok _ _ _ _ _ Hn).
    + destruct (rewrap_throws (A := value * value) e s2) as (e' & Hrw & _).
      rewrite Hrw in H. discriminate.
Qed.

(** X7. [const(value)] on non-null data returns [value] when the data is
    [value] (the same primitive, or the same container), and returns for no
    other data. *)
Theorem const_accepts_only_its_value (expected : value) (m : Meta) (data : value)
    (hint : bool) (s : state) :
  isNullable data = false ->
  (data = expected ->
   resolve data (Some (Sconst expected m)) hint s = (Ok (expected, VUndefined), s))
  /\ (data <> expected ->
      forall r s', resolve data (Some (Sconst expected m)) hint s <> (Ok r, s')).
Proof. exact (const_value_only expected m data hint s). Qed.

Lemma const_accepts_only_its_value_witness :
  resolve (VStr "a") (Some (Schema.const (VStr "a"))) false (initial [])
  = (Ok (VStr "a", VUndefined), initial [])
  /\ forall r s',
       resolve (VStr "b") (Some (Schema.const (VStr "a"))) false (initial []) <> (Ok r, s').
Proof.
  split.
  - exact (proj1 (const_accepts_only_its_value (VStr "a") empty_meta (VStr "a") false
                    (initial []) eq_refl) eq_refl).
  - apply (proj2 (const_accepts_only_its_value (VStr "a") empty_meta (VStr "b") false
                    (initial []) eq_refl)). discriminate.
Defined.

(** ** [Schema.from] *)

(** X8. [Schema.from] of a string, number or boolean is a required [const]:
    resolving with it returns the literal for the literal, returns for no
    other data, and throws [missing required value] for null or undefined. *)
Theorem from_literal_accepts_itself (v x : value) (hint : bool) (s : state) :
  is_literal v = true ->
  exists schema,
    from (FromValue v) = Some schema
    /\ resolve v (Some schema) hint s = (Ok (v, VUndefined), s)
    /\ (x <> v -> forall r s', resolve x (Some schema) hint s <> (Ok r, s'))
    /\ (isNullable x = true ->
        resolve x (Some schema) hint s
        = (Throw (SchemaError "missing required value" (Some schema)), s)).
Proof.
  intros Hv. exists (required (Schema.const v)).
  assert (Hnull : isNullable v = false) by (destruct v; try discriminate; reflexivity).
  split; [destruct v; try discriminate; reflexivity|].
  assert (Hmissing : forall y, isNullable y = true ->
            resolve y (Some (required (Schema.const v))) hint s
            = (Throw (SchemaError "missing required value" (Some (required (Schema.const v)))),
               s)).
  { intros y Hy. cbn [resolve resolve_schema required Schema.const with_meta].
    rewrite resolve_with_nullable by exact Hy. reflexivity. }
  split; [|split].
  - exact (proj1 (const_value_only v _ v hint s Hnull) eq_refl).
  - intros Hx r s' H. destruct (isNullable x) eqn:Hxnull.
    + rewrite Hmissing in H by exact Hxnull. discriminate.
    + exact (proj2 (const_value_only v _ x hint s Hxnull) Hx r s' H).
  - apply Hmissing.
Qed.

Lemma from_literal_accepts_itself_witness :
  exists schema,
    from (FromValue (VNum 7)) = Some schema
    /\ resolve (VNum 7) (Some schema) false (initial []) = (Ok (VNum 7, VUndefined), initial [])
    /\ (VNull <> VNum 7 ->
        forall r s', resolve VNull (Some schema) false (initial []) <> (Ok r, s'))
    /\ (isNullable VNull = true ->
        resolve VNull (Some schema) false (initial [])
        = (Throw (SchemaError "missing required value" (Some schema)), initial [])).
Proof.
  exact (from_literal_accepts_itself (VNum 7) VNull false (initial []) eq_refl).
Defined.

(** ** Errors *)

(** X9. A schema whose type has no resolver, registered or inherited by the
    table, returns only for null or undefined data, when it has no default
    and is not required; on anything else, its default included, [resolve]
    throws [unsupported type] with the type in quotes. The state is left as
    it was. *)
Theorem unregistered_type_rejects (t : string) (m : Meta) (data : value) (hint : bool)
    (s : state) :
  found t = false ->
  resolve data (Some (Sextern t m)) hint s =
    (if isNullable data && meta_required m
     then Throw (SchemaError "missing required value" (Some (Sextern t m)))
     else if isNullable data && isNullable (fallback_of m)
     then Ok (data, VUndefined)
     else Throw (SchemaError ("unsupported type " ++ dquote ++ t ++ dquote)
                   (Some (Sextern t m))),
     s).
Proof.
  intros _. cbn [resolve resolve_schema].
  assert (Hrun : forall d, isNullable d = false ->
            resolve_with (Sextern t m) None d hint s
            = (Throw (SchemaError ("unsupported type " ++ dquote ++ t ++ dquote)
                        (Some (Sextern t m))), s)).
  { intros d Hd. unfold resolve_with, try_finally, try_catch. rewrite bind_unfold.
    cbn [modify]. rewrite Hd. destruct s; reflexivity. }
  destruct (isNullable data) eqn:Hnull; cbn [andb]; [|apply Hrun; exact Hnull].
  rewrite resolve_with_nullable by exact Hnull. cbn [meta].
  destruct (meta_required m); [reflexivity|].
  destruct (isNullable (fallback_of m)) eqn:Hfallback; [reflexivity|].
  apply Hrun. exact Hfallback.
Qed.

Lemma unregistered_type_rejects_witness :
  resolve (VNum 1) (Some (Sextern "date" empty_meta)) false (initial [])
  = (Throw (SchemaError ("unsupported type " ++ dquote ++ "date" ++ dquote)
              (Some (Sextern "date" empty_meta))), initial []).
Proof.
  exact (unregistered_type_rejects "date" empty_meta (VNum 1) false (initial []) eq_refl).
Defined.

(** X11. The container kinds test the shape of non-null data before anything
    else: [array] and [tuple] throw [expected array but got] and the JSON
    text of the data when it is not an array, [dict] and [object] throw
    [expected object but got] and the JSON text when it is not a plain
    object; nothing was resolved and the state is left as it was. This is
    for a schema that can be printed. *)
Theorem containers_reject_wrong_shape (data : value) (hint : bool) (s : state)
    (text : string) :
  isNullable data = false ->
  JSON_stringify (heap_of s) data = Some text ->
  (isArray (heap_of s) data = false ->
   (forall inner m,
      prints (Sarray inner m) = true ->
      resolve data (Some (Sarray inner m)) hint s
      = (Throw (SchemaError ("expected array but got " ++ text) (Some (Sarray inner m))), s))
   /\ (forall lst m,
        prints (Stuple lst m) = true ->
        resolve data (Some (Stuple lst m)) hint s
        = (Throw (SchemaError ("expected array but got " ++ text) (Some (Stuple lst m))), s)))
  /\ (isObject (heap_of s) data = false ->
      (forall inner sKey m,
         prints (Sdict inner sKey m) = true ->
         resolve data (Some (Sdict inner sKey m)) hint s
         = (Throw (SchemaError ("expected object but got " ++ text)
                     (Some (Sdict inner sKey m))), s))
      /\ (forall dict m,
           prints (Sobject dict m) = true ->
           resolve data (Some (Sobject dict m)) hint s
           = (Throw (SchemaError ("expected object but got " ++ text)
                       (Some (Sobject dict m))), s))).
Proof.
  intros Hnull Htext.
  split; intros Hshape; split; intros; cbn [resolve resolve_schema];
    rewrite resolve_with_dispatch by exact Hnull;
    unfold resolve_array, resolve_tuple, resolve_dict, resolve_object;
    rewrite bind_unfold; cbn [get_heap heap_of set_current]; rewrite Hshape; cbn [negb];
    unfold expected_array, expected_object; rewrite bind_unfold; unfold stringify;
    cbn [heap_of set_current]; rewrite Htext; destruct s; reflexivity.
Qed.

Lemma containers_reject_wrong_shape_witness :
  resolve (VStr "x") (Some (Sarray Schema.any empty_meta)) false (initial [])
  = (Throw (SchemaError ("expected array but got " ++ json_quote "x")
              (Some (Sarray Schema.any empty_meta))), initial [])
  /\ resolve (VStr "x") (Some (Sobject [] empty_meta)) false (initial [])
     = (Throw (SchemaError ("expected object but got " ++ json_quote "x")
                 (Some (Sobject [] empty_meta))), initial []).
Proof.
  pose proof (containers_reject_wrong_shape (VStr "x") false (initial []) (json_quote "x")
                eq_refl eq_refl) as [Harray Hobject].
  split.
  - exact (proj1 (Harray eq_refl) Schema.any empty_meta eq_refl).
  - exact (proj2 (Hobject eq_refl) [] empty_meta eq_refl).
Defined.




(** ** The hint *)

(** X13. Only [dict], [tuple] and [object] read the hint [strict]: every other
    schema resolves the same whatever the hint, its sub-schemas being
    resolved with a hint of its own choice. Strictness is not inherited
    through an array, a union, an intersect or a transform. *)
Theorem hint_read_by_dict_tuple_object_only (schema : Schema) (data : value)
    (hint hint' : bool) (s : state) :
  reads_hint schema = false ->
  resolve data (Some schema) hint s = resolve data (Some schema) hint' s.
Proof. destruct schema; try discriminate; reflexivity. Qed.

Lemma hint_read_by_dict_tuple_object_only_witness :
  resolve (VRef 0) (Some (Sarray object_a_number empty_meta)) true
    (initial [OArr [VRef 1]; input_a1_b2])
  = resolve (VRef 0) (Some (Sarray object_a_number empty_meta)) false
      (initial [OArr [VRef 1]; input_a1_b2]).
Proof.
  exact (hint_read_by_dict_tuple_object_only (Sarray object_a_number empty_meta) (VRef 0)
           true false (initial [OArr [VRef 1]; input_a1_b2]) eq_refl).
Defined.

(** ** Arrays and tuples *)

Lemma resolve_with_returns (schema : Schema) (callback : Resolve) data hint s r s' :
  isNullable data = false ->
  resolve_with schema (Some callback) data hint s = (Ok r, s') ->
  exists s1, callback data hint (set_current (Some schema) s) = (Ok r, s1)
             /\ s' = set_current (current s) s1.
Proof.
  intros Hnull H. rewrite resolve_with_dispatch in H by exact Hnull.
  destruct (callback data hint (set_current (Some schema) s)) as [[r1|e] s1].
  - injection H as <- <-. eauto.
  - destruct (rewrap_throws (A := value * value) e s1) as (e' & Hrw & _).
    rewrite Hrw in H. discriminate.
Qed.

(** X14. [array(inner)] returns, for non-null data it resolves, a new array
    with one element for each element the data had when resolution began,
    and no adapted echo; the data is an array. *)
Theorem array_result_length (inner : Schema) (m : Meta) (data : value) (hint : bool)
    (s s' : state) (r a : value) :
  isNullable data = false ->
  resolve data (Some (Sarray inner m)) hint s = (Ok (r, a), s') ->
  exists (h : heap) (elems : list value),
    heap_of s' = (h ++ [OArr elems])%list /\ r = VRef (length h) /\ a = VUndefined
    /\ isArray (heap_of s) data = true
    /\ length elems = length (elements (heap_of s) data).
Proof.
  intros Hnull H. cbn [resolve resolve_schema] in H.
  destruct (resolve_with_returns _ _ _ _ _ _ _ Hnull H) as (s1 & Hrun & ->). clear H.
  unfold resolve_array in Hrun. rewrite bind_unfold in Hrun.
  cbn [get_heap heap_of set_current] in Hrun.
  destruct (isArray (heap_of s) data) eqn:Harray; cbn [negb] in Hrun.
  - rewrite bind_unfold in Hrun.
    destruct (mapM (fun index => property data (KIdx index) (resolve_schema inner))
                (seq 0 (length (elements (heap_of s) data)))
                (set_current (Some (Sarray inner m)) s)) as [[result|e] s2] eqn:Hmap;
      [|discriminate].
    cbn in Hrun. injection Hrun as <- <- <-.
    exists (heap_of s2), result. cbn. repeat split.
    rewrite (mapM_length _ _ _ _ _ Hmap). apply length_seq.
  - destruct (expected_array_throws (A := value * value) data
                (set_current (Some (Sarray inner m)) s)) as (e & He).
    rewrite He in Hrun. discriminate.
Qed.

Lemma array_result_length_witness :
  exists (h : heap) (elems : list value),
    [OArr [VNum 1; VNum 2]; OArr [VNum 1; VNum 2]] = (h ++ [OArr elems])%list
    /\ VRef 1 = VRef (length h) /\ VUndefined = VUndefined
    /\ isArray [OArr [VNum 1; VNum 2]] (VRef 0) = true
    /\ length elems = length (elements [OArr [VNum 1; VNum 2]] (VRef 0)).
Proof.
  exact (array_result_length Schema.number empty_meta (VRef 0) false
           (initial [OArr [VNum 1; VNum 2]])
           (initial [OArr [VNum 1; VNum 2]; OArr [VNum 1; VNum 2]])
           (VRef 1) VUndefined eq_refl eq_refl).
Defined.

(** X15. [tuple(list)] returns, for non-null data it resolves, a new array that
    begins with one element for each schema of [list]. In strict mode that
    is all of it; in lenient mode it goes on with the elements the data has
    beyond those, as they are once the listed ones have been resolved. *)
Theorem tuple_result_length (lst : list Schema) (m : Meta) (data : value) (strict : bool)
    (s s' : state) (r a : value) :
  isNullable data = false ->
  resolve data (Some (Stuple lst m)) strict s = (Ok (r, a), s') ->
  exists (h : heap) (resolved : list value),
    heap_of s' = (h ++ [OArr (resolved ++ if strict then []
                                          else drop (length lst) (elements h data))])%list
    /\ r = VRef (length h) /\ a = VUndefined
    /\ isArray (heap_of s) data = true
    /\ length resolved = length lst.
Proof.
  intros Hnull H. cbn [resolve resolve_schema] in H.
  destruct (resolve_with_returns _ _ _ _ _ _ _ Hnull H) as (s1 & Hrun & ->). clear H.
  unfold resolve_tuple in Hrun. rewrite bind_unfold in Hrun.
  cbn [get_heap heap_of set_current] in Hrun.
  destruct (isArray (heap_of s) data) eqn:Harray; cbn [negb] in Hrun.
  - rewrite bind_unfold in Hrun.
    destruct (tuple_loop (map resolve_schema lst) data 0
                (set_current (Some (Stuple lst m)) s)) as [[result|e] s2] eqn:Hloop;
      [|discriminate].
    pose proof (tuple_loop_length _ _ _ _ _ _ Hloop) as Hlen. rewrite length_map in Hlen.
    exists (heap_of s2), result.
    destruct strict; cbn in Hrun; injection Hrun as <- <- <-; cbn;
      rewrite ?length_map, ?app_nil_r; repeat split; exact Hlen.
  - destruct (expected_array_throws (A := value * value) data
                (set_current (Some (Stuple lst m)) s)) as (e & He).
    rewrite He in Hrun. discriminate.
Qed.

Lemma tuple_result_length_witness :
  exists (h : heap) (resolved : list value),
    [OArr [VNum 1; VNum 2]; OArr [VNum 1; VNum 2]]
    = (h ++ [OArr (resolved ++ drop 1 (elements h (VRef 0)))])%list
    /\ VRef 1 = VRef (length h) /\ VUndefined = VUndefined
    /\ isArray [OArr [VNum 1; VNum 2]] (VRef 0) = true
    /\ length resolved = 1.
Proof.
  exact (tuple_result_length [Schema.number] empty_meta (VRef 0) false
           (initial [OArr [VNum 1; VNum 2]])
           (initial [OArr [VNum 1; VNum 2]; OArr [VNum 1; VNum 2]])
           (VRef 1) VUndefined eq_refl eq_refl).
Defined.

(** ** Schemas that leave their input alone *)

Lemma keeps_union_loop_quiet (h0 : heap) (lst : list Resolve) (data : value)
    (messages : list string) :
  Forall quiet lst ->
  keeps (grows_from h0)
    (fun r : value * value + list string =>
       match r with
       | inl va => snd va = VUndefined /\ (isNullable (fst va) = true -> fst va = data)
       | inr _ => True
       end) (union_loop lst data messages).
Proof.
  intros Hlst. revert messages.
  induction Hlst as [|inner lst Hinner _ IH]; intros messages; cbn [union_loop].
  - apply keeps_ret. exact I.
  - apply keeps_try_catch; [|intros e; apply IH].
    eapply keeps_bind; [apply quiet_keeps; exact Hinner|].
    intros va Hva. apply keeps_ret. exact Hva.
Qed.

Lemma quiet_union (lst : list Resolve) : Forall quiet lst -> quiet (resolve_union lst).
Proof.
  intros Hlst. apply keeps_quiet. intros h0 data hint. unfold resolve_union.
  eapply keeps_bind; [apply keeps_union_loop_quiet; exact Hlst|].
  intros [va|messages] Hr.
  - apply keeps_ret. exact Hr.
  - eapply keeps_bind; [apply keeps_stringify|]. intros text _. apply keeps_throw_SchemaError.
Qed.

Lemma keeps_intersect_loop_quiet (h0 : heap) (lst : list Resolve) (data : value)
    (result : props) :
  Forall quiet lst ->
  keeps (grows_from h0) (fun _ => True) (intersect_loop lst data result).
Proof.
  intros Hlst. revert result.
  induction Hlst as [|inner lst Hinner _ IH]; intros result; cbn [intersect_loop].
  - apply keeps_ret. exact I.
  - eapply keeps_bind; [apply quiet_keeps; exact Hinner|]. intros r _.
    eapply keeps_bind; [apply keeps_get_heap|]. intros h _. apply IH.
Qed.

Lemma quiet_intersect (lst : list Resolve) : Forall quiet lst -> quiet (resolve_intersect lst).
Proof.
  intros Hlst. apply keeps_quiet. intros h0 data hint. unfold resolve_intersect.
  eapply keeps_bind; [apply keeps_intersect_loop_quiet; exact Hlst|]. intros result _.
  eapply keeps_bind; [apply keeps_get_heap|]. intros h _.
  eapply keeps_bind with (G1 := fun _ => True).
  { destruct (isObject h data); [|apply keeps_ret; exact I].
    intros s Hs. destruct (merge_state result data s) as [result' ->]. split; [exact Hs|auto]. }
  intros result' _. apply keeps_alloc_grows.
Qed.

Lemma quiet_unregistered (schema : Schema) : quiet (resolve_with schema None).
Proof.
  assert (Hrun : forall d hint s, isNullable d = false ->
            exists e, resolve_with schema None d hint s = (Throw e, s)).
  { intros d hint s Hd. unfold resolve_with, try_finally, try_catch. rewrite bind_unfold.
    cbn [modify]. rewrite Hd. eexists. destruct s; reflexivity. }
  intros data hint s. destruct (isNullable data) eqn:Hnull.
  - rewrite resolve_with_nullable by exact Hnull.
    destruct (meta_required (meta schema)).
    { split; [reflexivity|]. cbn. intros v a [=]. }
    destruct (isNullable (fallback_of (meta schema))) eqn:Hfallback.
    { split; [reflexivity|]. cbn. intros v a [= <- <-]. auto. }
    destruct (Hrun _ hint s Hfallback) as [e ->]. split; [reflexivity|]. intros v a [=].
  - destruct (Hrun _ hint s Hnull) as [e ->]. split; [reflexivity|]. intros v a [=].
Qed.

Lemma forallb_elem_of {A} (f : A -> bool) (l : list A) :
  forallb f l = true -> forall x, x ∈ l -> f x = true.
Proof.
  intros H x Hx. rewrite forallb_forall in H. apply H. apply list_elem_of_In. exact Hx.
Qed.

Lemma Forall_readonly {A} (P : A -> Prop) (f : A -> bool) (l : list A) :
  Forall (fun x => f x = true -> P x) l -> forallb f l = true -> Forall P l.
Proof.
  intros H Hf. apply list.Forall_forall. intros x Hx.
  rewrite list.Forall_forall in H. apply H; [exact Hx|].
  exact (forallb_elem_of f l Hf x Hx).
Qed.

Lemma readonly_quiet (schema : Schema) :
  readonly schema = true -> quiet (resolve_schema schema).
Proof.
  induction schema using Schema_ind; cbn [readonly resolve_schema]; intros Hro;
    try discriminate.
  - apply quiet_resolve_with, quiet_any.
  - apply quiet_resolve_with, quiet_never.
  - apply quiet_resolve_with, quiet_const.
  - apply quiet_resolve_with, quiet_string.
  - apply quiet_resolve_with, quiet_number.
  - apply quiet_resolve_with, quiet_boolean.
  - apply quiet_resolve_with, quiet_is.
  - apply quiet_resolve_with, quiet_array. auto.
  - apply quiet_resolve_with, quiet_tuple. apply Forall_map.
    exact (Forall_readonly _ _ _ H Hro).
  - apply quiet_resolve_with, quiet_object. apply Forall_map.
    exact (Forall_readonly (fun kv => quiet (resolve_schema (snd kv)))
             (fun kv => readonly (snd kv)) _ H Hro).
  - apply quiet_resolve_with, quiet_union. apply Forall_map.
    exact (Forall_readonly _ _ _ H Hro).
  - apply quiet_resolve_with, quiet_intersect. apply Forall_map.
    exact (Forall_readonly _ _ _ H Hro).
  - apply quiet_unregistered.
Qed.



(** ** Containers of schemas that leave their input alone

    For a sub-schema with no [transform] and no [dict] in it, [property] is
    the call of the sub-schema on the property it reads: nothing is written
    back, and what was resolved before has changed no container. *)

Lemma invoke_unfold (schema : Schema) (x : value) (s : state) :
  invoke schema x s =
    match resolve_schema schema x false s with
    | (Ok va, s') => (Ok (fst va), s')
    | (Throw e, s') => (Throw e, s')
    end.
Proof.
  unfold invoke, resolve. rewrite bind_unfold.
  destruct (resolve_schema schema x false s) as [[va|e] s']; reflexivity.
Qed.

Lemma property_invoke (data : value) (key : pkey) (schema : Schema) (s : state) :
  readonly schema = true ->
  property data key (resolve_schema schema) s
  = invoke schema (heap_read (heap_of s) data key) s.
Proof.
  intros Hro. rewrite property_quiet by (apply readonly_quiet; exact Hro).
  rewrite invoke_unfold. reflexivity.
Qed.

Lemma invoke_grows (schema : Schema) (x : value) (s : state) :
  readonly schema = true -> heap_of s `prefix_of` heap_of (snd (invoke schema x s)).
Proof.
  intros Hro. rewrite invoke_unfold.
  destruct (readonly_quiet schema Hro x false s) as [Hgrow _].
  destruct (resolve_schema schema x false s) as [[va|e] s']; exact Hgrow.
Qed.

(** What [resolve] makes of the run of a registered resolver on non-null
    data. *)
Lemma resolve_with_throws (schema : Schema) (callback : Resolve) data hint s e s1 :
  isNullable data = false ->
  callback data hint (set_current (Some schema) s) = (Throw e, s1) ->
  exists e', resolve_with schema (Some callback) data hint s
             = (Throw e', set_current (current s) s1).
Proof.
  intros Hnull Hrun. rewrite resolve_with_dispatch, Hrun by exact Hnull.
  destruct (rewrap_throws (A := value * value) e s1) as (e' & -> & _). eauto.
Qed.

Lemma resolve_with_ok (schema : Schema) (callback : Resolve) data hint s r s1 :
  isNullable data = false ->
  callback data hint (set_current (Some schema) s) = (Ok r, s1) ->
  resolve_with schema (Some callback) data hint s = (Ok r, set_current (current s) s1).
Proof. intros Hnull Hrun. rewrite resolve_with_dispatch, Hrun by exact Hnull. reflexivity. Qed.

(** The loop of the object resolver calls the fields in turn. *)
Lemma object_loop_invoke (l : loc) (D : props) (dict : list (string * Schema)) :
  forallb (fun kv => readonly (snd kv)) dict = true ->
  forall (acc : props) (s : state),
    heap_of s !! l = Some (OObj D) ->
    object_loop (map (fun kv => (fst kv, resolve_schema (snd kv))) dict) (VRef l) acc s =
      match mapM (fun kv => invoke (snd kv) (props_read (fst kv) D)) dict s with
      | (Ok vs, s2) => (Ok (object_fields D (map fst dict) vs acc), s2)
      | (Throw e, s2) => (Throw e, s2)
      end
    /\ heap_of s `prefix_of`
         heap_of (snd (mapM (fun kv => invoke (snd kv) (props_read (fst kv) D)) dict s)).
Proof.
  induction dict as [|[key schema] dict IH]; intros Hro acc s Hl.
  - split; reflexivity.
  - cbn [forallb snd] in Hro. apply andb_true_iff in Hro as [Hschema Hro].
    cbn [map fst snd object_loop]. rewrite bind_unfold, property_invoke by exact Hschema.
    rewrite mapM_unfold. cbn [fst snd heap_read]. rewrite Hl. cbn [obj_read pkey_string].
    pose proof (invoke_grows schema (props_read key D) s Hschema) as Hgrow.
    destruct (invoke schema (props_read key D) s) as [[v|e] s1]; [|split; [reflexivity|exact Hgrow]].
    cbn [snd] in Hgrow.
    assert (Hl1 : heap_of s1 !! l = Some (OObj D))
      by (eapply prefix_lookup_Some; eassumption).
    rewrite bind_unfold. cbn [in_property]. rewrite (heap_in_object _ _ _ _ Hl1).
    destruct (IH Hro (if negb (isNullable v) || props_in key D
                      then props_put key v acc else acc) s1 Hl1) as [Hloop Hgrow'].
    unfold props_in in Hloop. split.
    + destruct (negb (isNullable v) || (props_has key D || inherited key)) eqn:Hincl;
        rewrite Hloop;
        destruct (mapM (fun kv => invoke (snd kv) (props_read (fst kv) D)) dict s1)
          as [[vs|e] s2]; cbn [object_fields]; unfold props_in; rewrite ?Hincl; reflexivity.
    + destruct (mapM (fun kv => invoke (snd kv) (props_read (fst kv) D)) dict s1)
        as [[vs|e] s2]; etrans; eassumption.
Qed.

Lemma mapM_length_ok {A B} (f : A -> M B) (l : list A) (s s' : state) (ys : list B) :
  mapM f l s = (Ok ys, s') -> length ys = length l.
Proof.
  revert s ys. induction l as [|x l IH]; intros s ys H.
  - cbn in H. injection H as <- <-. reflexivity.
  - rewrite mapM_unfold in H. destruct (f x s) as [[y|e] s1]; [|discriminate].
    destruct (mapM f l s1) as [[zs|e] s2] eqn:Hrest; [|discriminate].
    injection H as <- <-. cbn. f_equal. exact (IH _ _ Hrest).
Qed.

(** The properties [object_fields] leaves, for fields with distinct names
    that are not names of members of [Object.prototype]. *)
Lemma object_fields_get (D : props) (keys : list string) :
  NoDup keys ->
  Forall (fun key => inherited key = false) keys ->
  forall (vs : list value) (acc : props),
    (forall key, key ∉ keys ->
       props_get key (object_fields D keys vs acc) = props_get key acc)
    /\ forall i key v, keys !! i = Some key -> vs !! i = Some v ->
         props_get key (object_fields D keys vs acc) =
           if negb (isNullable v) || props_has key D then Some v
           else props_get key acc.
Proof.
  induction keys as [|key keys IH]; intros Hnodup Hkeys vs acc.
  - split; [reflexivity|]. intros i key v Hi. discriminate.
  - apply list.NoDup_cons in Hnodup as [Hkey Hnodup].
    apply list.Forall_cons in Hkeys as [Hinh Hkeys].
    destruct vs as [|v vs].
    { split; [reflexivity|]. intros i k w _ Hw. discriminate. }
    cbn [object_fields]. unfold props_in. rewrite Hinh, orb_false_r.
    rewrite props_put_ordinary by exact Hinh.
    destruct (IH Hnodup Hkeys vs
                (if negb (isNullable v) || props_has key D then props_set key v acc else acc))
      as [Hother Heach].
    assert (Hacc : forall k, k <> key ->
              props_get k (if negb (isNullable v) || props_has key D
                           then props_set key v acc else acc) = props_get k acc).
    { intros k Hne. destruct (negb (isNullable v) || props_has key D); [|reflexivity].
      apply props_get_set_ne. congruence. }
    split.
    + intros k Hk. apply not_elem_of_cons in Hk as [Hne Hk].
      rewrite (Hother k Hk). apply Hacc. exact Hne.
    + intros [|i] k w Hk Hw.
      * injection Hk as <-. injection Hw as <-. rewrite (Hother key Hkey).
        destruct (negb (isNullable v) || props_has key D); [apply props_get_set_eq|reflexivity].
      * cbn in Hk, Hw. rewrite (Heach i k w Hk Hw).
        rewrite Hacc; [reflexivity|]. intros ->. apply Hkey.
        eapply list_elem_of_lookup_2. exact Hk.
Qed.

(** The object resolver, for fields that leave their input alone. *)
Lemma object_resolve_invoke (dict : list (string * Schema)) (m : Meta) (l : loc)
    (entries : props) (strict : bool) (s : state) :
  heap_of s !! l = Some (OObj entries) ->
  forallb (fun kv => readonly (snd kv)) dict = true ->
  match mapM (fun kv => invoke (snd kv) (props_read (fst kv) entries)) dict
          (set_current (Some (Sobject dict m)) s) with
  | (Ok vs, s2) =>
      exists result,
        resolve (VRef l) (Some (Sobject dict m)) strict s
        = (Ok (VRef (length (heap_of s2)), VUndefined),
           set_current (current s) (set_heap (heap_of s2 ++ [OObj result])%list s2))
        /\ forall key,
             props_get key result =
               match props_get key (object_fields entries (map fst dict) vs []) with
               | Some v => Some v
               | None => if strict || inherited key then None else props_get key entries
               end
  | (Throw e, s2) =>
      exists e', resolve (VRef l) (Some (Sobject dict m)) strict s
                 = (Throw e', set_current (current s) s2)
  end.
Proof.
  intros Hl Hro. set (s0 := set_current (Some (Sobject dict m)) s).
  destruct (object_loop_invoke l entries dict Hro [] s0 Hl) as [Hloop Hgrow].
  assert (Hrun : resolve_object (map (fun kv => (fst kv, resolve_schema (snd kv))) dict)
                   (VRef l) strict s0
                 = (result ← object_loop (map (fun kv => (fst kv, resolve_schema (snd kv))) dict)
                               (VRef l) [];
                    result ← (if strict then mret result else merge result (VRef l));
                    object ← alloc (OObj result);
                    mret (object, VUndefined)) s0).
  { assert (Hl0 : heap_of s0 !! l = Some (OObj entries)) by exact Hl.
    unfold resolve_object. rewrite bind_unfold. cbn [get_heap isObject].
    rewrite Hl0. reflexivity. }
  cbn [resolve resolve_schema]. subst s0.
  destruct (mapM (fun kv => invoke (snd kv) (props_read (fst kv) entries)) dict
              (set_current (Some (Sobject dict m)) s))
    as [[vs|e] s2] eqn:Hmap; cbn [snd] in Hgrow.
  - assert (Hl2 : heap_of s2 !! l = Some (OObj entries))
      by (eapply prefix_lookup_Some; [exact Hl|exact Hgrow]).
    rewrite bind_unfold, Hloop, bind_unfold in Hrun.
    destruct strict.
    + eexists. split.
      * apply resolve_with_ok; [reflexivity|]. rewrite Hrun. reflexivity.
      * intros key. destruct (props_get key _); reflexivity.
    + destruct (merge_object l entries (object_fields entries (map fst dict) vs []) s2 Hl2)
        as (result' & Hmerge & Hget).
      rewrite Hmerge in Hrun. exists result'. split.
      * apply resolve_with_ok; [reflexivity|]. rewrite Hrun. reflexivity.
      * exact Hget.
  - rewrite bind_unfold, Hloop in Hrun.
    exact (resolve_with_throws _ _ (VRef l) strict s e s2 eq_refl Hrun).
Qed.

(** X17. [object(dict)] on a plain object, for fields that have no
    [transform] and no [dict] in them and distinct names, none the name of
    a member of [Object.prototype] and none beginning with a digit: the
    fields are called in turn, each from the state the one before left, on
    the property of the input it names ([undefined] when the input has
    none). When they all return, the result is a new object that has each
    field with the value it resolved to, unless that value is null or
    undefined and the input has no such property, and, of the other keys,
    none in strict mode and those of the input in lenient mode, but for the
    names of members of [Object.prototype]. When one throws, [resolve]
    throws, in the state that one left. The fields are [regular]: they
    look nothing up in [Object.prototype]. *)
Theorem object_declared_fields (dict : list (string * Schema)) (m : Meta) (l : loc)
    (entries : props) (strict : bool) (s : state) :
  heap_of s !! l = Some (OObj entries) ->
  forallb (fun kv => readonly (snd kv)) dict = true ->
  forallb (fun kv => regular (snd kv)) dict = true ->
  NoDup (map fst dict) ->
  Forall (fun kv => inherited (fst kv) = false) dict ->
  Forall (fun kv => numeric (fst kv) = false) dict ->
  (forall vs s2,
     mapM (fun kv => invoke (snd kv) (props_read (fst kv) entries)) dict
       (set_current (Some (Sobject dict m)) s) = (Ok vs, s2) ->
     exists result,
       resolve (VRef l) (Some (Sobject dict m)) strict s
       = (Ok (VRef (length (heap_of s2)), VUndefined),
          set_current (current s) (set_heap (heap_of s2 ++ [OObj result])%list s2))
       /\ Forall2 (fun kv v =>
                    props_get (fst kv) result =
                      if negb (isNullable v) || props_has (fst kv) entries
                      then Some v else None)
            dict vs
       /\ forall key, key ∉ map fst dict ->
            props_get key result =
              if strict || inherited key then None else props_get key entries)
  /\ (forall e s2,
        mapM (fun kv => invoke (snd kv) (props_read (fst kv) entries)) dict
          (set_current (Some (Sobject dict m)) s) = (Throw e, s2) ->
        exists e', resolve (VRef l) (Some (Sobject dict m)) strict s
                   = (Throw e', set_current (current s) s2)).
Proof.
  intros Hl Hro _ Hnodup Hnames _.
  pose proof (object_resolve_invoke dict m l entries strict s Hl Hro) as Hrun.
  split.
  - intros vs s2 Hmap. rewrite Hmap in Hrun. destruct Hrun as (result & Hres & Hget).
    exists result. split; [exact Hres|].
    destruct (object_fields_get entries (map fst dict) Hnodup
                (proj2 (Forall_map _ _ _) Hnames) vs []) as [Hother Heach].
    split.
    + apply Forall2_same_length_lookup_2.
      { symmetry. exact (mapM_length_ok _ _ _ _ _ Hmap). }
      intros i kv v Hkv Hv. rewrite Hget.
      rewrite (Heach i (fst kv) v) by (rewrite ?list_lookup_fmap, ?Hkv; exact Hv || reflexivity).
      destruct (negb (isNullable v) || props_has (fst kv) entries) eqn:Hincl; [reflexivity|].
      apply orb_false_iff in Hincl as [_ Hpresent]. apply props_has_false in Hpresent.
      cbn [props_get]. rewrite Hpresent. destruct (strict || inherited (fst kv)); reflexivity.
    + intros key Hkey. rewrite Hget, (Hother key Hkey). reflexivity.
  - intros e s2 Hmap. rewrite Hmap in Hrun. exact Hrun.
Qed.

Lemma object_declared_fields_witness :
  exists result,
    resolve (VRef 1) (Some object_a_b) false (initial input_a_b_c)
    = (Ok (VRef 3, VUndefined),
       initial (input_a_b_c ++ [OArr [VStr "d"]; OObj result]))
    /\ Forall2 (fun kv v =>
                 props_get (fst kv) result =
                   if negb (isNullable v)
                      || props_has (fst kv) [("a", VNum 1); ("b", VRef 0); ("c", VBool true)]
                   then Some v else None)
         [("a", Schema.number);
          ("b", Sarray (default (VStr "d") Schema.string) empty_meta)]
         [VNum 1; VRef 2]
    /\ forall key, key ∉ ["a"; "b"] ->
         props_get key result =
           if inherited key then None
           else props_get key [("a", VNum 1); ("b", VRef 0); ("c", VBool true)].
Proof.
  refine (proj1 (object_declared_fields
                   [("a", Schema.number);
                    ("b", Sarray (default (VStr "d") Schema.string) empty_meta)]
                   empty_meta 1 [("a", VNum 1); ("b", VRef 0); ("c", VBool true)] false
                   (initial input_a_b_c) eq_refl eq_refl eq_refl _ _ _)
            [VNum 1; VRef 2]
            {| heap_of := input_a_b_c ++ [OArr [VStr "d"]]; current := Some object_a_b |}
            eq_refl).
  - apply (bool_decide_unpack (NoDup ["a"; "b"])). reflexivity.
  - repeat constructor.
  - repeat constructor.
Defined.

Lemma mapM_throws {A B} (f : A -> M B) (l : list A) (x : A) :
  x ∈ l -> (forall s, exists e, f x s = (Throw e, s)) ->
  forall s, exists e s', mapM f l s = (Throw e, s').
Proof.
  intros Hx Hf. induction l as [|y l IH]; intros s.
  - exfalso. eapply not_elem_of_nil. exact Hx.
  - rewrite mapM_unfold. apply elem_of_cons in Hx as [<-|Hx].
    + destruct (Hf s) as [e ->]. eauto.
    + destruct (f y s) as [[b|e] s1]; [|eauto].
      destruct (IH Hx s1) as (e & s' & ->). eauto.
Qed.

(** X18. [object(dict)] whose fields have distinct names and no [transform]
    and no [dict] in them throws, on a plain object, when a field marked
    required, whose name is not that of a member of [Object.prototype],
    names a property that the object lacks or holds as null or undefined.
    The fields are [regular]: they look nothing up in [Object.prototype]. *)
Theorem object_missing_required_field (dict : list (string * Schema)) (m : Meta) (l : loc)
    (entries : props) (key : string) (schema : Schema) (strict : bool) (s : state) :
  heap_of s !! l = Some (OObj entries) ->
  forallb (fun kv => readonly (snd kv)) dict = true ->
  forallb (fun kv => regular (snd kv)) dict = true ->
  NoDup (map fst dict) ->
  (key, schema) ∈ dict ->
  inherited key = false ->
  meta_required (meta schema) = true ->
  isNullable (props_read key entries) = true ->
  exists e s', resolve (VRef l) (Some (Sobject dict m)) strict s = (Throw e, s').
Proof.
  intros Hl Hro _ _ Hin _ Hrequired Hmissing.
  pose proof (object_resolve_invoke dict m l entries strict s Hl Hro) as Hrun.
  destruct (mapM_throws (fun kv => invoke (snd kv) (props_read (fst kv) entries)) dict
              (key, schema) Hin) with (s := set_current (Some (Sobject dict m)) s)
    as (e & s2 & Hmap).
  { intros t. cbn [fst snd]. rewrite invoke_unfold.
    destruct (resolve_schema_unfold schema) as [callback ->].
    rewrite resolve_with_nullable, Hrequired by exact Hmissing. eauto. }
  rewrite Hmap in Hrun. destruct Hrun as [e' Hres]. eauto.
Qed.

Lemma object_missing_required_field_witness :
  exists e s',
    resolve (VRef 0) (Some (Sobject [("c", required Schema.number)] empty_meta)) false
      (initial [input_a1_b2]) = (Throw e, s').
Proof.
  apply (object_missing_required_field [("c", required Schema.number)] empty_meta 0
           [("a", VNum 1); ("b", VNum 2)] "c" (required Schema.number) false
           (initial [input_a1_b2]) eq_refl eq_refl eq_refl).
  - apply (bool_decide_unpack (NoDup ["c"])). reflexivity.
  - apply list_elem_of_here.
  - reflexivity.
  - reflexivity.
  - reflexivity.
Defined.

(** The loop of the array resolver calls [inner] on the elements in turn. *)
Lemma array_loop_invoke (l : loc) (elems : list value) (inner : Schema) :
  readonly inner = true ->
  forall (rest : list value) (k : nat) (s : state),
    heap_of s !! l = Some (OArr elems) ->
    drop k elems = rest ->
    mapM (fun index => property (VRef l) (KIdx index) (resolve_schema inner))
      (seq k (length rest)) s
    = mapM (invoke inner) rest s.
Proof.
  intros Hro. induction rest as [|x rest IH]; intros k s Hl Hdrop; [reflexivity|].
  cbn [length seq]. rewrite !mapM_unfold, property_invoke by exact Hro.
  assert (Hx : elems !! k = Some x).
  { rewrite <- (Nat.add_0_r k), <- lookup_drop, Hdrop. reflexivity. }
  cbn [heap_read]. rewrite Hl. cbn [obj_read]. rewrite Hx.
  pose proof (invoke_grows inner x s Hro) as Hgrow.
  destruct (invoke inner x s) as [[v|e] s1]; [|reflexivity]. cbn [snd] in Hgrow.
  rewrite (IH (S k) s1); [reflexivity| |].
  - eapply prefix_lookup_Some; eassumption.
  - rewrite <- (Nat.add_1_r k), <- drop_drop, Hdrop. reflexivity.
Qed.

(** X19. [array(inner)] with no [transform] and no [dict] in [inner], on an
    array: [inner] is called on the elements in turn, each from the state
    the one before left. When they all return, the result is a new array of
    what they returned, in order, and the input is as it was; when one
    throws, [resolve] throws, in the state that one left. The schema
    [inner] is [regular]: it looks nothing up in [Object.prototype]. *)
Theorem array_resolves_each_element (inner : Schema) (m : Meta) (l : loc)
    (elems : list value) (hint : bool) (s : state) :
  heap_of s !! l = Some (OArr elems) ->
  readonly inner = true ->
  regular inner = true ->
  (forall result s2,
     mapM (invoke inner) elems (set_current (Some (Sarray inner m)) s) = (Ok result, s2) ->
     resolve (VRef l) (Some (Sarray inner m)) hint s
     = (Ok (VRef (length (heap_of s2)), VUndefined),
        set_current (current s) (set_heap (heap_of s2 ++ [OArr result])%list s2))
     /\ heap_of s2 !! l = Some (OArr elems))
  /\ (forall e s2,
        mapM (invoke inner) elems (set_current (Some (Sarray inner m)) s) = (Throw e, s2) ->
        exists e', resolve (VRef l) (Some (Sarray inner m)) hint s
                   = (Throw e', set_current (current s) s2)).
Proof.
  intros Hl Hro _. set (s0 := set_current (Some (Sarray inner m)) s).
  assert (Hrun : resolve_array (resolve_schema inner) (VRef l) hint s0
                 = (result ← mapM (invoke inner) elems;
                    array ← alloc (OArr result); mret (array, VUndefined)) s0).
  { assert (Hl0 : heap_of s0 !! l = Some (OArr elems)) by exact Hl.
    unfold resolve_array. rewrite bind_unfold. cbn [get_heap isArray elements].
    rewrite Hl0. cbn [negb]. rewrite !bind_unfold.
    rewrite (array_loop_invoke l elems inner Hro elems 0 s0 Hl0 eq_refl). reflexivity. }
  cbn [resolve resolve_schema]. subst s0. split.
  - intros result s2 Hmap. rewrite bind_unfold, Hmap in Hrun. split.
    + apply resolve_with_ok; [reflexivity|]. rewrite Hrun. reflexivity.
    + assert (Hgrow : forall (xs : list value) (t t' : state) (vs : list value),
                mapM (invoke inner) xs t = (Ok vs, t') -> heap_of t `prefix_of` heap_of t').
      { induction xs as [|x xs IH]; intros t t' vs H.
        - cbn in H. injection H as <- <-. reflexivity.
        - rewrite mapM_unfold in H. pose proof (invoke_grows inner x t Hro) as Hg.
          destruct (invoke inner x t) as [[v|e0] t1]; [|discriminate].
          destruct (mapM (invoke inner) xs t1) as [[ws|e0] t2] eqn:Hrest; [|discriminate].
          injection H as <- <-. etrans; [exact Hg|]. exact (IH _ _ _ Hrest). }
      eapply prefix_lookup_Some; [exact Hl|]. exact (Hgrow _ _ _ _ Hmap).
  - intros e s2 Hmap. rewrite bind_unfold, Hmap in Hrun.
    exact (resolve_with_throws _ _ (VRef l) hint s e s2 eq_refl Hrun).
Qed.

Lemma array_resolves_each_element_witness :
  resolve (VRef 0) (Some (Sarray (default (VStr "d") Schema.string) empty_meta)) false
    (initial [OArr [VNull; VStr "e"]])
  = (Ok (VRef 1, VUndefined), initial [OArr [VNull; VStr "e"]; OArr [VStr "d"; VStr "e"]])
  /\ [OArr [VNull; VStr "e"]] !! 0 = Some (OArr [VNull; VStr "e"]).
Proof.
  exact (proj1 (array_resolves_each_element (default (VStr "d") Schema.string) empty_meta 0
                  [VNull; VStr "e"] false (initial [OArr [VNull; VStr "e"]])
                  eq_refl eq_refl eq_refl)
           [VStr "d"; VStr "e"]
           {| heap_of := [OArr [VNull; VStr "e"]];
              current := Some (Sarray (default (VStr "d") Schema.string) empty_meta) |}
           eq_refl).
Defined.

(** ** The containers a resolution returns are new *)

Lemma heap_write_length (h : heap) (data : value) (key : pkey) (v : value) :
  length (heap_write h data key v) = length h.
Proof.
  unfold heap_write. destruct data; try reflexivity.
  destruct (h !! l); [apply length_insert|reflexivity].
Qed.

Lemma heap_delete_length (h : heap) (data : value) (key : string) :
  length (heap_delete h data key) = length h.
Proof.
  unfold heap_delete. destruct data; try reflexivity.
  destruct (h !! l); [apply length_insert|reflexivity].
Qed.

Lemma apply_effects_length (effects : list effect) (h : heap) :
  length h <= length (fold_left apply_effect effects h).
Proof.
  revert h. induction effects as [|e effects IH]; intros h; cbn [fold_left]; [lia|].
  etrans; [|apply IH]. destruct e; cbn [apply_effect].
  - rewrite heap_write_length. lia.
  - rewrite heap_delete_length. lia.
  - rewrite length_app. lia.
Qed.

Lemma at_least_invariant (n : nat) : invariant (at_least n) any_value.
Proof.
  split; try (intros; exact I).
  - intros s data key v Hn _ _. unfold at_least in *. cbn. rewrite heap_write_length. exact Hn.
  - intros s data key Hn _. unfold at_least in *. cbn. rewrite heap_delete_length. exact Hn.
  - intros s o Hn _. split; [|exact I]. unfold at_least in *. cbn. rewrite length_app. lia.
  - intros. apply Forall_forall. intros; exact I.
  - intros. apply Forall_forall. intros; exact I.
Qed.

Lemma call_at_least (n : nat) (callback : Callback) :
  sound_call (at_least n) any_value callback.
Proof.
  intros v _ s Hn. split; [|intros; exact I]. unfold call, at_least in *.
  destruct (callback v (heap_of s)) as [outcome effects].
  pose proof (apply_effects_length effects (heap_of s)) as Hlen.
  destruct outcome; cbn; lia.
Qed.

Lemma schema_ok_at_least (n : nat) (schema : Schema) :
  schema_ok (at_least n) any_value schema.
Proof.
  induction schema using Schema_ind; (split; [exact I|]); try exact I; try assumption.
  - split; assumption.
  - induction H; cbn; auto.
  - induction H; cbn; auto.
  - induction H; cbn; auto.
  - induction H; cbn; auto.
  - split; [assumption|apply call_at_least].
Qed.

(** Resolving never makes the heap shorter. *)
Lemma resolve_schema_at_least (n : nat) (schema : Schema) :
  sound (at_least n) any_value (resolve_schema schema).
Proof.
  apply sound_resolve_schema.
  - apply at_least_invariant.
  - intros c s H. exact H.
  - apply schema_ok_at_least.
Qed.

Lemma Forall_at_least (n : nat) (lst : list Schema) :
  Forall (sound (at_least n) any_value) (map resolve_schema lst).
Proof.
  apply Forall_map, list.Forall_forall. intros x _. apply resolve_schema_at_least.
Qed.

Lemma Forall_fields_at_least (n : nat) (dict : list (string * Schema)) :
  Forall (fun kv : string * Resolve => sound (at_least n) any_value (snd kv))
    (map (fun kv => (fst kv, resolve_schema (snd kv))) dict).
Proof.
  apply Forall_map, list.Forall_forall. intros x _. apply resolve_schema_at_least.
Qed.

Lemma good_props_any (ps : props) : good_props any_value ps.
Proof. apply list.Forall_forall. intros; exact I. Qed.

Lemma builds_new_container (schema : Schema) (data : value) (hint : bool)
    (s s' : state) (r a : value) :
  isNullable data = false ->
  resolve data (Some schema) hint s = (Ok (r, a), s') ->
  (builds_array schema = true ->
   exists (h : heap) (elems : list value),
     heap_of s' = (h ++ [OArr elems])%list /\ r = VRef (length h) /\ a = VUndefined
     /\ length (heap_of s) <= length h)
  /\ (builds_object schema = true ->
      exists (h : heap) (entries : props),
        heap_of s' = (h ++ [OObj entries])%list /\ r = VRef (length h) /\ a = VUndefined
        /\ length (heap_of s) <= length h).
Proof.
  intros Hnull H. set (n := length (heap_of s)).
  assert (Hn : at_least n (set_current (Some schema) s)) by (unfold at_least; cbn; lia).
  pose proof (at_least_invariant n) as HInv.
  split; intros Hkind;
    destruct schema as [m|m|v m|m|m|m|c m|inner m|inner sKey m|lst m|dict m|lst m|lst m
                       |inner c m|t m]; try discriminate Hkind; clear Hkind;
    cbn [resolve resolve_schema] in H;
    destruct (resolve_with_returns _ _ _ _ _ _ _ Hnull H) as (s1 & Hrun & ->); clear H;
    cbn [heap_of set_current].
  - (* array *)
    unfold resolve_array in Hrun. rewrite bind_unfold in Hrun. cbn [get_heap] in Hrun.
    destruct (negb (isArray _ data)).
    { destruct (expected_array_throws (A := value * value) data
                  (set_current (Some (Sarray inner m)) s)) as (e & He).
      rewrite He in Hrun. discriminate. }
    rewrite bind_unfold in Hrun.
    match type of Hrun with context [mapM ?f ?l ?s0] =>
      pose proof (keeps_mapM (at_least n) any_value f l
                    (fun index => keeps_property _ _ HInv data (KIdx index) _ I
                                    (resolve_schema_at_least n inner)) s0 Hn) as [Hn2 _];
      destruct (mapM f l s0) as [[result|e] s2]; [|discriminate]
    end.
    cbn in Hrun. injection Hrun as <- <- <-. exists (heap_of s2), result.
    repeat split. exact Hn2.
  - (* tuple *)
    unfold resolve_tuple in Hrun. rewrite bind_unfold in Hrun. cbn [get_heap] in Hrun.
    destruct (negb (isArray _ data)).
    { destruct (expected_array_throws (A := value * value) data
                  (set_current (Some (Stuple lst m)) s)) as (e & He).
      rewrite He in Hrun. discriminate. }
    rewrite bind_unfold in Hrun.
    pose proof (keeps_tuple_loop _ _ HInv _ data 0 (Forall_at_least n lst) I _ Hn)
      as [Hn2 _].
    destruct (tuple_loop (map resolve_schema lst) data 0 _) as [[result|e] s2];
      [|discriminate].
    destruct hint; cbn in Hrun; injection Hrun as <- <- <-; eexists (heap_of s2), _;
      repeat split; exact Hn2.
  - (* dict *)
    unfold resolve_dict in Hrun. rewrite bind_unfold in Hrun. cbn [get_heap] in Hrun.
    destruct (negb (isObject _ data)).
    { destruct (expected_object_throws (A := value * value) data
                  (set_current (Some (Sdict inner sKey m)) s)) as (e & He).
      rewrite He in Hrun. discriminate. }
    rewrite bind_unfold in Hrun.
    match type of Hrun with context [for_in ?d ?body ?acc ?s0] =>
      pose proof (keeps_for_in (at_least n) (good_props any_value) d body acc
                    (fun key acc0 Hacc =>
                       keeps_dict_body _ _ HInv _ _ hint data key acc0
                         (resolve_schema_at_least n inner)
                         (resolve_schema_at_least n sKey) I Hacc)
                    (good_props_any []) s0 Hn) as [Hn2 _];
      destruct (for_in d body acc s0) as [[result|e] s2]; [|discriminate]
    end.
    cbn in Hrun. injection Hrun as <- <- <-. exists (heap_of s2), result.
    repeat split. exact Hn2.
  - (* object *)
    unfold resolve_object in Hrun. rewrite bind_unfold in Hrun. cbn [get_heap] in Hrun.
    destruct (negb (isObject _ data)).
    { destruct (expected_object_throws (A := value * value) data
                  (set_current (Some (Sobject dict m)) s)) as (e & He).
      rewrite He in Hrun. discriminate. }
    rewrite bind_unfold in Hrun.
    pose proof (keeps_object_loop _ _ HInv _ data [] (Forall_fields_at_least n dict) I
                  (good_props_any []) _ Hn) as [Hn2 _].
    destruct (object_loop _ data [] _) as [[result|e] s2]; [|discriminate].
    cbn [snd] in Hn2. rewrite bind_unfold in Hrun.
    destruct hint.
    + cbn in Hrun. injection Hrun as <- <- <-. exists (heap_of s2), result.
      repeat split. exact Hn2.
    + destruct (merge_state result data s2) as [result' Hmerge]. rewrite Hmerge in Hrun.
      cbn in Hrun. injection Hrun as <- <- <-. exists (heap_of s2), result'.
      repeat split. exact Hn2.
  - (* intersect *)
    unfold resolve_intersect in Hrun. rewrite bind_unfold in Hrun.
    pose proof (keeps_intersect_loop _ _ HInv _ data [] (Forall_at_least n lst) I
                  (good_props_any []) _ Hn) as [Hn2 _].
    destruct (intersect_loop _ data [] _) as [[result|e] s2]; [|discriminate].
    cbn [snd] in Hn2. rewrite bind_unfold in Hrun. cbn [get_heap] in Hrun.
    rewrite bind_unfold in Hrun.
    destruct (isObject (heap_of s2) data).
    + destruct (merge_state result data s2) as [result' Hmerge]. rewrite Hmerge in Hrun.
      cbn in Hrun. injection Hrun as <- <- <-. exists (heap_of s2), result'.
      repeat split. exact Hn2.
    + cbn in Hrun. injection Hrun as <- <- <-. exists (heap_of s2), result.
      repeat split. exact Hn2.
Qed.

(** X20. [array] and [tuple] return an array, [dict], [object] and [intersect]
    a plain object, that did not exist before: for non-null data the value
    returned is never the data itself nor any container of the heap
    resolution began with, also when the data is a primitive that an
    [intersect] accepts. There is no adapted echo. *)
Theorem container_kinds_return_new (schema : Schema) (data : value) (hint : bool)
    (s s' : state) (r a : value) :
  isNullable data = false ->
  builds_array schema || builds_object schema = true ->
  resolve data (Some schema) hint s = (Ok (r, a), s') ->
  a = VUndefined
  /\ exists (l : loc) (o : obj),
       r = VRef l /\ heap_of s !! l = None /\ heap_of s' !! l = Some o
       /\ match o with
          | OArr _ => builds_array schema = true
          | OObj _ => builds_object schema = true
          end.
Proof.
  intros Hnull Hkind H.
  destruct (builds_new_container schema data hint s s' r a Hnull H) as [Harray Hobject].
  destruct (builds_array schema) eqn:Hbuilds.
  - destruct (Harray eq_refl) as (h & elems & Hheap & -> & -> & Hlen).
    split; [reflexivity|]. exists (length h), (OArr elems).
    split; [reflexivity|]. split; [apply lookup_ge_None; exact Hlen|].
    split; [|reflexivity]. rewrite Hheap. apply list_lookup_middle. reflexivity.
  - cbn [orb] in Hkind.
    destruct (Hobject Hkind) as (h & entries & Hheap & -> & -> & Hlen).
    split; [reflexivity|]. exists (length h), (OObj entries).
    split; [reflexivity|]. split; [apply lookup_ge_None; exact Hlen|].
    split; [|exact Hkind]. rewrite Hheap. apply list_lookup_middle. reflexivity.
Qed.

Lemma container_kinds_return_new_witness :
  VUndefined = VUndefined
  /\ exists (l : loc) (o : obj),
       VRef 0 = VRef l /\ (@nil obj) !! l = None
       /\ [OObj [("0", VStr "a"); ("1", VStr "b")]] !! l = Some o
       /\ match o with
          | OArr _ => builds_array intersect_string = true
          | OObj _ => builds_object intersect_string = true
          end.
Proof.
  exact (container_kinds_return_new intersect_string (VStr "ab") false (initial [])
           (initial [OObj [("0", VStr "a"); ("1", VStr "b")]]) (VRef 0) VUndefined
           eq_refl eq_refl eq_refl).
Defined.

(** The loop of the tuple resolver over quiet resolvers: position by
    position, each resolves the element of the data at its index. *)
Lemma hd_drop (k : nat) (xs : list value) :
  hd VUndefined (drop k xs) = match xs !! k with Some v => v | None => VUndefined end.
Proof.
  revert k. induction xs as [|x xs IH]; intros [|k]; cbn; try reflexivity. apply IH.
Qed.

Lemma tl_drop (k : nat) (xs : list value) : tl (drop k xs) = drop (S k) xs.
Proof.
  revert k. induction xs as [|x xs IH]; intros [|k]; cbn; try reflexivity. apply IH.
Qed.

(** The loop of the tuple resolver calls the listed schemas in turn. *)
Lemma tuple_loop_invoke (l : loc) (elems : list value) (lst : list Schema) :
  forallb readonly lst = true ->
  forall (k : nat) (s : state),
    heap_of s !! l = Some (OArr elems) ->
    tuple_loop (map resolve_schema lst) (VRef l) k s = invoke_each lst (drop k elems) s
    /\ heap_of s `prefix_of` heap_of (snd (invoke_each lst (drop k elems) s)).
Proof.
  induction lst as [|schema lst IH]; intros Hro k s Hl; [split; reflexivity|].
  cbn [forallb] in Hro. apply andb_true_iff in Hro as [Hschema Hro].
  cbn [map tuple_loop invoke_each]. rewrite !bind_unfold, property_invoke by exact Hschema.
  cbn [heap_read]. rewrite Hl. cbn [obj_read]. rewrite hd_drop, tl_drop.
  pose proof (invoke_grows schema (match elems !! k with Some v => v | None => VUndefined end)
                s Hschema) as Hgrow.
  destruct (invoke schema (match elems !! k with Some v => v | None => VUndefined end) s)
    as [[v|e] s1]; [|split; [reflexivity|exact Hgrow]].
  cbn [snd] in Hgrow.
  assert (Hl1 : heap_of s1 !! l = Some (OArr elems))
    by (eapply prefix_lookup_Some; eassumption).
  destruct (IH Hro (S k) s1 Hl1) as [Hloop Hgrow']. rewrite !bind_unfold, Hloop.
  destruct (invoke_each lst (drop (S k) elems) s1) as [[vs|e] s2];
    (split; [reflexivity|etrans; eassumption]).
Qed.

Lemma invoke_each_length (lst : list Schema) (xs : list value) (s s' : state)
    (vs : list value) :
  invoke_each lst xs s = (Ok vs, s') -> length vs = length lst.
Proof.
  revert xs s vs. induction lst as [|schema lst IH]; intros xs s vs H.
  - cbn in H. injection H as <- <-. reflexivity.
  - cbn [invoke_each] in H. rewrite bind_unfold in H.
    destruct (invoke schema (hd VUndefined xs) s) as [[v|e] s1]; [|discriminate].
    rewrite bind_unfold in H.
    destruct (invoke_each lst (tl xs) s1) as [[ws|e] s2] eqn:Hrest; [|discriminate].
    injection H as <- <-. cbn. f_equal. exact (IH _ _ _ Hrest).
Qed.

(** X21. [tuple(list)] with no [transform] and no [dict] in its schemas, on an
    array: the listed schemas are called in turn, each on the element of
    the input at its position, or on [undefined] where the input is too
    short. When they all return, the result is a new array that begins
    with what they returned, in order; in lenient mode the elements of the
    input beyond the listed ones follow as they are, in strict mode nothing
    follows; the input is as it was. When one throws, [resolve] throws, in
    the state that one left. The listed schemas are [regular]: they look
    nothing up in [Object.prototype]. *)
Theorem tuple_resolves_each_position (lst : list Schema) (m : Meta) (l : loc)
    (elems : list value) (strict : bool) (s : state) :
  heap_of s !! l = Some (OArr elems) ->
  forallb readonly lst = true ->
  forallb regular lst = true ->
  (forall vs s2,
     invoke_each lst elems (set_current (Some (Stuple lst m)) s) = (Ok vs, s2) ->
     resolve (VRef l) (Some (Stuple lst m)) strict s
     = (Ok (VRef (length (heap_of s2)), VUndefined),
        set_current (current s)
          (set_heap (heap_of s2 ++ [OArr (vs ++ if strict then []
                                                else drop (length lst) elems)])%list s2))
     /\ length vs = length lst
     /\ heap_of s2 !! l = Some (OArr elems))
  /\ (forall e s2,
        invoke_each lst elems (set_current (Some (Stuple lst m)) s) = (Throw e, s2) ->
        exists e', resolve (VRef l) (Some (Stuple lst m)) strict s
                   = (Throw e', set_current (current s) s2)).
Proof.
  intros Hl Hro _.
  assert (Hl0 : heap_of (set_current (Some (Stuple lst m)) s) !! l = Some (OArr elems))
    by exact Hl.
  destruct (tuple_loop_invoke l elems lst Hro 0 _ Hl0) as [Hloop Hgrow].
  rewrite drop_0 in Hloop, Hgrow.
  assert (Hrun : resolve_tuple (map resolve_schema lst) (VRef l) strict
                   (set_current (Some (Stuple lst m)) s)
                 = (result ← invoke_each lst elems;
                    if strict then array ← alloc (OArr result); mret (array, VUndefined)
                    else
                      h' ← get_heap;
                      array ← alloc (OArr (result ++ drop (length (map resolve_schema lst))
                                                       (elements h' (VRef l)))%list);
                      mret (array, VUndefined))
                     (set_current (Some (Stuple lst m)) s)).
  { unfold resolve_tuple. rewrite bind_unfold. cbn [get_heap isArray].
    rewrite Hl0. cbn [negb]. rewrite !bind_unfold, Hloop. reflexivity. }
  cbn [resolve resolve_schema]. split.
  - intros vs s2 Hmap. rewrite Hmap in Hgrow. cbn [snd] in Hgrow.
    assert (Hl2 : heap_of s2 !! l = Some (OArr elems))
      by (eapply prefix_lookup_Some; [exact Hl0|exact Hgrow]).
    rewrite bind_unfold, Hmap in Hrun. split; [|split].
    + apply resolve_with_ok; [reflexivity|]. rewrite Hrun. destruct strict.
      * rewrite app_nil_r. reflexivity.
      * rewrite bind_unfold. cbn [get_heap elements]. rewrite Hl2, length_map. reflexivity.
    + exact (invoke_each_length _ _ _ _ _ Hmap).
    + exact Hl2.
  - intros e s2 Hmap. rewrite bind_unfold, Hmap in Hrun.
    exact (resolve_with_throws _ _ (VRef l) strict s e s2 eq_refl Hrun).
Qed.

Lemma tuple_resolves_each_position_witness :
  resolve (VRef 0) (Some (Stuple [Schema.number; default (VStr "d") Schema.string] empty_meta))
    false (initial [OArr [VNum 1]])
  = (Ok (VRef 1, VUndefined), initial [OArr [VNum 1]; OArr [VNum 1; VStr "d"]])
  /\ length [VNum 1; VStr "d"] = 2
  /\ [OArr [VNum 1]] !! 0 = Some (OArr [VNum 1]).
Proof.
  exact (proj1 (tuple_resolves_each_position
                  [Schema.number; default (VStr "d") Schema.string]
                  empty_meta 0 [VNum 1] false (initial [OArr [VNum 1]])
                  eq_refl eq_refl eq_refl)
           [VNum 1; VStr "d"]
           {| heap_of := [OArr [VNum 1]];
              current := Some (Stuple [Schema.number; default (VStr "d") Schema.string]
                                 empty_meta) |}
           eq_refl).
Defined.

(** ** Transforms adapt the input in place *)

Lemma set_heap_same (s : state) : set_heap (heap_of s) s = s.
Proof. destruct s; reflexivity. Qed.

Lemma is_literal_not_null (x : value) : is_literal x = true -> isNullable x = false.
Proof. destruct x; try discriminate; reflexivity. Qed.

Lemma is_literal_not_object (h : heap) (x : value) : is_literal x = true -> isObject h x = false.
Proof. destruct x; try discriminate; reflexivity. Qed.

(** A transform of a leaf schema with a callback that computes [f] and
    does nothing else, on a string, number or boolean: the value and the
    adapted echo are both [f] of the data. *)
Lemma transform_literal (inner : Schema) (callback : Callback) (f : value -> value)
    (m : Meta) (x : value) (hint : bool) (t t' : state) (v a : value) :
  is_leaf inner = true ->
  (forall v h, callback v h = (Return (f v), [])) ->
  is_literal x = true ->
  resolve_schema (Stransform inner callback m) x hint t = (Ok (v, a), t') ->
  v = f x /\ a = f x /\ t' = t.
Proof.
  intros Hleaf Hpure Hx H. cbn [resolve_schema] in H.
  destruct (resolve_with_returns _ _ _ _ _ _ _ (is_literal_not_null x Hx) H)
    as (t1 & Hrun & ->). clear H.
  unfold resolve_transform in Hrun. rewrite bind_unfold in Hrun.
  set (t0 := set_current (Some (Stransform inner callback m)) t) in *.
  destruct (resolve_schema inner x true t0) as [[[res ad]|e] t2] eqn:Hinner; [|discriminate].
  destruct (leaf_returns_data inner Hleaf) as (cb & Hunfold & Hcb).
  rewrite Hunfold in Hinner.
  destruct (resolve_with_returns_data _ _ _ _ _ _ _ _ Hcb (is_literal_not_null x Hx) Hinner)
    as (-> & -> & ->).
  rewrite bind_unfold in Hrun. cbn [get_heap] in Hrun.
  rewrite (is_literal_not_object _ x Hx) in Hrun.
  rewrite bind_unfold in Hrun. unfold call at 1 in Hrun. rewrite Hpure in Hrun.
  cbn [fold_left] in Hrun. rewrite set_heap_same in Hrun.
  rewrite bind_unfold in Hrun. unfold call at 1 in Hrun. rewrite Hpure in Hrun.
  cbn [fold_left] in Hrun. rewrite set_heap_same in Hrun.
  cbn in Hrun. injection Hrun as <- <- <-. subst t0.
  rewrite set_current_restore. auto.
Qed.

Lemma array_transform_loop (inner : Schema) (callback : Callback) (f : value -> value)
    (m : Meta) (l : loc) (h : heap) :
  is_leaf inner = true ->
  (forall v h, callback v h = (Return (f v), [])) ->
  l < length h ->
  forall (rest done : list value) (t t' : state) (vs : list value),
    heap_of t
    = <[l := OArr (map (fun x => if isNullable (f x) then x else f x) done ++ rest)%list]> h ->
    Forall (fun x => is_literal x = true) rest ->
    mapM (fun index => property (VRef l) (KIdx index)
                         (resolve_schema (Stransform inner callback m)))
      (seq (length done) (length rest)) t = (Ok vs, t') ->
    vs = map f rest
    /\ heap_of t'
       = <[l := OArr (map (fun x => if isNullable (f x) then x else f x)
                        (done ++ rest)%list)]> h.
Proof.
  intros Hleaf Hpure Hbound. set (g := fun x => if isNullable (f x) then x else f x).
  induction rest as [|x rest IH]; intros done t t' vs Hheap Hrest Hmap.
  - cbn in Hmap. injection Hmap as <- <-. split; [reflexivity|].
    rewrite Hheap, !app_nil_r. reflexivity.
  - apply list.Forall_cons in Hrest as [Hx Hrest].
    cbn [length seq] in Hmap. rewrite mapM_unfold in Hmap.
    assert (Hl : heap_of t !! l = Some (OArr (map g done ++ x :: rest)%list)).
    { rewrite Hheap. apply list_lookup_insert_eq. exact Hbound. }
    assert (Hread : (map g done ++ x :: rest)%list !! length done = Some x).
    { rewrite lookup_app_r by (rewrite length_map; lia).
      rewrite length_map, Nat.sub_diag. reflexivity. }
    unfold property at 1 in Hmap. rewrite bind_unfold in Hmap.
    cbn [get_property heap_read] in Hmap. rewrite Hl in Hmap. cbn [obj_read] in Hmap.
    rewrite Hread in Hmap. rewrite bind_unfold in Hmap.
    destruct (resolve_schema (Stransform inner callback m) x false t)
      as [[[v a]|e] t1] eqn:Hrun; [|discriminate].
    destruct (transform_literal _ _ _ _ _ _ _ _ _ _ Hleaf Hpure Hx Hrun) as (-> & -> & ->).
    assert (Hstep : forall t1,
              heap_of t1 = <[l := OArr (map g (done ++ [x]) ++ rest)%list]> h ->
              mapM (fun index => property (VRef l) (KIdx index)
                                   (resolve_schema (Stransform inner callback m)))
                (seq (S (length done)) (length rest)) t1 = (Ok (map f rest), t') ->
              heap_of t' = <[l := OArr (map g (done ++ x :: rest)%list)]> h).
    { intros t1 Hheap1 Hmap1.
      destruct (IH (done ++ [x])%list t1 t' (map f rest) Hheap1 Hrest) as [_ Hfinal].
      - rewrite length_app. cbn [length]. rewrite Nat.add_1_r. exact Hmap1.
      - rewrite Hfinal, <- app_assoc. reflexivity. }
    assert (Hvs : forall t1 ws,
              heap_of t1 = <[l := OArr (map g (done ++ [x]) ++ rest)%list]> h ->
              mapM (fun index => property (VRef l) (KIdx index)
                                   (resolve_schema (Stransform inner callback m)))
                (seq (S (length done)) (length rest)) t1 = (Ok ws, t') ->
              ws = map f rest).
    { intros t1 ws Hheap1 Hmap1.
      destruct (IH (done ++ [x])%list t1 t' ws Hheap1 Hrest) as [Hws _]; [|exact Hws].
      rewrite length_app. cbn [length]. rewrite Nat.add_1_r. exact Hmap1. }
    destruct (isNullable (f x)) eqn:Hnull.
    + cbn [mret M_ret] in Hmap.
      assert (Hheap1 : heap_of t = <[l := OArr (map g (done ++ [x]) ++ rest)%list]> h).
      { rewrite Hheap, map_app, <- app_assoc. cbn [map app].
        replace (g x) with x by (unfold g; rewrite Hnull; reflexivity). reflexivity. }
      destruct (mapM (fun index => property (VRef l) (KIdx index)
                                    (resolve_schema (Stransform inner callback m)))
                  (seq (S (length done)) (length rest)) t) as [[ws|e] t2] eqn:Hrem;
        [|discriminate].
      injection Hmap as <- <-.
      pose proof (Hvs t ws Hheap1 Hrem) as ->. split; [reflexivity|].
      exact (Hstep t Hheap1 Hrem).
    + rewrite bind_unfold in Hmap. cbn [set_property modify] in Hmap.
      set (t1 := set_heap (heap_write (heap_of t) (VRef l) (KIdx (length done)) (f x)) t) in *.
      assert (Hheap1 : heap_of t1 = <[l := OArr (map g (done ++ [x]) ++ rest)%list]> h).
      { subst t1. cbn [heap_of set_heap heap_write]. rewrite Hl. cbn [obj_write].
        rewrite decide_True by (apply lookup_lt_Some with x; exact Hread).
        rewrite Hheap, list_insert_insert_eq. f_equal. f_equal.
        rewrite insert_app_r_alt by (rewrite length_map; lia).
        rewrite length_map, Nat.sub_diag, map_app, <- app_assoc. cbn [map app].
        replace (g x) with (f x) by (unfold g; rewrite Hnull; reflexivity). reflexivity. }
      cbn [mret M_ret] in Hmap.
      destruct (mapM (fun index => property (VRef l) (KIdx index)
                                    (resolve_schema (Stransform inner callback m)))
                  (seq (S (length done)) (length rest)) t1) as [[ws|e] t2] eqn:Hrem;
        [|discriminate].
      injection Hmap as <- <-.
      pose proof (Hvs t1 ws Hheap1 Hrem) as ->. split; [reflexivity|].
      exact (Hstep t1 Hheap1 Hrem).
Qed.

(** X22. [array(transform(inner, callback))], for a leaf schema [inner] and a
    callback that computes [f] and does nothing else, on an array of
    strings, numbers and booleans it resolves: the array returned holds [f]
    of each element, and the input array has been overwritten with them too,
    an element being kept only where [f] of it is null or undefined. *)
Theorem array_transform_adapts_input (inner : Schema) (callback : Callback)
    (f : value -> value) (m1 m : Meta) (l : loc) (elems : list value) (hint : bool)
    (s s' : state) (r a : value) :
  is_leaf inner = true ->
  (forall v h, callback v h = (Return (f v), [])) ->
  heap_of s !! l = Some (OArr elems) ->
  Forall (fun x => is_literal x = true) elems ->
  resolve (VRef l) (Some (Sarray (Stransform inner callback m1) m)) hint s = (Ok (r, a), s') ->
  heap_of s'
  = (<[l := OArr (map (fun x => if isNullable (f x) then x else f x) elems)]> (heap_of s)
     ++ [OArr (map f elems)])%list
  /\ r = VRef (length (heap_of s)) /\ a = VUndefined.
Proof.
  intros Hleaf Hpure Hl Helems H. cbn [resolve resolve_schema] in H.
  destruct (resolve_with_returns _ _ (VRef l) _ _ _ _ eq_refl H) as (s1 & Hrun & ->).
  clear H. unfold resolve_array in Hrun. rewrite bind_unfold in Hrun.
  cbn [get_heap heap_of set_current isArray elements] in Hrun. rewrite Hl in Hrun.
  cbn [negb] in Hrun. rewrite bind_unfold in Hrun.
  destruct (mapM (fun index => property (VRef l) (KIdx index)
                                 (resolve_with (Stransform inner callback m1)
                                    (Some (resolve_transform (resolve_schema inner) callback))))
              (seq 0 (length elems))
              (set_current (Some (Sarray (Stransform inner callback m1) m)) s))
    as [[result|e] s2] eqn:Hmap; [|discriminate].
  destruct (array_transform_loop inner callback f m1 l (heap_of s) Hleaf Hpure
              (lookup_lt_Some _ _ _ Hl) elems []
              (set_current (Some (Sarray (Stransform inner callback m1) m)) s) s2 result)
    as [-> Hheap].
  - cbn [heap_of set_current map app]. symmetry. apply list_insert_id. exact Hl.
  - exact Helems.
  - exact Hmap.
  - cbn in Hrun. injection Hrun as <- <- <-. cbn [heap_of set_current set_heap].
    rewrite Hheap. cbn [app]. rewrite length_insert. auto.
Qed.

Lemma array_transform_adapts_input_witness :
  [OArr [VNum 2; VNum 3]; OArr [VNum 2; VNum 3]]
  = (<[0 := OArr (map (fun x => if isNullable (incremented x) then x else incremented x)
                    [VNum 1; VNum 2])]> [OArr [VNum 1; VNum 2]]
     ++ [OArr (map incremented [VNum 1; VNum 2])])%list
  /\ VRef 1 = VRef (length [OArr [VNum 1; VNum 2]]) /\ VUndefined = VUndefined.
Proof.
  apply (array_transform_adapts_input Schema.number increment incremented
           empty_meta empty_meta 0 [VNum 1; VNum 2] false (initial [OArr [VNum 1; VNum 2]])
           (initial [OArr [VNum 2; VNum 3]; OArr [VNum 2; VNum 3]]) (VRef 1) VUndefined).
  - reflexivity.
  - intros v h. destruct v; reflexivity.
  - reflexivity.
  - repeat constructor.
  - reflexivity.
Defined.

(** ** The entries of a dict *)

Lemma props_delete_set (key : string) (v : value) (ps : props) :
  props_delete key (props_set key v ps) = props_delete key ps.
Proof.
  induction ps as [|[k w] ps IH]; cbn.
  - rewrite String.eqb_refl. reflexivity.
  - destruct (String.eqb k key) eqn:Hk; cbn; rewrite Hk; [reflexivity|]. rewrite IH. reflexivity.
Qed.

(** One turn of the dict loop, for an inner schema that leaves its input
    alone and a key schema that maps each key to itself: the value of the
    entry is resolved, and the entry leaves the data. *)
Lemma dict_body_consume (l : loc) (cur : props) (key : string) (inner : Schema)
    (sKey : Resolve) (strict : bool) (acc : props) (s : state) :
  readonly inner = true -> key_identity sKey ->
  heap_of s !! l = Some (OObj cur) ->
  props_has key cur = true ->
  dict_body (resolve_schema inner) sKey strict (VRef l) key acc s =
    match invoke inner (props_read key cur) s with
    | (Ok v, t) => (Ok (props_put key v acc), set_heap (heap_delete (heap_of t) (VRef l) key) t)
    | (Throw e, t) => (Throw e, t)
    end.
Proof.
  intros Hro HsKey Hl Hown. unfold dict_body, try_catch.
  rewrite !bind_unfold. destruct (HsKey key s) as [a0 Hkey]. rewrite Hkey.
  cbn [mret M_ret fst]. rewrite bind_unfold, property_invoke by exact Hro.
  cbn [heap_read]. rewrite Hl. cbn [obj_read pkey_string].
  pose proof (invoke_grows inner (props_read key cur) s Hro) as Hgrow.
  destruct (invoke inner (props_read key cur) s) as [[v|e] t]; [|reflexivity].
  cbn [snd] in Hgrow.
  assert (Hlt : heap_of t !! l = Some (OObj cur))
    by (eapply prefix_lookup_Some; eassumption).
  assert (Hbound : l < length (heap_of t)) by (eapply lookup_lt_Some; exact Hlt).
  rewrite bind_unfold. cbn [get_heap]. rewrite bind_unfold.
  cbn [get_property heap_read]. rewrite Hlt. cbn [obj_read pkey_string].
  repeat (rewrite bind_unfold;
          cbn [set_property delete_property modify ToString ToString_go mret M_ret]).
  f_equal. destruct t as [h c]. unfold set_heap. cbn [heap_of current] in *. f_equal.
  unfold heap_write, heap_delete. rewrite Hlt.
  rewrite list_lookup_insert_eq by exact Hbound.
  rewrite list_insert_insert_eq. cbn [obj_write pkey_string obj_delete].
  rewrite props_put_own by exact Hown. rewrite props_delete_set. reflexivity.
Qed.

Lemma consumed_all (keys : list string) (ps : props) :
  (forall k, k ∈ props_keys ps -> k ∈ keys) ->
  fold_left (fun ps k => props_delete k ps) keys ps = [].
Proof.
  revert ps. induction keys as [|key keys IH]; intros ps Hsub; cbn [fold_left].
  - destruct ps as [|[k v] ps]; [reflexivity|].
    exfalso. eapply not_elem_of_nil. apply (Hsub k). left.
  - apply IH. intros k Hk. apply props_keys_delete in Hk as [Hne Hk].
    apply Hsub in Hk. apply elem_of_cons in Hk as [?|?]; [congruence|assumption].
Qed.

(** The loop of the dict resolver reads, resolves and deletes the entries
    in turn. *)
Lemma dict_loop_consume (l : loc) (inner : Schema) (sKey : Resolve) (strict : bool) :
  readonly inner = true -> key_identity sKey ->
  forall (keys : list string) (cur acc : props) (s : state),
    NoDup keys ->
    heap_of s !! l = Some (OObj cur) ->
    (forall k, k ∈ keys -> props_has k cur = true) ->
    for_in_loop (VRef l) keys (dict_body (resolve_schema inner) sKey strict (VRef l)) acc s
    = match consume_entries inner (VRef l) keys s with
      | (Ok pairs, s2) => (Ok (props_assign pairs acc), s2)
      | (Throw e, s2) => (Throw e, s2)
      end
    /\ forall pairs s2,
         consume_entries inner (VRef l) keys s = (Ok pairs, s2) ->
         map fst pairs = keys
         /\ heap_of s2 !! l
            = Some (OObj (fold_left (fun ps k => props_delete k ps) keys cur)).
Proof.
  intros Hro HsKey. induction keys as [|key keys IH]; intros cur acc s Hnodup Hl Hown.
  - split; [reflexivity|]. intros pairs s2 H. cbn in H. injection H as <- <-. auto.
  - apply list.NoDup_cons in Hnodup as [Hkey Hnodup].
    assert (Hhas : has_property (VRef l) key s = (Ok true, s)).
    { unfold has_property. cbn [heap_has]. rewrite Hl. cbn [obj_has].
      rewrite (Hown key) by left. reflexivity. }
    assert (Hget : get_property (VRef l) (KStr key) s = (Ok (props_read key cur), s)).
    { unfold get_property. cbn [heap_read]. rewrite Hl. reflexivity. }
    cbn [consume_entries for_in_loop]. rewrite !bind_unfold, Hhas, Hget.
    rewrite bind_unfold, (dict_body_consume l cur key inner sKey strict acc s Hro HsKey Hl)
      by (apply Hown; left).
    rewrite bind_unfold.
    pose proof (invoke_grows inner (props_read key cur) s Hro) as Hgrow.
    destruct (invoke inner (props_read key cur) s) as [[v|e] t];
      [|split; [reflexivity|discriminate]].
    cbn [snd] in Hgrow. rewrite !bind_unfold. cbn [delete_property modify].
    assert (Hlt : heap_of t !! l = Some (OObj cur))
      by (eapply prefix_lookup_Some; eassumption).
    set (t1 := set_heap (heap_delete (heap_of t) (VRef l) key) t).
    assert (Hl1 : heap_of t1 !! l = Some (OObj (props_delete key cur))).
    { unfold t1, heap_delete. cbn [heap_of set_heap]. rewrite Hlt.
      rewrite list_lookup_insert_eq by (eapply lookup_lt_Some; exact Hlt). reflexivity. }
    destruct (IH (props_delete key cur) (props_put key v acc) t1 Hnodup Hl1)
      as [Hloop Hfinal].
    { intros k Hk. apply props_has_keys, props_keys_delete. split.
      - intros ->. exact (Hkey Hk).
      - apply props_has_keys, Hown. right. exact Hk. }
    rewrite Hloop, bind_unfold.
    destruct (consume_entries inner (VRef l) keys t1) as [[pairs|e] s2];
      [|split; [reflexivity|discriminate]].
    split; [reflexivity|]. intros pairs' s2' H. cbn in H. injection H as <- <-.
    destruct (Hfinal pairs s2 eq_refl) as [Hkeys Hcur].
    split; [cbn; f_equal; exact Hkeys|exact Hcur].
Qed.

(** [Object.assign({}, pairs)] for pairs with distinct keys: every pair but
    one named [__proto__]. *)
Lemma props_get_assign_distinct (pairs : props) :
  NoDup (map fst pairs) ->
  forall acc : props,
    props_get "__proto__" acc = None ->
    (forall k, k ∈ map fst pairs -> props_get k acc = None) ->
    forall key,
      props_get key (props_assign pairs acc) =
        match (if String.eqb key "__proto__" then None else props_get key pairs) with
        | Some v => Some v
        | None => props_get key acc
        end.
Proof.
  unfold props_assign.
  induction pairs as [|[k v] pairs IH]; intros Hnodup acc Hproto Hfresh key.
  - cbn. destruct (String.eqb key "__proto__"); reflexivity.
  - cbn [map fst] in Hnodup. apply list.NoDup_cons in Hnodup as [Hk Hnodup].
    cbn [fold_left fst snd].
    assert (Hacc : props_get k acc = None) by (apply Hfresh; left).
    destruct (String.eqb k "__proto__") eqn:Hkp.
    + apply String.eqb_eq in Hkp. subst k.
      assert (Hskip : props_put "__proto__" v acc = acc).
      { unfold props_put, props_has. rewrite Hproto. reflexivity. }
      rewrite Hskip, (IH Hnodup acc Hproto) by (intros k' Hk'; apply Hfresh; right; exact Hk').
      destruct (String.eqb key "__proto__") eqn:Hkey; [reflexivity|].
      cbn [props_get]. rewrite String.eqb_sym, Hkey. reflexivity.
    + apply String.eqb_neq in Hkp. rewrite props_put_set by exact Hkp.
      rewrite (IH Hnodup (props_set k v acc)).
      * destruct (String.eqb key "__proto__") eqn:Hkey.
        { apply String.eqb_eq in Hkey. subst key.
          rewrite props_get_set_ne by exact Hkp. reflexivity. }
        cbn [props_get]. destruct (String.eqb k key) eqn:Hkk.
        { apply String.eqb_eq in Hkk. subst key.
          assert (Hnone : props_get k pairs = None) by (apply props_get_None; exact Hk).
          rewrite Hnone. apply props_get_set_eq. }
        apply String.eqb_neq in Hkk. rewrite props_get_set_ne by exact Hkk. reflexivity.
      * rewrite props_get_set_ne by exact Hkp. exact Hproto.
      * intros k' Hk'. rewrite props_get_set_ne by (intros ->; exact (Hk Hk')).
        apply Hfresh. right. exact Hk'.
Qed.

(** X23. [dict(inner, sKey)] on a plain object with distinct keys, none
    beginning with a digit, with no [transform] and no [dict] in [inner]
    and a key schema that maps each key to itself: the entries are taken in
    turn, each read, resolved by [inner] and deleted from the input, from
    the state the one before left. When they all resolve, the input has no
    entry left and the result is a new object that has, under each key of
    the input but [__proto__], what the entry resolved to. When one throws,
    [resolve] throws, in the state that one left. The schema [inner] is
    [regular]: it looks nothing up in [Object.prototype]. *)
Theorem dict_resolves_each_entry (inner sKey : Schema) (m : Meta) (l : loc)
    (entries : props) (strict : bool) (s : state) :
  heap_of s !! l = Some (OObj entries) ->
  NoDup (props_keys entries) ->
  Forall (fun key => numeric key = false) (props_keys entries) ->
  readonly inner = true ->
  regular inner = true ->
  key_identity (resolve_schema sKey) ->
  (forall pairs s2,
     consume_entries inner (VRef l) (props_keys entries)
       (set_current (Some (Sdict inner sKey m)) s) = (Ok pairs, s2) ->
     exists result,
       resolve (VRef l) (Some (Sdict inner sKey m)) strict s
       = (Ok (VRef (length (heap_of s2)), VUndefined),
          set_current (current s) (set_heap (heap_of s2 ++ [OObj result])%list s2))
       /\ (forall key,
             props_get key result =
               if String.eqb key "__proto__" then None else props_get key pairs)
       /\ map fst pairs = props_keys entries
       /\ heap_of s2 !! l = Some (OObj []))
  /\ (forall e s2,
        consume_entries inner (VRef l) (props_keys entries)
          (set_current (Some (Sdict inner sKey m)) s) = (Throw e, s2) ->
        exists e', resolve (VRef l) (Some (Sdict inner sKey m)) strict s
                   = (Throw e', set_current (current s) s2)).
Proof.
  intros Hl Hnodup _ Hro _ HsKey.
  assert (Hl0 : heap_of (set_current (Some (Sdict inner sKey m)) s) !! l = Some (OObj entries))
    by exact Hl.
  pose proof (dict_loop_consume l inner (resolve_schema sKey) strict Hro HsKey
                (props_keys entries) entries [] _ Hnodup Hl0) as Hloop.
  assert (Hrun : resolve_dict (resolve_schema inner) (resolve_schema sKey) (VRef l) strict
                   (set_current (Some (Sdict inner sKey m)) s)
                 = (result ← for_in_loop (VRef l) (props_keys entries)
                               (dict_body (resolve_schema inner) (resolve_schema sKey) strict
                                  (VRef l)) [];
                    object ← alloc (OObj result);
                    mret (object, VUndefined)) (set_current (Some (Sdict inner sKey m)) s)).
  { unfold resolve_dict, for_in. rewrite !bind_unfold. cbn [get_heap isObject enumerable_keys].
    rewrite !Hl0. cbn [negb obj_keys]. rewrite !bind_unfold. cbn [get_heap enumerable_keys].
    rewrite ?Hl0. reflexivity. }
  destruct Hloop as [Hloop Hconsumed].
  { intros k Hk. apply props_has_keys. exact Hk. }
  cbn [resolve resolve_schema]. split.
  - intros pairs s2 Hmap. destruct (Hconsumed pairs s2 Hmap) as [Hkeys Hfinal].
    rewrite bind_unfold, Hloop, Hmap in Hrun.
    exists (props_assign pairs []). split; [|split; [|split]].
    + apply resolve_with_ok; [reflexivity|]. rewrite Hrun. reflexivity.
    + intros key. rewrite props_get_assign_distinct.
      * destruct (if String.eqb key "__proto__" then None else props_get key pairs);
          reflexivity.
      * rewrite Hkeys. exact Hnodup.
      * reflexivity.
      * reflexivity.
    + exact Hkeys.
    + rewrite Hfinal. f_equal. f_equal. apply consumed_all. auto.
  - intros e s2 Hmap. rewrite bind_unfold, Hloop, Hmap in Hrun.
    exact (resolve_with_throws _ _ (VRef l) strict s e s2 eq_refl Hrun).
Qed.

Lemma dict_resolves_each_entry_witness :
  exists result,
    resolve (VRef 0) (Some (Sdict Schema.number Schema.any empty_meta)) false
      (initial [OObj [("__proto__", VNum 1); ("b", VNum 2)]])
    = (Ok (VRef 1, VUndefined), initial [OObj []; OObj result])
    /\ (forall key,
          props_get key result =
            if String.eqb key "__proto__" then None
            else props_get key [("__proto__", VNum 1); ("b", VNum 2)])
    /\ map fst [("__proto__", VNum 1); ("b", VNum 2)] = ["__proto__"; "b"]
    /\ [OObj []] !! 0 = Some (OObj []).
Proof.
  refine (proj1 (dict_resolves_each_entry Schema.number Schema.any empty_meta 0
                   [("__proto__", VNum 1); ("b", VNum 2)] false
                   (initial [OObj [("__proto__", VNum 1); ("b", VNum 2)]])
                   eq_refl _ _ eq_refl eq_refl _)
            [("__proto__", VNum 1); ("b", VNum 2)]
            {| heap_of := [OObj []];
               current := Some (Sdict Schema.number Schema.any empty_meta) |}
            eq_refl).
  - apply (bool_decide_unpack (NoDup ["__proto__"; "b"])). reflexivity.
  - repeat constructor.
  - intros key s. eexists. apply resolve_any_key.
Defined.

(** ** What [SchemaError.current] and the descriptive metadata do not change *)

Lemma resolve_with_ambient (schema : Schema) (callback : option Resolve) data hint
    (c : option Schema) (s : state) :
  resolve_with schema callback data hint (set_current c s)
  = (fst (resolve_with schema callback data hint s),
     set_current c (snd (resolve_with schema callback data hint s))).
Proof.
  unfold resolve_with, try_finally, try_catch.
  match goal with
  | |- context [(?b ≫= ?k) (set_current c s)] =>
      change ((b ≫= k) (set_current c s)) with ((b ≫= k) s);
      destruct ((b ≫= k) s) as [[r|e] s']
  end.
  - reflexivity.
  - destruct (rewrap_throws (A := value * value) e s') as (e' & -> & _). reflexivity.
Qed.

(** X24. [resolve] does not depend on the [SchemaError.current] it is called
    with: called in another context it returns or throws the same, errors
    and their contexts included, leaves the same heap, and leaves that
    other context in place. *)
Theorem resolve_ignores_ambient_context (data : value) (schema : option Schema)
    (hint : bool) (c : option Schema) (s : state) :
  resolve data schema hint (set_current c s)
  = (fst (resolve data schema hint s), set_current c (snd (resolve data schema hint s))).
Proof.
  destruct schema as [schema|]; [|reflexivity]. cbn [resolve].
  destruct (resolve_schema_unfold schema) as [callback ->]. apply resolve_with_ambient.
Qed.

Lemma same_error_sym (e e' : exn) : same_error e e' -> same_error e' e.
Proof. destruct e, e'; cbn; auto. Qed.

Lemma same_error_trans (e1 e2 e3 : exn) :
  same_error e1 e2 -> same_error e2 e3 -> same_error e1 e3.
Proof. destruct e1, e2, e3; cbn; try contradiction; congruence. Qed.

Lemma same_error_message (e e' : exn) : same_error e e' -> exn_message e = exn_message e'.
Proof. destruct e, e'; cbn; intros H; try contradiction; exact H. Qed.

Lemma state_eq (s t : state) : heap_of s = heap_of t -> current s = current t -> s = t.
Proof. destruct s, t; cbn; intros -> ->; reflexivity. Qed.

Lemma alike_sym {A} (x y : outcome A * state) : alike x y -> alike y x.
Proof.
  intros [Hheap Hout]. split; [symmetry; exact Hheap|].
  destruct (fst x), (fst y); try contradiction; [symmetry; exact Hout|].
  apply same_error_sym. exact Hout.
Qed.

Lemma alike_trans {A} (x y z : outcome A * state) : alike x y -> alike y z -> alike x z.
Proof.
  intros [Hheap1 Hout1] [Hheap2 Hout2]. split; [congruence|].
  destruct (fst x), (fst y), (fst z); try contradiction; [congruence|].
  eapply same_error_trans; eassumption.
Qed.

Lemma alike_ret {A} (a : A) : alike_runs (mret a) (mret a).
Proof. intros s t Hst. split; [exact Hst|reflexivity]. Qed.

Lemma alike_bind {A B} (m m' : M A) (f f' : A -> M B) :
  alike_runs m m' -> (forall a, alike_runs (f a) (f' a)) -> alike_runs (m ≫= f) (m' ≫= f').
Proof.
  intros Hm Hf s t Hst. rewrite !bind_unfold. destruct (Hm s t Hst) as [Hheap Hout].
  destruct (m s) as [[a|e] s1], (m' t) as [[b|e'] t1]; cbn in Hheap, Hout; try contradiction.
  - subst b. apply Hf. exact Hheap.
  - split; [exact Hheap|exact Hout].
Qed.

Lemma alike_throw_SchemaError {A} (message : string) :
  alike_runs (throw_SchemaError (A := A) message) (throw_SchemaError message).
Proof. intros s t Hst. split; [exact Hst|reflexivity]. Qed.

(** An operation on the heap alone. *)
Lemma alike_heap_op {A} (f : heap -> A) (g : heap -> heap) (m : M A) :
  (forall s, m s = (Ok (f (heap_of s)), set_heap (g (heap_of s)) s)) -> alike_runs m m.
Proof.
  intros Hm s t Hst. rewrite (Hm s), (Hm t), Hst. split; reflexivity.
Qed.

Lemma alike_get_heap : alike_runs get_heap get_heap.
Proof.
  apply (alike_heap_op (fun h => h) (fun h => h)). intros s.
  rewrite set_heap_same. reflexivity.
Qed.

Lemma alike_get_property (data : value) (key : pkey) :
  alike_runs (get_property data key) (get_property data key).
Proof.
  apply (alike_heap_op (fun h => heap_read h data key) (fun h => h)). intros s.
  rewrite set_heap_same. reflexivity.
Qed.

Lemma alike_has_property (data : value) (key : string) :
  alike_runs (has_property data key) (has_property data key).
Proof.
  apply (alike_heap_op (fun h => heap_has h data key) (fun h => h)). intros s.
  rewrite set_heap_same. reflexivity.
Qed.

Lemma alike_in_property (data : value) (key : string) :
  alike_runs (in_property data key) (in_property data key).
Proof.
  apply (alike_heap_op (fun h => heap_in h data key) (fun h => h)). intros s.
  rewrite set_heap_same. reflexivity.
Qed.

Lemma alike_set_property (data : value) (key : pkey) (v : value) :
  alike_runs (set_property data key v) (set_property data key v).
Proof.
  apply (alike_heap_op (fun _ => tt) (fun h => heap_write h data key v)). reflexivity.
Qed.

Lemma alike_delete_property (data : value) (key : string) :
  alike_runs (delete_property data key) (delete_property data key).
Proof.
  apply (alike_heap_op (fun _ => tt) (fun h => heap_delete h data key)). reflexivity.
Qed.

Lemma alike_alloc (o : obj) : alike_runs (alloc o) (alloc o).
Proof.
  apply (alike_heap_op (fun h => VRef (length h)) (fun h => (h ++ [o])%list)).
  reflexivity.
Qed.

Lemma alike_assign_into (data source : value) :
  alike_runs (assign_into data source) (assign_into data source).
Proof.
  apply (alike_heap_op (fun _ => tt)
           (fun h => fold_left (fun h kv => heap_write h data (KStr (fst kv)) (snd kv))
                       (own_entries h source) h)).
  reflexivity.
Qed.

Lemma alike_stringify (data : value) : alike_runs (stringify data) (stringify data).
Proof.
  intros s t Hst. unfold stringify. rewrite Hst.
  destruct (JSON_stringify (heap_of t) data); (split; [exact Hst|reflexivity]).
Qed.

Lemma alike_call (callback : Callback) (v : value) :
  alike_runs (call callback v) (call callback v).
Proof.
  intros s t Hst. unfold call. rewrite Hst.
  destruct (callback v (heap_of t)) as [[r|message|what] effects]; split; reflexivity.
Qed.

Lemma alike_try_catch {A} (body body' : M A) (handler handler' : exn -> M A) :
  alike_runs body body' ->
  (forall e e' s t, same_error e e' -> heap_of s = heap_of t ->
     alike (handler e s) (handler' e' t)) ->
  alike_runs (try_catch body handler) (try_catch body' handler').
Proof.
  intros Hbody Hhandler s t Hst. unfold try_catch.
  destruct (Hbody s t Hst) as [Hheap Hout].
  destruct (body s) as [[a|e] s1], (body' t) as [[b|e'] t1]; cbn in Hheap, Hout;
    try contradiction.
  - split; [exact Hheap|exact Hout].
  - apply Hhandler; assumption.
Qed.

Lemma alike_mapM {A B} (f f' : A -> M B) (l : list A) :
  (forall x, alike_runs (f x) (f' x)) -> alike_runs (mapM f l) (mapM f' l).
Proof.
  intros Hf. induction l as [|x l IH]; cbn [mapM].
  - apply alike_ret.
  - apply alike_bind; [apply Hf|]. intros y.
    apply alike_bind; [apply IH|]. intros ys. apply alike_ret.
Qed.

Lemma alike_for_in_loop {A} (subject : value) (keys : list string)
    (body body' : string -> A -> M A) (acc : A) :
  (forall key acc, alike_runs (body key acc) (body' key acc)) ->
  alike_runs (for_in_loop subject keys body acc) (for_in_loop subject keys body' acc).
Proof.
  intros Hbody. revert acc. induction keys as [|key keys IH]; intros acc; cbn [for_in_loop].
  - apply alike_ret.
  - apply alike_bind; [apply alike_has_property|]. intros [|].
    + apply alike_bind; [apply Hbody|]. intros acc'. apply IH.
    + apply IH.
Qed.

Lemma alike_for_in {A} (subject : value) (body body' : string -> A -> M A) (acc : A) :
  (forall key acc, alike_runs (body key acc) (body' key acc)) ->
  alike_runs (for_in subject body acc) (for_in subject body' acc).
Proof.
  intros Hbody. unfold for_in. apply alike_bind; [apply alike_get_heap|].
  intros h. apply alike_for_in_loop. exact Hbody.
Qed.

Lemma alike_leaf_throw {A} (data : value) (message : string -> string) :
  alike_runs (text ← stringify data; throw_SchemaError (A := A) (message text))
             (text ← stringify data; throw_SchemaError (message text)).
Proof.
  apply alike_bind; [apply alike_stringify|]. intros text. apply alike_throw_SchemaError.
Qed.

Lemma alike_container (o : obj) :
  alike_runs (container ← alloc o; mret (container, VUndefined))
             (container ← alloc o; mret (container, VUndefined)).
Proof.
  apply alike_bind; [apply alike_alloc|]. intros container. apply alike_ret.
Qed.

Lemma alike_property (data : value) (key : pkey) (schema schema' : Resolve) :
  alike_resolvers schema schema' ->
  alike_runs (property data key schema) (property data key schema').
Proof.
  intros Hschema. unfold property.
  apply alike_bind; [apply alike_get_property|]. intros item.
  apply alike_bind; [apply Hschema|]. intros [value adapted].
  destruct (isNullable adapted); [apply alike_ret|].
  apply alike_bind; [apply alike_set_property|]. intros _. apply alike_ret.
Qed.

Lemma alike_merge (result : props) (data : value) :
  alike_runs (merge result data) (merge result data).
Proof.
  unfold merge. apply alike_for_in. intros key acc. unfold merge_body.
  destruct (props_in key acc); [apply alike_ret|].
  apply alike_bind; [apply alike_get_property|]. intros item. apply alike_ret.
Qed.

Lemma alike_array (inner inner' : Resolve) :
  alike_resolvers inner inner' -> alike_resolvers (resolve_array inner) (resolve_array inner').
Proof.
  intros Hinner data hint. unfold resolve_array.
  apply alike_bind; [apply alike_get_heap|]. intros h.
  destruct (negb (isArray h data)); [apply alike_leaf_throw|].
  apply alike_bind; [|intros result; apply alike_container].
  apply alike_mapM. intros index. apply alike_property. exact Hinner.
Qed.

Lemma alike_dict (inner inner' sKey sKey' : Resolve) :
  alike_resolvers inner inner' -> alike_resolvers sKey sKey' ->
  alike_resolvers (resolve_dict inner sKey) (resolve_dict inner' sKey').
Proof.
  intros Hinner HsKey data strict. unfold resolve_dict.
  apply alike_bind; [apply alike_get_heap|]. intros h.
  destruct (negb (isObject h data)); [apply alike_leaf_throw|].
  apply alike_bind; [|intros result; apply alike_container].
  apply alike_for_in. intros key acc. unfold dict_body.
  apply alike_bind.
  { apply alike_try_catch.
    - apply alike_bind; [apply HsKey|]. intros r. apply alike_ret.
    - intros e e' s t He Hst. destruct strict; [apply alike_ret; exact Hst|].
      split; [exact Hst|exact He]. }
  intros [rKey|]; [|apply alike_ret].
  apply alike_bind; [apply alike_property; exact Hinner|]. intros value.
  apply alike_bind; [apply alike_get_heap|]. intros h'.
  apply alike_bind; [apply alike_get_property|]. intros item.
  apply alike_bind; [apply alike_set_property|]. intros _.
  apply alike_bind; [apply alike_delete_property|]. intros _.
  apply alike_ret.
Qed.

Lemma alike_tuple (lst lst' : list Resolve) :
  Forall2 alike_resolvers lst lst' ->
  alike_resolvers (resolve_tuple lst) (resolve_tuple lst').
Proof.
  intros Hlst data strict. unfold resolve_tuple.
  apply alike_bind; [apply alike_get_heap|]. intros h.
  destruct (negb (isArray h data)); [apply alike_leaf_throw|].
  pose proof Hlst as Hlen. apply list.Forall2_length in Hlen. rewrite <- Hlen. clear Hlen.
  apply alike_bind.
  { generalize 0. induction Hlst as [|inner inner' lst lst' Hinner _ IH]; intros index;
      cbn [tuple_loop].
    - apply alike_ret.
    - apply alike_bind; [apply alike_property; exact Hinner|]. intros value.
      apply alike_bind; [apply IH|]. intros values. apply alike_ret. }
  intros result. destruct strict; [apply alike_container|].
  apply alike_bind; [apply alike_get_heap|]. intros h'. apply alike_container.
Qed.

Lemma alike_object (dict dict' : list (string * Resolve)) :
  Forall2 (fun kv kv' => fst kv = fst kv' /\ alike_resolvers (snd kv) (snd kv')) dict dict' ->
  alike_resolvers (resolve_object dict) (resolve_object dict').
Proof.
  intros Hdict data strict. unfold resolve_object.
  apply alike_bind; [apply alike_get_heap|]. intros h.
  destruct (negb (isObject h data)); [apply alike_leaf_throw|].
  apply alike_bind.
  { generalize (@nil (string * value)).
    induction Hdict as [|[key schema] [key' schema'] dict dict' [Hkey Hschema] _ IH];
      intros result; cbn [object_loop].
    - apply alike_ret.
    - cbn [fst snd] in Hkey, Hschema. subst key'.
      apply alike_bind; [apply alike_property; exact Hschema|]. intros value.
      apply alike_bind; [apply alike_in_property|]. intros present.
      destruct (negb (isNullable value) || present); apply IH. }
  intros result. apply alike_bind; [|intros result'; apply alike_container].
  destruct strict; [apply alike_ret|apply alike_merge].
Qed.

Lemma alike_union (lst lst' : list Resolve) :
  Forall2 alike_resolvers lst lst' ->
  alike_resolvers (resolve_union lst) (resolve_union lst').
Proof.
  intros Hlst data hint. unfold resolve_union. apply alike_bind.
  { generalize (@nil string).
    induction Hlst as [|inner inner' lst lst' Hinner _ IH]; intros messages;
      cbn [union_loop].
    - apply alike_ret.
    - apply alike_try_catch.
      + apply alike_bind; [apply Hinner|]. intros r. apply alike_ret.
      + intros e e' s t He Hst. rewrite (same_error_message e e' He). apply IH. exact Hst. }
  intros [result|messages]; [apply alike_ret|apply alike_leaf_throw].
Qed.

Lemma alike_intersect (lst lst' : list Resolve) :
  Forall2 alike_resolvers lst lst' ->
  alike_resolvers (resolve_intersect lst) (resolve_intersect lst').
Proof.
  intros Hlst data hint. unfold resolve_intersect. apply alike_bind.
  { generalize (@nil (string * value)).
    induction Hlst as [|inner inner' lst lst' Hinner _ IH]; intros result;
      cbn [intersect_loop].
    - apply alike_ret.
    - apply alike_bind; [apply Hinner|]. intros r.
      apply alike_bind; [apply alike_get_heap|]. intros h. apply IH. }
  intros result. apply alike_bind; [apply alike_get_heap|]. intros h.
  apply alike_bind; [|intros result'; apply alike_container].
  destruct (isObject h data); [apply alike_merge|apply alike_ret].
Qed.

Lemma alike_transform (inner inner' : Resolve) (callback : Callback) :
  alike_resolvers inner inner' ->
  alike_resolvers (resolve_transform inner callback) (resolve_transform inner' callback).
Proof.
  intros Hinner data hint. unfold resolve_transform.
  apply alike_bind; [apply Hinner|]. intros [result adapted].
  apply alike_bind; [apply alike_get_heap|]. intros h.
  destruct (isObject h data).
  - apply alike_bind.
    { apply alike_for_in. intros key temp. unfold transform_body.
      apply alike_bind; [apply alike_in_property|]. intros present.
      destruct (negb present); [apply alike_ret|].
      apply alike_bind; [apply alike_get_property|]. intros item.
      apply alike_bind; [apply alike_delete_property|]. intros _.
      apply alike_ret. }
    intros temp. apply alike_bind; [apply alike_alloc|]. intros temp'.
    apply alike_bind; [apply alike_call|]. intros patch.
    apply alike_bind; [apply alike_assign_into|]. intros _.
    apply alike_bind; [apply alike_call|]. intros value. apply alike_ret.
  - apply alike_bind; [apply alike_call|]. intros value.
    apply alike_bind; [apply alike_call|]. intros echo. apply alike_ret.
Qed.

Lemma resolve_with_unregistered (schema : Schema) (data : value) (hint : bool) (s : state) :
  isNullable data = false ->
  resolve_with schema None data hint s
  = (Throw (SchemaError ("unsupported type " ++ dquote ++ type schema ++ dquote)
              (Some schema)), s).
Proof.
  intros Hnull. unfold resolve_with, try_finally, try_catch. rewrite bind_unfold.
  cbn [modify]. rewrite Hnull. destruct s; reflexivity.
Qed.

(** [resolve] reads of a schema its type, its payload, and of its metadata
    [required] and [default]. *)
Lemma alike_resolve_with (schema schema' : Schema) (callback callback' : option Resolve) :
  type schema = type schema' ->
  meta_required (meta schema) = meta_required (meta schema') ->
  fallback_of (meta schema) = fallback_of (meta schema') ->
  option_Forall2 alike_resolvers callback callback' ->
  alike_resolvers (resolve_with schema callback) (resolve_with schema' callback').
Proof.
  intros Htype Hrequired Hfallback Hcallback data hint s t Hst.
  assert (Hdispatch : forall d, isNullable d = false ->
            alike (resolve_with schema callback d hint s)
                  (resolve_with schema' callback' d hint t)).
  { intros d Hd. destruct Hcallback as [cb cb' Hcb|].
    - rewrite (resolve_with_dispatch schema), (resolve_with_dispatch schema') by exact Hd.
      destruct (Hcb d hint (set_current (Some schema) s) (set_current (Some schema') t) Hst)
        as [Hheap Hout].
      destruct (cb d hint (set_current (Some schema) s)) as [[r|e] s1],
               (cb' d hint (set_current (Some schema') t)) as [[r'|e'] t1];
        cbn in Hheap, Hout; try contradiction.
      + split; [exact Hheap|exact Hout].
      + destruct e, e'; cbn in Hout; try contradiction; (split; [exact Hheap|exact Hout]).
    - rewrite (resolve_with_unregistered schema), (resolve_with_unregistered schema')
        by exact Hd. rewrite Htype.
      split; [exact Hst|reflexivity]. }
  destruct (isNullable data) eqn:Hnull; [|apply Hdispatch; exact Hnull].
  rewrite (resolve_with_nullable schema), (resolve_with_nullable schema') by exact Hnull.
  rewrite <- Hrequired, <- Hfallback.
  destruct (meta_required (meta schema)); [split; [exact Hst|reflexivity]|].
  destruct (isNullable (fallback_of (meta schema))) eqn:Hdefault;
    [split; [exact Hst|reflexivity]|].
  apply Hdispatch. exact Hdefault.
Qed.

Lemma Forall2_alike_bare (lst : list Schema) :
  Forall (fun x => alike_resolvers (resolve_schema x) (resolve_schema (bare x))) lst ->
  Forall2 alike_resolvers (map resolve_schema lst) (map resolve_schema (map bare lst)).
Proof. induction 1; cbn [map]; constructor; assumption. Qed.

(** A schema and the same schema without its descriptive metadata resolve
    alike. *)
Lemma alike_bare (schema : Schema) :
  alike_resolvers (resolve_schema schema) (resolve_schema (bare schema)).
Proof.
  induction schema using Schema_ind; cbn [bare resolve_schema];
    (apply alike_resolve_with; [reflexivity..|]); constructor.
  - intros data hint. apply alike_ret.
  - intros data hint. apply alike_leaf_throw.
  - intros data hint. unfold resolve_const.
    destruct (strict_equal data v); [apply alike_ret|].
    apply alike_bind; [apply alike_get_heap|]. intros h. apply alike_leaf_throw.
  - intros data hint. unfold resolve_string.
    destruct data; apply alike_ret || apply alike_leaf_throw.
  - intros data hint. unfold resolve_number.
    destruct data; apply alike_ret || apply alike_leaf_throw.
  - intros data hint. unfold resolve_boolean.
    destruct data; apply alike_ret || apply alike_leaf_throw.
  - intros data hint. unfold resolve_is.
    apply alike_bind; [apply alike_get_heap|]. intros h.
    destruct (ctor_hasInstance c h data); [apply alike_ret|apply alike_throw_SchemaError].
  - apply alike_array. exact IHschema.
  - apply alike_dict; assumption.
  - apply alike_tuple, Forall2_alike_bare. exact H.
  - apply alike_object. induction H as [|kv dict Hkv _ IH]; cbn [map]; constructor.
    + split; [reflexivity|exact Hkv].
    + exact IH.
  - apply alike_union, Forall2_alike_bare. exact H.
  - apply alike_intersect, Forall2_alike_bare. exact H.
  - apply alike_transform. exact IHschema.
Qed.

(** X25. [hidden], [adaptive], [comment] and [description] do not change how a
    schema resolves, wherever in the schema they are set: two schemas that
    are the same without them return the same value and adapted echo, or
    throw errors with the same message, and leave the same state. *)
Theorem descriptive_metadata_inert (schema : Schema) :
  (bare (hidden schema) = bare schema
   /\ bare (adaptive schema) = bare schema
   /\ (forall text, bare (comment text schema) = bare schema)
   /\ (forall text, bare (description text schema) = bare schema))
  /\ forall (schema' : Schema) (data : value) (hint : bool) (s : state),
       bare schema = bare schema' ->
       snd (resolve data (Some schema) hint s) = snd (resolve data (Some schema') hint s)
       /\ match fst (resolve data (Some schema) hint s),
                fst (resolve data (Some schema') hint s) with
          | Ok r, Ok r' => r = r'
          | Throw e, Throw e' => same_error e e'
          | _, _ => False
          end.
Proof.
  split; [repeat split; intros; destruct schema; reflexivity|].
  intros schema' data hint s Hbare. cbn [resolve].
  pose proof (alike_bare schema data hint s s eq_refl) as H1.
  pose proof (alike_bare schema' data hint s s eq_refl) as H2.
  rewrite <- Hbare in H2.
  destruct (alike_trans _ _ _ H1 (alike_sym _ _ H2)) as [Hheap Hout].
  split; [|exact Hout]. apply state_eq; [exact Hheap|].
  destruct (resolve_schema_unfold schema) as [callback ->].
  destruct (resolve_schema_unfold schema') as [callback' ->].
  rewrite !resolve_with_restores. reflexivity.
Qed.

Lemma descriptive_metadata_inert_witness :
  snd (resolve (VStr "x")
         (Some (Sarray (description "a count" (hidden Schema.number)) empty_meta)) false
         (initial []))
  = snd (resolve (VStr "x") (Some (Sarray Schema.number empty_meta)) false (initial []))
  /\ match fst (resolve (VStr "x")
                  (Some (Sarray (description "a count" (hidden Schema.number)) empty_meta))
                  false (initial [])),
           fst (resolve (VStr "x") (Some (Sarray Schema.number empty_meta)) false (initial []))
     with
     | Ok r, Ok r' => r = r'
     | Throw e, Throw e' => same_error e e'
     | _, _ => False
     end.
Proof.
  exact (proj2 (descriptive_metadata_inert
                  (Sarray (description "a count" (hidden Schema.number)) empty_meta))
           (Sarray Schema.number empty_meta) (VStr "x") false (initial []) eq_refl).
Defined.

(** ** A union of literals *)

Lemma mapM_from_literals (vs : list value) :
  Forall (fun v => is_literal v = true) vs ->
  mapM from (map FromValue vs) = Some (map (fun v => required (Schema.const v)) vs).
Proof.
  induction 1 as [|v vs Hv _ IH]; [reflexivity|].
  cbn [map mapM]. rewrite IH. destruct v; try discriminate; reflexivity.
Qed.

Lemma literal_alternative (v x : value) (hint : bool) (s : state) :
  isNullable x = false ->
  (x = v -> resolve_schema (required (Schema.const v)) x hint s = (Ok (x, VUndefined), s))
  /\ (x <> v -> exists e, resolve_schema (required (Schema.const v)) x hint s = (Throw e, s)).
Proof.
  intros Hx.
  destruct (const_value_only v (meta (required (Schema.const v))) x hint s Hx) as [Hsame Hother].
  assert (Hstate : snd (resolve_schema (required (Schema.const v)) x hint s) = s).
  { apply (resolve_with_state (required (Schema.const v)) (resolve_const v)).
    intros d h t. unfold resolve_const. destruct (strict_equal d v); [reflexivity|].
    rewrite bind_unfold. cbn [get_heap]. apply stringify_throw_state. }
  cbn [resolve required Schema.const with_meta meta] in *. split.
  - intros ->. apply Hsame. reflexivity.
  - intros Hne. specialize (Hother Hne).
    match goal with
    | |- exists e, ?run = _ => destruct run as [[r|e] s'] eqn:Hrun
    end.
    + exfalso. exact (Hother r s' eq_refl).
    + exists e. cbn [snd] in Hstate. rewrite Hstate. reflexivity.
Qed.

Lemma union_loop_literals (vs : list value) (x : value) (s : state) :
  isNullable x = false ->
  forall messages,
    (x ∈ vs ->
     union_loop (map resolve_schema (map (fun v => required (Schema.const v)) vs)) x
       messages s = (Ok (inl (x, VUndefined)), s))
    /\ (x ∉ vs ->
        exists messages',
          union_loop (map resolve_schema (map (fun v => required (Schema.const v)) vs)) x
            messages s = (Ok (inr messages'), s)).
Proof.
  intros Hx. induction vs as [|v vs IH]; intros messages.
  - split; [intros Hin; exfalso; eapply not_elem_of_nil; exact Hin|].
    intros _. eexists. reflexivity.
  - cbn [map union_loop]. unfold try_catch. rewrite bind_unfold.
    destruct (literal_alternative v x false s Hx) as [Hsame Hother].
    destruct (decide (x = v)) as [Heq|Hne].
    + rewrite (Hsame Heq). split; [reflexivity|].
      intros Hnot. exfalso. apply Hnot. subst. apply list_elem_of_here.
    + destruct (Hother Hne) as [e ->]. split.
      * intros Hin. apply elem_of_cons in Hin as [?|Hin]; [contradiction|].
        apply IH. exact Hin.
      * intros Hnot. apply not_elem_of_cons in Hnot as [_ Hnot]. apply IH. exact Hnot.
Qed.

(** X26. [Schema.union] of strings, numbers and booleans is an enumeration: it
    returns the data when the data is one of them, throws [expected union
    but got] and the JSON text of the data for any other non-null data, and
    returns null or undefined data as it is, the union itself not being
    required. The state is left as it was. *)
Theorem union_of_literals (vs : list value) (x : value) (hint : bool) (s : state) :
  Forall (fun v => is_literal v = true) vs ->
  exists schema,
    Schema.union (map FromValue vs) = Some schema
    /\ (isNullable x = true -> resolve x (Some schema) hint s = (Ok (x, VUndefined), s))
    /\ (x ∈ vs -> resolve x (Some schema) hint s = (Ok (x, VUndefined), s))
    /\ (isNullable x = false -> x ∉ vs ->
        forall text, JSON_stringify (heap_of s) x = Some text ->
          resolve x (Some schema) hint s
          = (Throw (SchemaError ("expected union but got " ++ text) (Some schema)), s)).
Proof.
  intros Hvs. eexists. split.
  { unfold Schema.union. rewrite (mapM_from_literals vs Hvs). reflexivity. }
  set (schema := Sunion (map (fun v => required (Schema.const v)) vs) empty_meta).
  cbn [resolve]. change (resolve_schema schema) with
    (resolve_with schema
       (Some (resolve_union
                (map resolve_schema (map (fun v => required (Schema.const v)) vs))))).
  split; [|split].
  - intros Hnull. rewrite resolve_with_nullable by exact Hnull. reflexivity.
  - intros Hin.
    assert (Hx : isNullable x = false).
    { rewrite list.Forall_forall in Hvs. apply is_literal_not_null, Hvs. exact Hin. }
    rewrite resolve_with_dispatch by exact Hx. unfold resolve_union. rewrite bind_unfold.
    rewrite (proj1 (union_loop_literals vs x _ Hx []) Hin).
    cbn. rewrite set_current_restore. reflexivity.
  - intros Hx Hnot text Htext.
    rewrite resolve_with_dispatch by exact Hx. unfold resolve_union. rewrite bind_unfold.
    destruct (proj2 (union_loop_literals vs x (set_current (Some schema) s) Hx []) Hnot)
      as [messages' ->].
    rewrite bind_unfold. unfold stringify. cbn [heap_of set_current]. rewrite Htext.
    destruct s; reflexivity.
Qed.

Lemma union_of_literals_witness :
  exists schema,
    Schema.union (map FromValue [VStr "a"; VStr "b"]) = Some schema
    /\ (isNullable (VStr "c") = true ->
        resolve (VStr "c") (Some schema) false (initial [])
        = (Ok (VStr "c", VUndefined), initial []))
    /\ (VStr "c" ∈ [VStr "a"; VStr "b"] ->
        resolve (VStr "c") (Some schema) false (initial [])
        = (Ok (VStr "c", VUndefined), initial []))
    /\ (isNullable (VStr "c") = false -> VStr "c" ∉ [VStr "a"; VStr "b"] ->
        forall text, JSON_stringify [] (VStr "c") = Some text ->
          resolve (VStr "c") (Some schema) false (initial [])
          = (Throw (SchemaError ("expected union but got " ++ text) (Some schema)),
             initial [])).
Proof.
  apply (union_of_literals [VStr "a"; VStr "b"] (VStr "c") false (initial [])).
  repeat constructor.
Defined.

(** ** Key schemas, and the echo of a transform *)

(** X27. [Schema.dict(inner)], declared without a key schema, has the key schema
    [any()]; that key schema and [string()], whatever their metadata, map
    every key to itself and change nothing. *)
Theorem usual_key_schemas_keep_keys (inner : Schema) (m : Meta) :
  Schema.dict (FromSchema inner) (FromValue VUndefined)
  = Some (Sdict inner Schema.any empty_meta)
  /\ key_identity (resolve_schema (Sany m))
  /\ key_identity (resolve_schema (Sstring m)).
Proof.
  split; [reflexivity|]. split; intros key s; exists VUndefined; cbn [resolve_schema];
    rewrite resolve_with_dispatch by reflexivity; cbn; rewrite set_current_restore;
    reflexivity.
Qed.














